(** * bigstream: block decomposition of distributed transforms

    A shallow embedding of [bigstream/distributed_transform.py] and
    [bigstream/piecewise_transform.py]: the block planner, the per-block
    transform localisation, the corner mapping that selects the moving
    region, the overlap crop, the result assembly, the two coordinate
    partitioning pipelines, the block closure of the piecewise resampling
    and the block-wise inversion of a displacement field of both files.

    Conventions of the embedding.
    - Voxel indices, shapes, block sizes and overlaps are integers ([Z]).
    - Python floats (spacings, physical coordinates, the overlap factor) are
      modelled by exact rationals ([Q]): every float is a rational, and the
      rounding error of float64 products, quotients and sums is not
      modelled.
    - A numpy vector is a [list], a two-dimensional array a list of rows;
      element-wise numpy operators are the [zip_with]/[fmap] of the scalar
      operator. Operands are meant to have equal lengths; broadcasting of
      operands of different shapes is not modelled.
    - The source unpacks three indices per block ([for (i, j, k) in
      np.ndindex]) and enumerates the corners with [repeat=3]: it runs on
      three-dimensional volumes. The planner is written for any number of
      axes and used at three.
    - A Python exception is a value [Raise e] of the [result] monad.
    - The routines of [bigstream.transform] and the dask client are external
      to these files; they appear as section variables. *)

From Stdlib Require Import ZArith QArith Qround Qminmax Lia Lqa.
From stdpp Require Import base list.

Open Scope Z_scope.

(** ** numpy and Python primitives *)

Module Np.

(** [np.round]: round to the nearest integer, ties to the even one. *)
Definition round (x : Q) : Z :=
  let f := Qfloor x in
  match (x - inject_Z f ?= 1 # 2)%Q with
  | Lt => f
  | Gt => f + 1
  | Eq => if Z.even f then f else f + 1
  end.

Definition floor (x : Q) : Z := Qfloor x.
Definition ceil (x : Q) : Z := Qceiling x.

(** [range(n)] *)
Definition range (n : Z) : list Z := seqZ 0 n.

(** [np.ndindex]: all multi-indices below the counts [ns], last axis fastest. *)
Fixpoint ndindex (ns : list Z) : list (list Z) :=
  match ns with
  | [] => [[]]
  | n :: ns' => i ← range n; (i ::.) <$> ndindex ns'
  end.

(** [itertools.product([0, 1], repeat=d)] *)
Fixpoint product01 (d : nat) : list (list bool) :=
  match d with
  | O => [[]]
  | S d' => b ← [false; true]; (b ::.) <$> product01 d'
  end.

(** Element-wise operators on integer vectors. *)
Definition mul (a b : list Z) : list Z := zip_with Z.mul a b.
Definition add (a b : list Z) : list Z := zip_with Z.add a b.
Definition sub (a b : list Z) : list Z := zip_with Z.sub a b.
Definition scale (c : Z) (a : list Z) : list Z := Z.mul c <$> a.
(** [np.maximum(0, a)] and [np.minimum(shape, a)] *)
Definition maximum0 (a : list Z) : list Z := Z.max 0 <$> a.
Definition minimum (a b : list Z) : list Z := zip_with Z.min a b.

(** Element-wise operators on float vectors. *)
Definition qmul (a b : list Q) : list Q := zip_with Qmult a b.
Definition qdiv (a b : list Q) : list Q := zip_with Qdiv a b.
Definition qadd (a b : list Q) : list Q := zip_with Qplus a b.
Definition of_ints (a : list Z) : list Q := inject_Z <$> a.

End Np.

(** ** Slices and arrays *)

(** [slice(start, stop)] with both bounds given. *)
Record slice := Slice { start : Z; stop : Z }.

(** A Python slice whose bounds may be [None]. *)
Record pyslice := PySlice { py_start : option Z; py_stop : option Z }.

Definition slice_all : pyslice := PySlice None None.
Definition slice_from (a : Z) : pyslice := PySlice (Some a) None.
Definition slice_upto (b : Z) : pyslice := PySlice None (Some b).
Definition slice_of (s : slice) : pyslice :=
  PySlice (Some (start s)) (Some (stop s)).

(** [slice.indices(n)] for a unit step: a bound beyond the axis is clipped
    to it, a negative bound counts from the end. *)
Definition clip_bound (n : Z) (dflt : Z) (b : option Z) : Z :=
  match b with
  | None => dflt
  | Some x => if x <? 0 then Z.max (x + n) 0 else Z.min x n
  end.

Definition slice_indices (s : pyslice) (n : Z) : Z * Z :=
  (clip_bound n 0 (py_start s), clip_bound n n (py_stop s)).

Definition slice_length (s : pyslice) (n : Z) : Z :=
  let '(lo, hi) := slice_indices s n in Z.max 0 (hi - lo).

(** The block planner of [distributed_apply_transform] and of
    [distributed_invert_displacement_vector_field]. *)
Module BlockPlanner.

(** [np.ceil(np.array(shape) / blocksize).astype(int)] *)
Definition nblocks (shape blocksize : list Z) : list Z :=
  Np.ceil <$> Np.qdiv (Np.of_ints shape) (Np.of_ints blocksize).

(** [np.round(blocksize * overlap_factor).astype(int)] *)
Definition overlaps (blocksize : list Z) (overlap_factor : Q) : list Z :=
  (fun b => Np.round (inject_Z b * overlap_factor)) <$> blocksize.

(** The body of the planning loop of [distributed_transform.py]:
<<
    start = blocksize_array * (i, j, k) - overlaps
    stop = start + blocksize_array + 2 * overlaps
    start = np.maximum(0, start)
    stop = np.minimum(fix.shape, stop)
    block_coords = tuple(slice(x, y) for x, y in zip(start, stop))
>> *)
Definition block_coords (shape blocksize overlaps ijk : list Z)
  : list slice :=
  let start := Np.sub (Np.mul blocksize ijk) overlaps in
  let stop := Np.add (Np.add start blocksize) (Np.scale 2 overlaps) in
  let start := Np.maximum0 start in
  let stop := Np.minimum shape stop in
  zip_with Slice start stop.

(** [blocks_coords]: one extended slice tuple per multi-index. *)
Definition blocks_coords (shape blocksize : list Z) (overlap_factor : Q)
  : list (list slice) :=
  let nblocks := nblocks shape blocksize in
  let overlaps := overlaps blocksize overlap_factor in
  block_coords shape blocksize overlaps <$> Np.ndindex nblocks.

(** The loop of [piecewise_transform.py] keeps the un-overlapped tile
    beside the extended one:
<<
    start = blocksize * (i, j, k)
    stop = start + blocksize
    start_ol = start - overlap
    stop_ol = stop + overlap
    start_ol = np.maximum(0, start_ol)
    stop = np.minimum(field_zarr.shape[:-1], stop)
    stop_ol = np.minimum(field_zarr.shape[:-1], stop_ol)
>> *)
Definition canonical_coords (shape blocksize ijk : list Z) : list slice :=
  let start := Np.mul blocksize ijk in
  let stop := Np.add start blocksize in
  let stop := Np.minimum shape stop in
  zip_with Slice start stop.

Definition coords_overlaps (shape blocksize overlap ijk : list Z)
  : list slice :=
  let start := Np.mul blocksize ijk in
  let stop := Np.add start blocksize in
  let start_ol := Np.sub start overlap in
  let stop_ol := Np.add stop overlap in
  let start_ol := Np.maximum0 start_ol in
  let stop_ol := Np.minimum shape stop_ol in
  zip_with Slice start_ol stop_ol.

Definition canonical_blocks (shape blocksize : list Z)
  : list (list slice) :=
  canonical_coords shape blocksize <$> Np.ndindex (nblocks shape blocksize).

End BlockPlanner.

(** The extended slice as the specification words it, with the stop
    written [blocksize*i + blocksize + 2*overlap]; kept beside
    [BlockPlanner.block_coords] to compare the two. *)
Definition worded_block_coords (shape blocksize overlaps ijk : list Z)
  : list slice :=
  let start := Np.sub (Np.mul blocksize ijk) overlaps in
  let stop :=
    Np.add (Np.add (Np.mul blocksize ijk) blocksize) (Np.scale 2 overlaps) in
  zip_with Slice (Np.maximum0 start) (Np.minimum shape stop).

(** A voxel multi-index lies in a tuple of slices. *)
Fixpoint in_extent (v : list Z) (blk : list slice) : bool :=
  match v, blk with
  | [], [] => true
  | x :: v', s :: blk' =>
      (start s <=? x) && (x <? stop s) && in_extent v' blk'
  | _, _ => false
  end.

(** A voxel multi-index lies in a volume of the given shape. *)
Fixpoint in_volume (v shape : list Z) : bool :=
  match v, shape with
  | [], [] => true
  | x :: v', n :: shape' => (0 <=? x) && (x <? n) && in_volume v' shape'
  | _, _ => false
  end.

(** Number of elements of a list that satisfy a test. *)
Definition count {A} (f : A -> bool) (l : list A) : nat :=
  length (List.filter f l).

(** ** Exceptions *)

(** The exceptions the modelled code can raise. [ConfigurationError] is the
    class the specification names for structural validation; it is listed so
    that statements about it can be written. *)
Inductive exn := IndexError | ValueError | TypeError | ConfigurationError.

Inductive result (A : Type) := Ok (a : A) | Raise (e : exn).
Arguments Ok {A} a.
Arguments Raise {A} e.

#[export] Instance result_ret : MRet result := fun A a => Ok a.
#[export] Instance result_bind : MBind result := fun A B f m =>
  match m with Ok a => f a | Raise e => Raise e end.
#[export] Instance result_fmap : FMap result := fun A B f m =>
  match m with Ok a => Ok (f a) | Raise e => Raise e end.

(** A result that is not the exception [ConfigurationError]. *)
Definition no_config_error {A} (r : result A) : Prop :=
  r <> Raise ConfigurationError.

(** [l[i]] on a Python sequence: out of range raises [IndexError]. *)
Definition index {A} (l : list A) (i : nat) : result A :=
  match l !! i with Some x => Ok x | None => Raise IndexError end.

(** ** Dense arrays *)

(** A dense array: its shape and the value stored at each multi-index. *)
Record ndarray (A : Type) := NdArray { arr_shape : list Z; arr_item : list Z -> A }.
Arguments NdArray {A} arr_shape arr_item.
Arguments arr_shape {A} n.
Arguments arr_item {A} n idx.

Definition ndim {A} (a : ndarray A) : nat := length (arr_shape a).

(** Shape of [a[slices]]: the sliced axes take the length of their slice,
    the axes beyond the tuple stay whole. *)
Fixpoint getitem_shape (sl : list pyslice) (shape : list Z) : list Z :=
  match sl, shape with
  | s :: sl', n :: shape' => slice_length s n :: getitem_shape sl' shape'
  | _, _ => shape
  end.

(** First index read on each sliced axis. *)
Fixpoint getitem_starts (sl : list pyslice) (shape : list Z) : list Z :=
  match sl, shape with
  | s :: sl', n :: shape' => fst (slice_indices s n) :: getitem_starts sl' shape'
  | _, _ => []
  end.

(** Move a multi-index of the view back into the array it views. *)
Fixpoint shift (offs idx : list Z) : list Z :=
  match offs, idx with
  | o :: offs', i :: idx' => (o + i) :: shift offs' idx'
  | _, _ => idx
  end.

(** [a[tuple(slices)]]; more slices than axes raise [IndexError]. *)
Definition getitem {A} (a : ndarray A) (sl : list pyslice) : result (ndarray A) :=
  if decide (length sl <= ndim a)%nat then
    Ok (NdArray (getitem_shape sl (arr_shape a))
          (fun idx => arr_item a (shift (getitem_starts sl (arr_shape a)) idx)))
  else Raise IndexError.

(** [a[tuple(slices)] = v]: the value must have the shape of the selected
    region, otherwise numpy raises [ValueError]. *)
Definition setitem {A} (a : ndarray A) (sl : list slice) (v : ndarray A)
  : result (ndarray A) :=
  let psl := slice_of <$> sl in
  if decide (length sl <= ndim a)%nat then
    if decide (arr_shape v = getitem_shape psl (arr_shape a)) then
      let starts := getitem_starts psl (arr_shape a) in
      let region :=
        zip_with (fun o n => Slice o (o + n)) starts (arr_shape v) in
      Ok (NdArray (arr_shape a)
            (fun idx =>
               if in_extent (take (length sl) idx) region
               then arr_item v (shift (Z.opp <$> starts) idx)
               else arr_item a idx))
    else Raise ValueError
  else Raise IndexError.

(** A transform is an affine matrix exactly when its shape is (4, 4). *)
Definition is_affine (transform : ndarray Q) : bool :=
  bool_decide (arr_shape transform = [4; 4]).

(** [np.min(rows, axis=0)] and [np.max(rows, axis=0)] of a two-dimensional
    integer array; an empty array raises [ValueError]. *)
Definition min_axis0 (rows : list (list Z)) : result (list Z) :=
  match rows with
  | [] => Raise ValueError
  | r :: rows' => Ok (foldl (zip_with Z.min) r rows')
  end.

Definition max_axis0 (rows : list (list Z)) : result (list Z) :=
  match rows with
  | [] => Raise ValueError
  | r :: rows' => Ok (foldl (zip_with Z.max) r rows')
  end.

(** [np.min(rows, axis=0)] and [np.max(rows, axis=0)] on floats. *)
Definition qmin_axis0 (rows : list (list Q)) : result (list Q) :=
  match rows with
  | [] => Raise ValueError
  | r :: rows' => Ok (foldl (zip_with Qmin) r rows')
  end.

Definition qmax_axis0 (rows : list (list Q)) : result (list Q) :=
  match rows with
  | [] => Raise ValueError
  | r :: rows' => Ok (foldl (zip_with Qmax) r rows')
  end.

Definition Qltb (x y : Q) : bool := negb (Qle_bool y x).

(** [np.all(row >= lower_bound)] and [np.all(row < upper_bound)]. *)
Definition not_too_low (lower_bound row : list Q) : bool :=
  forallb id (zip_with Qle_bool lower_bound row).
Definition not_too_high (upper_bound row : list Q) : bool :=
  forallb id (zip_with Qltb row upper_bound).

(** [a.size] of a two-dimensional array. *)
Definition size2 {A} (rows : list (list A)) : nat :=
  foldr (fun row n => (length row + n)%nat) 0%nat rows.

(** [np.concatenate(arrays, axis=0)]; an empty list of arrays raises
    [ValueError]. *)
Definition concatenate {A} (arrays : list (list A)) : result (list A) :=
  match arrays with
  | [] => Raise ValueError
  | _ => Ok (concat arrays)
  end.

(** [arr[:, lo:hi] = vals] on a two-dimensional array: [vals] must have the
    rows and the columns of the selected region (broadcasting of a single
    row or column is left out), otherwise numpy raises [ValueError]. *)
Definition set_columns (lo : nat) (hi : option nat) (arr vals : list (list Q))
  : result (list (list Q)) :=
  let upto (row : list Q) :=
    match hi with Some h => h | None => length row end in
  if decide (Forall2 (fun v row =>
                        length v = length (drop lo (take (upto row) row)))
                     vals arr)
  then Ok (zip_with (fun row v => take lo row ++ v ++ drop (upto row) row)
                    arr vals)
  else Raise ValueError.

(** [results[indices] = values] with an integer index array: every index
    must be in range ([IndexError]); the values must be as many as the
    indices, or a single row that is repeated ([ValueError] otherwise);
    the assignments happen in order. *)
Definition scatter {A} (results : list A) (indices : list nat)
    (values : list A) : result (list A) :=
  if decide (Forall (fun i => (i < length results)%nat) indices) then
    let values :=
      match values with
      | [v] => Some (replicate (length indices) v)
      | _ => if decide (length values = length indices)
             then Some values else None
      end in
    match values with
    | Some values =>
        Ok (foldl (fun acc iv => <[iv.1 := iv.2]> acc) results
                  (zip indices values))
    | None => Raise ValueError
    end
  else Raise IndexError.

(** A [transform_spacing] or [transform_origin] argument: [None], one
    array shared by all transforms, or a tuple with one array each. *)
Inductive per_transform :=
| Unset
| Shared (a : list Q)
| Each (l : list (list Q)).

(** Two coordinate routines used to run the pipelines on concrete inputs:
    the identity and the translation by one unit on every axis. *)
Definition identity_routine (points : list (list Q)) (_ : list (ndarray Q))
    (_ _ : per_transform) : list (list Q) := points.

Definition translate_one (points : list (list Q)) (_ : list (ndarray Q))
    (_ _ : per_transform) : list (list Q) :=
  (fun p : list Q => Qplus 1 <$> p) <$> points.

(** ** [distributed_transform.py] *)

Module DistributedTransform.
Section Collaborators.

(** Voxel values. *)
Context {V : Type}.

(** [bigstream.transform.apply_transform_to_coordinates(coordinates,
    transform_list, transform_spacing, transform_origin)] *)
Variable apply_transform_to_coordinates :
  list (list Q) -> list (ndarray Q) -> per_transform -> per_transform ->
  list (list Q).

(** [bigstream.transform.apply_transform(fix, mov, fix_spacing,
    mov_spacing, transform_list, transform_origin, fix_origin,
    mov_origin)] *)
Variable apply_transform :
  ndarray V -> ndarray V -> list Q -> list Q -> list (ndarray Q) ->
  list (list Q) -> list Q -> list Q -> ndarray V.

(** The order in which [as_completed] hands back the futures. *)
Variable as_completed :
  list (result (list slice * ndarray V)) ->
  list (result (list slice * ndarray V)).

(** *** [_transform_single_block] *)

(** One round of the loop "read relevant region of transforms". *)
Definition read_transform (fix_spacing fix_origin : list Q)
    (block_coords : list slice) (transform_spacing_list : list (list Q))
    (iii : nat) (transform : ndarray Q) : result (ndarray Q * list Q) :=
  if negb (is_affine transform) then
    spacing ← index transform_spacing_list iii;
    let start := Np.floor <$> Np.qdiv fix_origin spacing in
    let stop :=
      Np.qdiv (Np.qmul (Np.of_ints (stop <$> block_coords)) fix_spacing)
              spacing in
    let stop := Np.ceil <$> stop in
    transform ←
      getitem transform (zip_with (fun a b => slice_of (Slice a b)) start stop);
    Ok (transform, Np.qmul (Np.of_ints start) spacing)
  else Ok (transform, fix_origin).

(** The loop over [enumerate(transform_list)]: the localized transforms
    and their origins, in chain order. *)
Fixpoint read_transforms (fix_spacing fix_origin : list Q)
    (block_coords : list slice) (transform_spacing_list : list (list Q))
    (iii : nat) (transform_list : list (ndarray Q))
  : result (list (ndarray Q) * list (list Q)) :=
  match transform_list with
  | [] => Ok ([], [])
  | transform :: rest =>
      '(transform, origin) ←
        read_transform fix_spacing fix_origin block_coords
          transform_spacing_list iii transform;
      '(applied, origins) ←
        read_transforms fix_spacing fix_origin block_coords
          transform_spacing_list (S iii) rest;
      Ok (transform :: applied, origin :: origins)
  end.

(** The corners of the block in voxel space:
<<
    for corner in list(product([0, 1], repeat=3)):
        a = [x.stop-1 if y else x.start for x, y in zip(block_coords, corner)]
>> *)
Definition block_corners (block_coords : list slice) : list (list Z) :=
  (fun corner =>
     zip_with (fun x (y : bool) => if y then stop x - 1 else start x)
              block_coords corner) <$> Np.product01 3.

(** [fix_block_coords = np.array(fix_block_coords) * fix_spacing] *)
Definition fix_block_coords (fix_spacing : list Q)
    (block_coords : list slice) : list (list Q) :=
  (fun a => Np.qmul (Np.of_ints a) fix_spacing) <$> block_corners block_coords.

(** Mapped corners as clipped moving-volume voxel indices. *)
Definition mov_voxels (mov_spacing : list Q) (mov_shape : list Z)
    (mov_block_coords : list (list Q)) : list (list Z) :=
  let mov_block_coords :=
    (fun row => Np.round <$> Np.qdiv row mov_spacing) <$> mov_block_coords in
  let mov_block_coords := Np.maximum0 <$> mov_block_coords in
  Np.minimum mov_shape <$> mov_block_coords.

(** The moving region: per-axis minimum and maximum over the corners. *)
Definition mov_slices (mov_spacing : list Q) (mov_shape : list Z)
    (mov_block_coords : list (list Q)) : result (list slice) :=
  let mov_block_coords := mov_voxels mov_spacing mov_shape mov_block_coords in
  mov_start ← min_axis0 mov_block_coords;
  mov_stop ← max_axis0 mov_block_coords;
  Ok (zip_with Slice mov_start mov_stop).

(** One round of the loop "crop out overlap". The state is the array
    cropped so far and the placement slices recorded so far. *)
Definition crop_axis {A} (block_coords : list slice)
    (blocksize blockoverlaps : list Z)
    (st : ndarray A * list slice) (axis : nat)
  : result (ndarray A * list slice) :=
  let '(aligned_block, final_block_coords_list) := st in
  (* left side *)
  let slc := replicate (ndim aligned_block) slice_all in
  bc ← index block_coords axis;
  let start_ := start bc in
  let stop_ := stop bc in
  '(aligned_block, start_) ←
    (if decide (start bc <> 0) then
       ov ← index blockoverlaps axis;
       let slc := <[axis := slice_from ov]> slc in
       aligned_block ← getitem aligned_block slc;
       Ok (aligned_block, start_ + ov)
     else Ok (aligned_block, start_));
  (* right side *)
  let slc := replicate (ndim aligned_block) slice_all in
  n ← index (arr_shape aligned_block) axis;
  bs ← index blocksize axis;
  '(aligned_block, stop_) ←
    (if bs <? n then
       let slc := <[axis := slice_upto bs]> slc in
       aligned_block ← getitem aligned_block slc;
       n' ← index (arr_shape aligned_block) axis;
       Ok (aligned_block, start_ + n')
     else Ok (aligned_block, stop_));
  Ok (aligned_block, final_block_coords_list ++ [Slice start_ stop_]).

Fixpoint crop_axes {A} (block_coords : list slice)
    (blocksize blockoverlaps : list Z) (axes : list nat)
    (st : ndarray A * list slice) : result (ndarray A * list slice) :=
  match axes with
  | [] => Ok st
  | axis :: axes' =>
      st ← crop_axis block_coords blocksize blockoverlaps st axis;
      crop_axes block_coords blocksize blockoverlaps axes' st
  end.

(** [for axis in range(aligned_block.ndim): ...]; returns
    [(final_block_coords, aligned_block)]. *)
Definition crop_overlap {A} (block_coords : list slice)
    (blocksize blockoverlaps : list Z) (aligned_block : ndarray A)
  : result (list slice * ndarray A) :=
  '(aligned_block, final_block_coords) ←
    crop_axes block_coords blocksize blockoverlaps
      (seq 0 (ndim aligned_block)) (aligned_block, []);
  Ok (final_block_coords, aligned_block).

Definition _transform_single_block (block_coords : list slice)
    (full_fix full_mov : ndarray V) (fix_spacing mov_spacing : list Q)
    (blocksize blockoverlaps : list Z) (transform_list : list (ndarray Q))
    (transform_spacing_list : list (list Q))
  : result (list slice * ndarray V) :=
  (* fetch fixed image slices and read fix *)
  let fix_origin := Np.qmul fix_spacing (Np.of_ints (start <$> block_coords)) in
  fix_block ← getitem full_fix (slice_of <$> block_coords);
  (* read relevant region of transforms *)
  '(applied_transform_list, transform_origin) ←
    read_transforms fix_spacing fix_origin block_coords
      transform_spacing_list 0 transform_list;
  (* transform fixed block corners, read moving data *)
  let mov_block_coords :=
    apply_transform_to_coordinates
      (fix_block_coords fix_spacing block_coords)
      applied_transform_list (Each transform_spacing_list)
      (Each transform_origin) in
  mov_slices ← mov_slices mov_spacing (arr_shape full_mov) mov_block_coords;
  mov_block ← getitem full_mov (slice_of <$> mov_slices);
  let mov_origin := Np.qmul mov_spacing (Np.of_ints (start <$> mov_slices)) in
  (* resample *)
  let aligned_block :=
    apply_transform fix_block mov_block fix_spacing mov_spacing
      applied_transform_list transform_origin fix_origin mov_origin in
  (* crop out overlap *)
  crop_overlap block_coords blocksize blockoverlaps aligned_block.

(** *** [distributed_apply_transform] *)

(** "ensure there's a 1:1 correspondence between transform spacing and
    transform list"; a tuple is taken as it is. *)
Definition transform_spacing_list (fix_spacing : list Q)
    (transform_list : list (ndarray Q)) (transform_spacing : per_transform)
  : list (list Q) :=
  match transform_spacing with
  | Unset => replicate (length transform_list) fix_spacing
  | Shared spacing => replicate (length transform_list) spacing
  | Each l => l
  end.

(** The loop over the completed futures. A future that raised ends the
    call; the blocks written before it stay written. *)
Fixpoint write_blocks (aligned_data : option (ndarray V))
    (completed : list (result (list slice * ndarray V)))
  : option (ndarray V) * result unit :=
  match completed with
  | [] => (aligned_data, Ok tt)
  | Raise e :: _ => (aligned_data, Raise e)
  | Ok (finished_block_coords, aligned_block) :: rest =>
      match aligned_data with
      | Some out =>
          match setitem out finished_block_coords aligned_block with
          | Ok out' => write_blocks (Some out') rest
          | Raise e => (Some out, Raise e)
          end
      | None => write_blocks None rest
      end
  end.

(** What a call does: the blocks submitted to the cluster, the output
    array as the call leaves it, and the value returned (Python's [None]
    is [None]) or the exception raised. *)
Record run := Run {
  submitted : list (list slice);
  sink : option (ndarray V);
  returned : result (option (ndarray V))
}.

Definition distributed_apply_transform (fix_ mov : ndarray V)
    (fix_spacing mov_spacing : list Q) (blocksize : list Z)
    (transform_list : list (ndarray Q)) (overlap_factor : Q)
    (aligned_data : option (ndarray V)) (transform_spacing : per_transform)
  : run :=
  (* get overlap and number of blocks *)
  let overlaps := BlockPlanner.overlaps blocksize overlap_factor in
  let transform_spacing_list :=
    transform_spacing_list fix_spacing transform_list transform_spacing in
  (* prepare block coordinates *)
  let blocks_coords :=
    BlockPlanner.blocks_coords (arr_shape fix_) blocksize overlap_factor in
  (* align all blocks *)
  let futures :=
    (fun block_coords =>
       _transform_single_block block_coords fix_ mov fix_spacing mov_spacing
         blocksize overlaps transform_list transform_spacing_list)
      <$> blocks_coords in
  let '(aligned_data, outcome) :=
    write_blocks aligned_data (as_completed futures) in
  Run blocks_coords aligned_data (_ ← outcome; Ok None).

(** *** [_transform_coords] *)

(** The contents of [np.empty_like]: whatever the memory holds. *)
Variable uninitialised : Q.

Definition empty_like (a : list (list Q)) : list (list Q) :=
  (fun row : list Q => (fun _ : Q => uninitialised) <$> row) <$> a.

(** One round of the loop over [range(transform.ndim-1)]. *)
Definition crop_slice (block_slice_coords : list slice)
    (transform : ndarray Q) (axis : nat) : result slice :=
  bsc ← index block_slice_coords axis;
  let start_ := start bsc in
  let stop_ := stop bsc in
  n ← index (arr_shape transform) axis;
  if stop_ <? n then Ok (Slice start_ n) else Ok (Slice start_ stop_).

Definition crop_transform (block_slice_coords : list slice)
    (transform : ndarray Q) : result (ndarray Q) :=
  if negb (is_affine transform) then
    crop_slices ←
      mapM (crop_slice block_slice_coords transform)
           (seq 0 (ndim transform - 1));
    (* for vector displacement fields crop the transformation *)
    getitem transform (slice_of <$> crop_slices)
  else
    (* no need to do any cropping if it's an affine matrix *)
    Ok transform.

Definition _transform_coords (block_index : list Z)
    (block_slice_coords : list slice) (block_origin : list Q)
    (coord_indexed_values : list (list Q)) (coords_spacing : list Q)
    (transform_list : list (ndarray Q)) : result (list (list Q)) :=
  let points_coords := take 3 <$> coord_indexed_values in
  let points_values := drop 3 <$> coord_indexed_values in
  cropped_transforms ← mapM (crop_transform block_slice_coords) transform_list;
  (* apply transforms *)
  let warped_coords :=
    apply_transform_to_coordinates points_coords cropped_transforms
      (Shared coords_spacing) (Shared block_origin) in
  let warped_coord_indexed_values := empty_like coord_indexed_values in
  warped_coord_indexed_values ←
    set_columns 0 (Some 3%nat) warped_coord_indexed_values warped_coords;
  warped_coord_indexed_values ←
    set_columns 3 None warped_coord_indexed_values points_values;
  max_warped_coord ← qmax_axis0 (take 3 <$> warped_coord_indexed_values);
  Ok warped_coord_indexed_values.

(** *** [distributed_apply_transform_to_coordinates] *)

(** The test of the loop body: the row lies in the cell
    [[lower_bound, upper_bound)]. *)
Definition in_cell (lower_bound upper_bound row : list Q) : bool :=
  not_too_low lower_bound (take 3 row) && not_too_high upper_bound (take 3 row).

Definition lower_bound_of (min_coord phys_blocksize : list Q)
    (block_index : list Z) : list Q :=
  Np.qadd min_coord (Np.qmul phys_blocksize (Np.of_ints block_index)).

(** The body of the loop over [np.ndindex]: the bucket of one grid cell,
    kept when it holds a point. The bounds are computed exactly here; in
    float64 the upper bound of a cell, [(min_coord + p * i) + p], and the
    lower bound of the next, [min_coord + p * (i + 1)], can differ by a
    rounding error. *)
Definition block_points (coordinates : list (list Q))
    (voxel_blocksize : list Z) (phys_blocksize min_coord : list Q)
    (block_index : list Z)
  : list (list Z * list slice * list Q * list (list Q)) :=
  let block_start := Np.mul voxel_blocksize block_index in
  let block_stop := Np.add block_start voxel_blocksize in
  let block_slice_coords := zip_with Slice block_start block_stop in
  let lower_bound := lower_bound_of min_coord phys_blocksize block_index in
  let upper_bound := Np.qadd lower_bound phys_blocksize in
  let pcoords :=
    List.filter (in_cell lower_bound upper_bound) coordinates in
  if decide (0 < size2 pcoords)%nat
  then [(block_index, block_slice_coords, lower_bound, pcoords)]
  else [].

Definition coordinate_nblocks (coordinates : list (list Q))
    (phys_blocksize : list Q) : result (list Q * list Z) :=
  min_coord ← qmin_axis0 (take 3 <$> coordinates);
  max_coord ← qmax_axis0 (take 3 <$> coordinates);
  let vol_size := zip_with Qminus max_coord min_coord in
  let nblocks :=
    (fun x => Np.ceil (x + 1)) <$> Np.qdiv vol_size phys_blocksize in
  Ok (min_coord, nblocks).

Definition distributed_apply_transform_to_coordinates
    (coordinates : list (list Q)) (transform_list : list (ndarray Q))
    (voxel_blocksize : list Z) (coords_spacing : list Q)
  : result (list (list Q)) :=
  (* determine partitions of coordinates *)
  let phys_blocksize := Np.qmul (Np.of_ints voxel_blocksize) coords_spacing in
  '(min_coord, nblocks) ← coordinate_nblocks coordinates phys_blocksize;
  let blocks :=
    block_index ← Np.ndindex nblocks;
    block_points coordinates voxel_blocksize phys_blocksize min_coord
      block_index in
  (* transform all partitions and return *)
  results ←
    mapM (fun '(block_index, block_slice_coords, block_origin, points) =>
            _transform_coords block_index block_slice_coords block_origin
              points coords_spacing transform_list)
         blocks;
  match results with
  | [] => Ok []
  | _ => Ok (concat results)
  end.

End Collaborators.
End DistributedTransform.

(** ** [piecewise_transform.py] *)

Module PiecewiseTransform.
Section Collaborators.

Variable apply_transform_to_coordinates :
  list (list Q) -> list (ndarray Q) -> per_transform -> per_transform ->
  list (list Q).

Variable uninitialised : Q.

Definition empty_like (a : list (list Q)) : list (list Q) :=
  (fun row : list Q => (fun _ : Q => uninitialised) <$> row) <$> a.

(** [len(transform.shape) in [1, 2]] *)
Definition is_matrix (transform : ndarray Q) : bool :=
  bool_decide (ndim transform = 1%nat \/ ndim transform = 2%nat).

(** *** [transform_partition] *)

(** The crop of one displacement field to the bounding box [[a, b]] of
    the partition. *)
Definition crop_slices (a b : list Q) (spacing : list Q)
    (transform : ndarray Q) : list slice :=
  let start_ := Np.floor <$> Np.qdiv a spacing in
  let last_index := (fun n => n - 1) <$> removelast (arr_shape transform) in
  let start_ := Np.minimum last_index start_ in
  let stop_ := (fun x => Np.ceil x + 1) <$> Np.qdiv b spacing in
  zip_with Slice start_ stop_.

Definition crop_transform (a b : list Q) (transform_spacing : per_transform)
    (iii : nat) (transform : ndarray Q) : result (ndarray Q) :=
  if negb (is_matrix transform) then
    spacing ←
      match transform_spacing with
      | Each l => index l iii
      | Shared spacing => Ok spacing
      | Unset => Raise TypeError
      end;
    getitem transform (slice_of <$> crop_slices a b spacing transform)
  else Ok transform.

Fixpoint crop_transforms (a b : list Q) (transform_spacing : per_transform)
    (iii : nat) (transform_list : list (ndarray Q))
  : result (list (ndarray Q)) :=
  match transform_list with
  | [] => Ok []
  | transform :: rest =>
      transform ← crop_transform a b transform_spacing iii transform;
      new_list ← crop_transforms a b transform_spacing (S iii) rest;
      Ok (transform :: new_list)
  end.

Definition transform_partition (coordinates : list (list Q))
    (transform_list : list (ndarray Q)) (transform_spacing : per_transform)
  : result (list (list Q)) :=
  (* read relevant region of transform *)
  a ← qmin_axis0 coordinates;
  b ← qmax_axis0 coordinates;
  transform_list ← crop_transforms a b transform_spacing 0 transform_list;
  (* apply transforms *)
  Ok (apply_transform_to_coordinates coordinates transform_list
        transform_spacing (Shared a)).

(** *** [distributed_apply_transform_to_coordinates] *)

Definition in_cell (lower_bound upper_bound row : list Q) : bool :=
  not_too_low lower_bound row && not_too_high upper_bound row.

Definition lower_bound_of (origin : list Q) (partition_size : Q)
    (index_ : list Z) : list Q :=
  Np.qadd origin ((fun i => partition_size * inject_Z i)%Q <$> index_).

(** The body of the loop over [np.ndindex]: the rows of one cell with
    their positions in [coordinates], kept when there is one. The bounds
    are computed exactly here, as in [block_points]. *)
Definition partition_of (coordinates : list (list Q)) (origin : list Q)
    (partition_size : Q) (index_ : list Z)
  : list (list (list Q) * list nat) :=
  let lower_bound := lower_bound_of origin partition_size index_ in
  let upper_bound := (fun x => x + partition_size)%Q <$> lower_bound in
  let selected :=
    List.filter (fun ir => in_cell lower_bound upper_bound ir.2)
                (imap pair coordinates) in
  let part_indices := fst <$> selected in
  if decide (part_indices <> [])
  then [(snd <$> selected, part_indices)]
  else [].

Definition coordinate_nblocks (coordinates : list (list Q))
    (partition_size : Q) : result (list Q * list Z) :=
  origin ← qmin_axis0 coordinates;
  nblocks ← qmax_axis0 coordinates;
  let nblocks := zip_with Qminus nblocks origin in
  let nblocks := (fun x => Np.ceil (x / partition_size)) <$> nblocks in
  Ok (origin, nblocks).

Definition distributed_apply_transform_to_coordinates
    (coordinates : list (list Q)) (transform_list : list (ndarray Q))
    (partition_size : Q) (transform_spacing : per_transform)
  : result (list (list Q)) :=
  (* determine partitions of coordinates *)
  '(origin, nblocks) ← coordinate_nblocks coordinates partition_size;
  let parts :=
    index_ ← Np.ndindex nblocks;
    partition_of coordinates origin partition_size index_ in
  let partitions := fst <$> parts in
  indices ← concatenate (snd <$> parts);
  (* transform all partitions and return *)
  gathered ←
    mapM (fun partition =>
            transform_partition partition transform_list transform_spacing)
         partitions;
  permuted ← concatenate gathered;
  let results := empty_like permuted in
  scatter results indices permuted.

End Collaborators.
End PiecewiseTransform.

(** ** The crop loops *)

(** The two files hold four copies of the loop "crop out overlap". They
    differ in the number of leading axes the slice list [slc] spans (the
    [ndim] axes of an image block, the [ndim - 1] spatial axes of a vector
    field) and in whether the placement slices are recorded. [crop_axis_of]
    is one round of the loop with the length of [slc] left open, as a
    function [nslices] of the rank; the lemmas on the crop are stated on
    it, once for the four copies. *)
Definition crop_axis_of {A} (nslices : nat -> nat) (block_coords : list slice)
    (blocksize blockoverlaps : list Z)
    (st : ndarray A * list slice) (axis : nat)
  : result (ndarray A * list slice) :=
  let '(block, coords_list) := st in
  (* left side *)
  let slc := replicate (nslices (ndim block)) slice_all in
  bc ← index block_coords axis;
  let start_ := start bc in
  let stop_ := stop bc in
  '(block, start_) ←
    (if decide (start bc <> 0) then
       ov ← index blockoverlaps axis;
       let slc := <[axis := slice_from ov]> slc in
       block ← getitem block slc;
       Ok (block, start_ + ov)
     else Ok (block, start_));
  (* right side *)
  let slc := replicate (nslices (ndim block)) slice_all in
  n ← index (arr_shape block) axis;
  bs ← index blocksize axis;
  '(block, stop_) ←
    (if bs <? n then
       let slc := <[axis := slice_upto bs]> slc in
       block ← getitem block slc;
       n' ← index (arr_shape block) axis;
       Ok (block, start_ + n')
     else Ok (block, stop_));
  Ok (block, coords_list ++ [Slice start_ stop_]).

Fixpoint crop_axes_of {A} (nslices : nat -> nat) (block_coords : list slice)
    (blocksize blockoverlaps : list Z) (axes : list nat)
    (st : ndarray A * list slice) : result (ndarray A * list slice) :=
  match axes with
  | [] => Ok st
  | axis :: axes' =>
      st ← crop_axis_of nslices block_coords blocksize blockoverlaps st axis;
      crop_axes_of nslices block_coords blocksize blockoverlaps axes' st
  end.

(** ** [distributed_transform.py]: inversion of a displacement field *)

Module DistributedInvert.
Section Collaborators.

(** Values of the vector field. *)
Context {V : Type}.

(** [bigstream.transform.invert_displacement_vector_field(field, spacing,
    iterations, order, sqrt_iterations)] *)
Variable invert_displacement_vector_field :
  ndarray V -> list Q -> Z -> Z -> Z -> ndarray V.

(** The order in which the write tasks finish and [as_completed] hands
    them back. *)
Variable as_completed :
  list (result (list slice * ndarray V)) ->
  list (result (list slice * ndarray V)).

(** *** [_invert_block] *)

(** One round of the loop "crop out overlap" of [_invert_block]: the slice
    list spans the [ndim - 1] spatial axes, the last axis stays whole. *)
Definition crop_axis (block_coords : list slice)
    (blocksize blockoverlaps : list Z)
    (st : ndarray V * list slice) (axis : nat)
  : result (ndarray V * list slice) :=
  let '(inverse_block, inverse_block_coords_list) := st in
  (* left side *)
  let slc := replicate (ndim inverse_block - 1) slice_all in
  bc ← index block_coords axis;
  let start_ := start bc in
  let stop_ := stop bc in
  '(inverse_block, start_) ←
    (if decide (start bc <> 0) then
       ov ← index blockoverlaps axis;
       let slc := <[axis := slice_from ov]> slc in
       inverse_block ← getitem inverse_block slc;
       Ok (inverse_block, start_ + ov)
     else Ok (inverse_block, start_));
  (* right side *)
  let slc := replicate (ndim inverse_block - 1) slice_all in
  n ← index (arr_shape inverse_block) axis;
  bs ← index blocksize axis;
  '(inverse_block, stop_) ←
    (if bs <? n then
       let slc := <[axis := slice_upto bs]> slc in
       inverse_block ← getitem inverse_block slc;
       n' ← index (arr_shape inverse_block) axis;
       Ok (inverse_block, start_ + n')
     else Ok (inverse_block, stop_));
  Ok (inverse_block, inverse_block_coords_list ++ [Slice start_ stop_]).

Fixpoint crop_axes (block_coords : list slice)
    (blocksize blockoverlaps : list Z) (axes : list nat)
    (st : ndarray V * list slice) : result (ndarray V * list slice) :=
  match axes with
  | [] => Ok st
  | axis :: axes' =>
      st ← crop_axis block_coords blocksize blockoverlaps st axis;
      crop_axes block_coords blocksize blockoverlaps axes' st
  end.

Definition _invert_block (block_coords : list slice)
    (full_vectorfield : ndarray V) (spacing : list Q)
    (blocksize blockoverlaps : list Z) (iterations order sqrt_iterations : Z)
  : result (list slice * ndarray V) :=
  block_vectorfield ← getitem full_vectorfield (slice_of <$> block_coords);
  let inverse_block :=
    invert_displacement_vector_field block_vectorfield spacing iterations
      order sqrt_iterations in
  (* crop out overlap *)
  '(inverse_block, inverse_block_coords) ←
    crop_axes block_coords blocksize blockoverlaps
      (seq 0 (ndim inverse_block - 1)) (inverse_block, []);
  (* return result *)
  Ok (inverse_block_coords, inverse_block).

(** *** [_write_block] *)

(** The output array as the task leaves it, and the value returned. *)
Definition _write_block (block : list slice * ndarray V)
    (output : option (ndarray V))
  : option (ndarray V) * result (list slice) :=
  let '(block_coords, block_data) := block in
  match output with
  | Some out =>
      match setitem out block_coords block_data with
      | Ok out' => (Some out', Ok block_coords)
      | Raise e => (Some out, Raise e)
      end
  | None => (None, Ok block_coords)
  end.

(** *** [distributed_invert_displacement_vector_field] *)

(** The write tasks, one per block, in the order they finish. A task whose
    block raised holds the exception, and the loop over the completed
    futures raises it when it reaches that future; the blocks written
    before it stay written. *)
Fixpoint write_tasks (output : option (ndarray V))
    (completed : list (result (list slice * ndarray V)))
  : option (ndarray V) * result unit :=
  match completed with
  | [] => (output, Ok tt)
  | Raise e :: _ => (output, Raise e)
  | Ok block :: rest =>
      match _write_block block output with
      | (output, Ok _) => write_tasks output rest
      | (output, Raise e) => (output, Raise e)
      end
  end.

(** What a call does: the blocks submitted, the output array as the call
    leaves it, and the outcome; the function has no [return]. *)
Record run := Run {
  submitted : list (list slice);
  output : option (ndarray V);
  outcome : result unit
}.

Definition distributed_invert_displacement_vector_field
    (vectorfield_array : ndarray V) (spacing : list Q) (blocksize : list Z)
    (inv_vectorfield_array : option (ndarray V)) (overlap_factor : Q)
    (iterations order sqrt_iterations : Z) : run :=
  (* get overlap and number of blocks *)
  let overlap := BlockPlanner.overlaps blocksize overlap_factor in
  (* store block coordinates *)
  let blocks_coords :=
    BlockPlanner.blocks_coords (removelast (arr_shape vectorfield_array))
      blocksize overlap_factor in
  (* invert all blocks *)
  let invert_res :=
    (fun block_coords =>
       _invert_block block_coords vectorfield_array spacing blocksize overlap
         iterations order sqrt_iterations) <$> blocks_coords in
  let '(output, outcome) :=
    write_tasks inv_vectorfield_array (as_completed invert_res) in
  Run blocks_coords output outcome.

End Collaborators.
End DistributedInvert.

(** ** [piecewise_transform.py]: the block pipeline of
    [distributed_apply_transform] *)

Module PiecewiseResample.
Section Collaborators.

Context {V : Type}.

Variable apply_transform_to_coordinates :
  list (list Q) -> list (ndarray Q) -> per_transform -> per_transform ->
  list (list Q).

(** [bigstream.transform.apply_transform(fix, mov, fix_spacing,
    mov_spacing, transform_list, transform_origin, fix_origin, mov_origin,
    transform_spacing)]; the last argument comes with the keyword
    arguments, where the function has put it. *)
Variable apply_transform :
  ndarray V -> ndarray V -> list Q -> list Q -> list (ndarray Q) ->
  list (list Q) -> list Q -> list Q -> list (list Q) -> ndarray V.

(** "ensure transform spacing is set explicitly":
<<
    if 'transform_spacing' not in kwargs.keys():
        kwargs['transform_spacing'] = np.array(fix_spacing)
    if not isinstance(kwargs['transform_spacing'], tuple):
        kwargs['transform_spacing'] = (kwargs['transform_spacing'],) * len(transform_list)
>> *)
Definition transform_spacing (fix_spacing : list Q)
    (transform_list : list (ndarray Q)) (kwargs : per_transform)
  : list (list Q) :=
  match kwargs with
  | Unset => replicate (length transform_list) fix_spacing
  | Shared spacing => replicate (length transform_list) spacing
  | Each l => l
  end.

(** The test of the debugging prints of the closure,
<<
    if fix_slices[0].start == 0 and fix_slices[1].start == 96 and fix_slices[2].start == 96:
>>
    which indexes the slices of the block. *)
Definition traced_block (fix_slices : list slice) : result bool :=
  s0 ← index fix_slices 0;
  if start s0 =? 0 then
    s1 ← index fix_slices 1;
    if start s1 =? 96 then
      s2 ← index fix_slices 2;
      Ok (start s2 =? 96)
    else Ok false
  else Ok false.

(** The loop "read relevant region of transforms" of the closure: one
    round is that of [_transform_single_block], followed by the test of
    the debugging print. *)
Fixpoint read_transforms (fix_spacing fix_origin : list Q)
    (fix_slices : list slice) (transform_spacing : list (list Q))
    (iii : nat) (transform_list : list (ndarray Q))
  : result (list (ndarray Q) * list (list Q)) :=
  match transform_list with
  | [] => Ok ([], [])
  | transform :: rest =>
      '(transform, origin) ←
        DistributedTransform.read_transform fix_spacing fix_origin fix_slices
          transform_spacing iii transform;
      _ ← traced_block fix_slices;
      '(new_list, origins) ←
        read_transforms fix_spacing fix_origin fix_slices transform_spacing
          (S iii) rest;
      Ok (transform :: new_list, origin :: origins)
  end.

(** One round of the loop "crop out overlap" of the closure
    [transform_single_block]; no placement is recorded. *)
Definition crop_axis (fix_slices : list slice) (blocksize overlap : list Z)
    (aligned : ndarray V) (axis : nat) : result (ndarray V) :=
  (* left side *)
  let slc := replicate (ndim aligned) slice_all in
  fs ← index fix_slices axis;
  aligned ←
    (if decide (start fs <> 0) then
       ov ← index overlap axis;
       let slc := <[axis := slice_from ov]> slc in
       getitem aligned slc
     else Ok aligned);
  (* right side *)
  let slc := replicate (ndim aligned) slice_all in
  n ← index (arr_shape aligned) axis;
  bs ← index blocksize axis;
  if bs <? n then
    let slc := <[axis := slice_upto bs]> slc in
    getitem aligned slc
  else Ok aligned.

Fixpoint crop_axes (fix_slices : list slice) (blocksize overlap : list Z)
    (axes : list nat) (aligned : ndarray V) : result (ndarray V) :=
  match axes with
  | [] => Ok aligned
  | axis :: axes' =>
      aligned ← crop_axis fix_slices blocksize overlap aligned axis;
      crop_axes fix_slices blocksize overlap axes' aligned
  end.

(** The closure [transform_single_block] on the slices of one block. The
    corners of the block and the moving region are computed as in
    [_transform_single_block], line for line. *)
Definition transform_single_block (fix_zarr mov_zarr : ndarray V)
    (fix_spacing mov_spacing : list Q) (blocksize overlap : list Z)
    (transform_spacing : list (list Q)) (fix_slices : list slice)
    (transform_list : list (ndarray Q)) : result (ndarray V) :=
  (* fetch fixed image slices and read fix *)
  fix_ ← getitem fix_zarr (slice_of <$> fix_slices);
  let fix_origin := Np.qmul fix_spacing (Np.of_ints (start <$> fix_slices)) in
  (* read relevant region of transforms *)
  '(transform_list, transform_origin) ←
    read_transforms fix_spacing fix_origin fix_slices transform_spacing 0
      transform_list;
  (* transform fixed block corners, read moving data *)
  let mov_block_coords :=
    apply_transform_to_coordinates
      (DistributedTransform.fix_block_coords fix_spacing fix_slices)
      transform_list (Each transform_spacing) (Each transform_origin) in
  mov_slices ←
    DistributedTransform.mov_slices mov_spacing (arr_shape mov_zarr)
      mov_block_coords;
  mov ← getitem mov_zarr (slice_of <$> mov_slices);
  let mov_origin := Np.qmul mov_spacing (Np.of_ints (start <$> mov_slices)) in
  _ ← traced_block fix_slices;
  (* resample *)
  let aligned :=
    apply_transform fix_ mov fix_spacing mov_spacing transform_list
      transform_origin fix_origin mov_origin transform_spacing in
  _ ← traced_block fix_slices;
  (* crop out overlap *)
  crop_axes fix_slices blocksize overlap (seq 0 (ndim aligned)) aligned.

End Collaborators.
End PiecewiseResample.

(** ** [piecewise_transform.py]: inversion of a displacement field *)

Module PiecewiseInvert.
Section Collaborators.

Context {V : Type}.

(** [bigstream.transform.invert_displacement_vector_field(field, spacing,
    step, iterations, sqrt_order, sqrt_step, sqrt_iterations)] *)
Variable invert_displacement_vector_field :
  ndarray V -> list Q -> Q -> Z -> Z -> Q -> Z -> ndarray V.

(** [ut.create_zarr(write_path, shape, chunks, dtype)]: the array it
    creates, of the shape asked for. *)
Variable create_zarr : list Z -> ndarray V.

(** The zero of the field's dtype, for [np.zeros_like]. *)
Variable zero : V.

(** The order in which the futures finish; a future goes with its
    position in the list of futures, which [future_keys.index] finds
    again. *)
Variable as_completed : forall {R}, list (nat * R) -> list (nat * R).

(** One round of the loop "crop out overlap" of the closure
    [invert_block]. *)
Definition crop_axis (slices_overlaps : list slice)
    (blocksize overlap : list Z) (inverse : ndarray V) (axis : nat)
  : result (ndarray V) :=
  (* left side *)
  let slc := replicate (ndim inverse - 1) slice_all in
  so ← index slices_overlaps axis;
  inverse ←
    (if decide (start so <> 0) then
       ov ← index overlap axis;
       let slc := <[axis := slice_from ov]> slc in
       getitem inverse slc
     else Ok inverse);
  (* right side *)
  let slc := replicate (ndim inverse - 1) slice_all in
  n ← index (arr_shape inverse) axis;
  bs ← index blocksize axis;
  if bs <? n then
    let slc := <[axis := slice_upto bs]> slc in
    getitem inverse slc
  else Ok inverse.

Fixpoint crop_axes (slices_overlaps : list slice)
    (blocksize overlap : list Z) (axes : list nat) (inverse : ndarray V)
  : result (ndarray V) :=
  match axes with
  | [] => Ok inverse
  | axis :: axes' =>
      inverse ← crop_axis slices_overlaps blocksize overlap inverse axis;
      crop_axes slices_overlaps blocksize overlap axes' inverse
  end.

(** The closure [invert_block] up to "handle output": the inverse of the
    extended block, cropped. *)
Definition invert_block (field_zarr : ndarray V) (spacing : list Q)
    (blocksize overlap : list Z) (step : Q) (iterations sqrt_order : Z)
    (sqrt_step : Q) (sqrt_iterations : Z) (slices_overlaps : list slice)
  : result (ndarray V) :=
  field ← getitem field_zarr (slice_of <$> slices_overlaps);
  let inverse :=
    invert_displacement_vector_field field spacing step iterations
      sqrt_order sqrt_step sqrt_iterations in
  (* crop out overlap *)
  crop_axes slices_overlaps blocksize overlap (seq 0 (ndim inverse - 1))
    inverse.

(** "reconstruct output if necessary": the loop over the completed
    futures,
<<
    iii = future_keys.index(future.key)
    inverse[block_coords[iii]] = result
>> *)
Fixpoint reconstruct (inverse : ndarray V) (block_coords : list (list slice))
    (completed : list (nat * result (ndarray V))) : result (ndarray V) :=
  match completed with
  | [] => Ok inverse
  | (_, Raise e) :: _ => Raise e
  | (iii, Ok result_) :: rest =>
      slices ← index block_coords iii;
      inverse ← setitem inverse slices result_;
      reconstruct inverse block_coords rest
  end.

(** With a [write_path] every task writes its block itself,
    [output_zarr[slices] = inverse], and returns [True]; the tasks are
    taken in the order they finish, and [gather] raises the exception of a
    task that failed. *)
Fixpoint write_tasks (output_zarr : ndarray V)
    (completed : list (nat * (list slice * result (ndarray V))))
  : result (ndarray V) :=
  match completed with
  | [] => Ok output_zarr
  | (_, (_, Raise e)) :: _ => Raise e
  | (_, (slices, Ok inverse)) :: rest =>
      output_zarr ← setitem output_zarr slices inverse;
      write_tasks output_zarr rest
  end.

Definition distributed_invert_displacement_vector_field
    (field : ndarray V) (spacing : list Q) (blocksize : list Z)
    (write_path : bool) (step : Q) (iterations sqrt_order : Z)
    (sqrt_step : Q) (sqrt_iterations : Z) : result (ndarray V) :=
  (* ensure input field is zarr *)
  let field_zarr := field in
  (* get overlap and number of blocks *)
  let overlap := BlockPlanner.overlaps blocksize (1 # 4) in
  let nblocks :=
    BlockPlanner.nblocks (removelast (arr_shape field_zarr)) blocksize in
  (* determine block coordinates *)
  let block_coords :=
    BlockPlanner.canonical_coords (removelast (arr_shape field_zarr))
      blocksize <$> Np.ndindex nblocks in
  let block_coords_overlaps :=
    BlockPlanner.coords_overlaps (removelast (arr_shape field_zarr))
      blocksize overlap <$> Np.ndindex nblocks in
  (* submit all blocks *)
  let futures :=
    imap (fun iii '(slices, slices_overlaps) =>
            (iii, (slices,
                   invert_block field_zarr spacing blocksize overlap step
                     iterations sqrt_order sqrt_step sqrt_iterations
                     slices_overlaps)))
         (zip block_coords block_coords_overlaps) in
  if negb write_path then
    (* reconstruct output if necessary *)
    let inverse := NdArray (arr_shape field) (fun _ => zero) in
    reconstruct inverse block_coords
      ((fun f => (f.1, f.2.2)) <$> as_completed futures)
  else
    let output_zarr := create_zarr (arr_shape field_zarr) in
    write_tasks output_zarr (as_completed futures).

End Collaborators.
End PiecewiseInvert.

(* ================================================================= *)
(** * Properties *)

(** ** Counting and multi-indices *)

Lemma count_app {A} (f : A -> bool) (l k : list A) :
  count f (l ++ k) = (count f l + count f k)%nat.
Proof. unfold count. now rewrite List.filter_app, length_app. Qed.

Lemma count_fmap {A B} (f : B -> bool) (g : A -> B) (l : list A) :
  count f (g <$> l) = count (fun x => f (g x)) l.
Proof.
  induction l as [|a l IH]; [reflexivity|].
  rewrite fmap_cons. unfold count in *. simpl.
  destruct (f (g a)); simpl; now rewrite IH.
Qed.

Lemma count_ext {A} (f g : A -> bool) (l : list A) :
  (forall x, x ∈ l -> f x = g x) -> count f l = count g l.
Proof.
  unfold count. induction l as [|a l IH]; intros H; simpl; [reflexivity|].
  rewrite (H a) by constructor.
  destruct (g a); simpl; rewrite IH; auto; intros; apply H; now constructor.
Qed.

Lemma count_none {A} (f : A -> bool) (l : list A) :
  (forall x, x ∈ l -> f x = false) -> count f l = 0%nat.
Proof.
  unfold count. induction l as [|a l IH]; intros H; simpl; [reflexivity|].
  rewrite (H a) by constructor. apply IH. intros; apply H; now constructor.
Qed.

(** A test met by exactly one element of a duplicate-free list counts one. *)
Lemma count_unique {A} (f : A -> bool) (l : list A) (x0 : A) :
  NoDup l -> x0 ∈ l -> (forall x, x ∈ l -> f x = true <-> x = x0) ->
  count f l = 1%nat.
Proof.
  induction 1 as [|a l Hnotin Hnd IH]; intros Hin Hf.
  - inversion Hin.
  - change (count f (a :: l)) with (count f ([a] ++ l)). rewrite count_app.
    apply elem_of_cons in Hin as [->|Hin].
    + assert (f a = true) as Ha by (apply Hf; [constructor|reflexivity]).
      rewrite (count_none f l).
      * unfold count; simpl. now rewrite Ha.
      * intros x Hx. destruct (f x) eqn:E; [|reflexivity].
        apply Hf in E; [|now constructor]. congruence.
    + assert (f a = false) as Ha.
      { destruct (f a) eqn:E; [|reflexivity].
        apply Hf in E; [|constructor]. congruence. }
      rewrite IH; auto.
      * unfold count; simpl. now rewrite Ha.
      * intros x Hx. apply Hf. now constructor.
Qed.

(** Counting over [ndindex] factors through the axes. *)
Lemma count_ndindex_cons {C} (t : C -> bool) (F : list Z -> C)
    (p : Z -> bool) (r : list Z -> bool) (l : list Z) (L : list (list Z)) :
  (forall i idx, t (F (i :: idx)) = p i && r idx) ->
  count t (F <$> (i ← l; (i ::.) <$> L)) = (count p l * count r L)%nat.
Proof.
  intros Ht. induction l as [|a l IH]; [reflexivity|].
  rewrite bind_cons, fmap_app, count_app, IH.
  enough (count t (F <$> ((a ::.) <$> L)) = (count p [a] * count r L)%nat) as ->.
  { change (a :: l) with ([a] ++ l). rewrite (count_app p).
    now rewrite Nat.mul_add_distr_r. }
  rewrite <- list_fmap_compose, count_fmap.
  rewrite (count_ext _ (fun idx => p a && r idx)) by (intros; apply Ht).
  unfold count at 2; simpl. destruct (p a); simpl.
  - rewrite Nat.add_0_r. apply count_ext. reflexivity.
  - apply count_none. reflexivity.
Qed.

Lemma elem_of_ndindex (ns idx : list Z) :
  idx ∈ Np.ndindex ns <-> Forall2 (fun i n => 0 <= i < n) idx ns.
Proof.
  revert idx. induction ns as [|n ns IH]; intros idx; simpl.
  - rewrite list_elem_of_singleton. split; [intros ->; constructor|].
    now inversion 1.
  - rewrite list_elem_of_bind. split.
    + intros (i & Hidx & Hi). apply list_elem_of_fmap in Hidx as (idx' & -> & Hin).
      apply elem_of_seqZ in Hi. constructor; [lia|now apply IH].
    + inversion 1 as [|i ? idx' ? Hi Hrest]; subst. exists i. split.
      * apply list_elem_of_fmap. exists idx'. split; [reflexivity|now apply IH].
      * apply elem_of_seqZ. lia.
Qed.

(** ** Ceiling division and rounding *)

Lemma ceil_div_bounds (s b : Z) :
  0 < b ->
  let n := Np.ceil (inject_Z s / inject_Z b) in b * (n - 1) < s <= b * n.
Proof.
  intros Hb n. subst n. unfold Np.ceil, Qceiling.
  rewrite (Qfloor_comp _ (inject_Z (- s) / inject_Z b)).
  2:{ rewrite inject_Z_opp. field. intros H.
      apply (Qeq_bool_neq (inject_Z b) 0); [|exact H].
      unfold Qeq_bool, inject_Z; simpl. apply Z.eqb_neq. lia. }
  rewrite <- Zdiv_Qdiv.
  pose proof (Z.div_mod (- s) b ltac:(lia)).
  pose proof (Z.mod_pos_bound (- s) b Hb). nia.
Qed.

Lemma round_nearest (x : Q) :
  (inject_Z (Np.round x) - (1 # 2) <= x <= inject_Z (Np.round x) + (1 # 2))%Q.
Proof.
  unfold Np.round.
  pose proof (Qfloor_le x) as Hlo. pose proof (Qlt_floor x) as Hhi.
  rewrite inject_Z_plus in Hhi. change (inject_Z 1) with 1%Q in Hhi.
  destruct (x - inject_Z (Qfloor x) ?= 1 # 2)%Q eqn:E.
  - apply Qeq_alt in E.
    destruct (Z.even (Qfloor x)); rewrite ?inject_Z_plus;
      change (inject_Z 1) with 1%Q; lra.
  - apply Qlt_alt in E. lra.
  - apply Qgt_alt in E. rewrite inject_Z_plus. change (inject_Z 1) with 1%Q. lra.
Qed.

(** A tie is rounded to the even neighbour. *)
Lemma round_half_even (x : Q) :
  (x - inject_Z (Qfloor x) == 1 # 2)%Q -> Z.even (Np.round x) = true.
Proof.
  intros H. unfold Np.round. apply Qeq_alt in H. rewrite H.
  destruct (Z.even (Qfloor x)) eqn:E; [assumption|].
  rewrite Z.even_add, E. reflexivity.
Qed.

Lemma round_nonneg (x : Q) : (0 <= x)%Q -> 0 <= Np.round x.
Proof.
  intros Hx. pose proof (round_nearest x) as [_ H].
  destruct (Z_lt_le_dec (Np.round x) 0) as [Hneg|]; [|assumption].
  assert (inject_Z (Np.round x) <= inject_Z (-1))%Q as Hle
    by (rewrite <- Zle_Qle; lia).
  change (inject_Z (-1)) with (-1)%Q in Hle. lra.
Qed.

Lemma round_le_int (x : Q) (b : Z) : (x <= inject_Z b)%Q -> Np.round x <= b.
Proof.
  intros Hx. pose proof (round_nearest x) as [H _].
  destruct (Z_lt_le_dec b (Np.round x)) as [Hgt|]; [|lia].
  assert (inject_Z (b + 1) <= inject_Z (Np.round x))%Q as Hle
    by (rewrite <- Zle_Qle; lia).
  rewrite inject_Z_plus in Hle. change (inject_Z 1) with 1%Q in Hle. lra.
Qed.

(** ** The block planner *)

(** On one axis, a voxel of the volume lies in the canonical interval of
    exactly one block index, and a voxel outside lies in none. *)
Lemma count_canonical_axis (s b x : Z) :
  0 < b ->
  count (fun i => (b * i <=? x) && (x <? Z.min s (b * i + b)))
        (Np.range (Np.ceil (inject_Z s / inject_Z b)))
  = if (0 <=? x) && (x <? s) then 1%nat else 0%nat.
Proof.
  intros Hb. pose proof (ceil_div_bounds s b Hb) as Hn. simpl in Hn.
  unfold Np.range.
  destruct ((0 <=? x) && (x <? s)) eqn:Hx.
  - apply andb_true_iff in Hx as [H0 Hs].
    apply Z.leb_le in H0. apply Z.ltb_lt in Hs.
    pose proof (Z.div_mod x b ltac:(lia)).
    pose proof (Z.mod_pos_bound x b Hb).
    apply (count_unique _ _ (x / b)).
    + apply NoDup_seqZ.
    + apply elem_of_seqZ. nia.
    + intros i _. rewrite andb_true_iff, Z.leb_le, Z.ltb_lt. nia.
  - apply count_none. intros i Hi. apply elem_of_seqZ in Hi.
    apply andb_false_iff in Hx.
    apply andb_false_iff. rewrite Z.leb_gt, Z.ltb_ge in *. nia.
Qed.

(** Looking up an axis of a vector built by element-wise operators. *)
Lemma zip_with_lookup_Some {A B C} (f : A -> B -> C) l k (i : nat) x y :
  l !! i = Some x -> k !! i = Some y -> zip_with f l k !! i = Some (f x y).
Proof. intros Hl Hk. now rewrite lookup_zip_with, Hl, Hk. Qed.

Lemma fmap_lookup_Some {A B} (f : A -> B) (l : list A) (i : nat) x :
  l !! i = Some x -> (f <$> l) !! i = Some (f x).
Proof. intros Hl. now rewrite list_lookup_fmap, Hl. Qed.

Ltac lookup_vec :=
  repeat first
    [ eassumption
    | eapply zip_with_lookup_Some
    | eapply fmap_lookup_Some ].

(** The extended slice of a block, axis by axis. *)
Lemma block_coords_lookup (shape blocksize ov ijk : list Z) k s b o i :
  shape !! k = Some s -> blocksize !! k = Some b ->
  ov !! k = Some o -> ijk !! k = Some i ->
  BlockPlanner.block_coords shape blocksize ov ijk !! k
  = Some (Slice (Z.max 0 (b * i - o)) (Z.min s (b * i + b + o))).
Proof.
  intros Hs Hb Ho Hi.
  replace (b * i + b + o) with (b * i - o + b + 2 * o) by lia.
  unfold BlockPlanner.block_coords, Np.minimum,
    Np.maximum0, Np.add, Np.sub, Np.mul, Np.scale.
  lookup_vec.
Qed.

Lemma coords_overlaps_lookup (shape blocksize ov ijk : list Z) k s b o i :
  shape !! k = Some s -> blocksize !! k = Some b ->
  ov !! k = Some o -> ijk !! k = Some i ->
  BlockPlanner.coords_overlaps shape blocksize ov ijk !! k
  = Some (Slice (Z.max 0 (b * i - o)) (Z.min s (b * i + b + o))).
Proof.
  intros Hs Hb Ho Hi.
  unfold BlockPlanner.coords_overlaps, Np.minimum,
    Np.maximum0, Np.add, Np.sub, Np.mul.
  lookup_vec.
Qed.

Lemma canonical_coords_lookup (shape blocksize ijk : list Z) k s b i :
  shape !! k = Some s -> blocksize !! k = Some b -> ijk !! k = Some i ->
  BlockPlanner.canonical_coords shape blocksize ijk !! k
  = Some (Slice (b * i) (Z.min s (b * i + b))).
Proof.
  intros Hs Hb Hi. unfold BlockPlanner.canonical_coords, Np.minimum,
    Np.add, Np.mul.
  lookup_vec.
Qed.

Lemma nblocks_lookup (shape blocksize : list Z) k s b :
  shape !! k = Some s -> blocksize !! k = Some b ->
  BlockPlanner.nblocks shape blocksize !! k
  = Some (Np.ceil (inject_Z s / inject_Z b)).
Proof.
  intros Hs Hb. unfold BlockPlanner.nblocks, Np.qdiv, Np.of_ints.
  lookup_vec.
Qed.

Lemma overlaps_lookup (blocksize : list Z) (f : Q) k b :
  blocksize !! k = Some b ->
  BlockPlanner.overlaps blocksize f !! k
  = Some (Np.round (inject_Z b * f)).
Proof.
  intros Hb. unfold BlockPlanner.overlaps.
  now rewrite list_lookup_fmap, Hb.
Qed.

(** C1. For every volume shape and every positive block size, each voxel
    of the volume lies in exactly one canonical block extent of the
    planning loop, and an index outside the volume lies in none: the
    canonical extents are pairwise disjoint and their union is the volume. *)
Theorem canonical_blocks_tile (shape blocksize v : list Z) :
  length shape = length blocksize ->
  Forall (fun b => 0 < b) blocksize ->
  count (in_extent v) (BlockPlanner.canonical_blocks shape blocksize)
  = if in_volume v shape then 1%nat else 0%nat.
Proof.
  unfold BlockPlanner.canonical_blocks.
  revert blocksize v.
  induction shape as [|s shape IH]; intros [|b blocksize] v Hlen Hpos;
    try discriminate.
  - destruct v; reflexivity.
  - inversion Hpos as [|? ? Hb Hpos']; subst.
    injection Hlen as Hlen.
    change (BlockPlanner.nblocks (s :: shape) (b :: blocksize))
      with (Np.ceil (inject_Z s / inject_Z b)
              :: BlockPlanner.nblocks shape blocksize).
    cbn [Np.ndindex].
    destruct v as [|x v].
    + rewrite (count_ndindex_cons _ _ (fun _ => false) (fun _ => true))
        by reflexivity.
      rewrite (count_none (fun _ => false)) by reflexivity. reflexivity.
    + rewrite (count_ndindex_cons _ _
        (fun i => (b * i <=? x) && (x <? Z.min s (b * i + b)))
        (fun idx =>
           in_extent v (BlockPlanner.canonical_coords shape blocksize idx)))
        by reflexivity.
      rewrite <- count_fmap, IH, count_canonical_axis by assumption.
      cbn [in_volume].
      destruct ((0 <=? x) && (x <? s)), (in_volume v shape); reflexivity.
Qed.

Lemma canonical_blocks_tile_witness :
  count (in_extent [3; 1; 4]) (BlockPlanner.canonical_blocks [5; 4; 6] [2; 3; 4])
  = 1%nat.
Proof.
  apply (canonical_blocks_tile [5; 4; 6] [2; 3; 4] [3; 1; 4]).
  - reflexivity.
  - repeat constructor.
Defined.

(** C3 as worded does not hold: the stop of the extended slice is
    [blocksize*i + blocksize + overlap] (the unclipped start plus
    [blocksize + 2*overlap]), not [blocksize*i + blocksize + 2*overlap].
    For shape 256, block size 128 and overlap 64, block (0,0,0) stops at
    192 where the worded bound gives 256. *)
Lemma block_coords_not_as_worded :
  BlockPlanner.block_coords [256; 256; 256] [128; 128; 128]
    (BlockPlanner.overlaps [128; 128; 128] (1 # 2)) [0; 0; 0]
  = [Slice 0 192; Slice 0 192; Slice 0 192]
  /\ worded_block_coords [256; 256; 256] [128; 128; 128]
       (BlockPlanner.overlaps [128; 128; 128] (1 # 2)) [0; 0; 0]
     = [Slice 0 256; Slice 0 256; Slice 0 256]
  /\ BlockPlanner.block_coords [256; 256; 256] [128; 128; 128]
       (BlockPlanner.overlaps [128; 128; 128] (1 # 2)) [0; 0; 0]
     <> worded_block_coords [256; 256; 256] [128; 128; 128]
          (BlockPlanner.overlaps [128; 128; 128] (1 # 2)) [0; 0; 0].
Proof. repeat split; vm_compute; congruence. Qed.

(** C3 (amended). Per axis the planner takes [overlap] to be the integer
    nearest to [blocksize * overlap_factor] (the even one at a tie), as
    [np.round] does, and [nblocks] to be the least
    count with [blocksize * nblocks >= shape]; the extended slice of block
    index [i] is [[max 0 (blocksize*i - overlap),
    min shape (blocksize*i + blocksize + overlap))]; it lies within the
    volume and contains the canonical slice
    [[blocksize*i, min shape (blocksize*i + blocksize))]. For shape
    (256,256,256), block size (128,128,128) and overlap factor 0.5 the
    overlap is (64,64,64), block (0,0,0) extends over [0:192] and block
    (1,1,1) over [64:256] on every axis. *)
Theorem block_planning_clip :
  (forall (shape blocksize : list Z) (f : Q) (ijk : list Z),
     length shape = length blocksize ->
     Forall (fun b => 0 < b) blocksize ->
     (0 <= f)%Q ->
     ijk ∈ Np.ndindex (BlockPlanner.nblocks shape blocksize) ->
     forall (k : nat) (s b : Z),
       shape !! k = Some s -> blocksize !! k = Some b ->
       exists n o i,
         BlockPlanner.nblocks shape blocksize !! k = Some n
         /\ b * (n - 1) < s <= b * n
         /\ BlockPlanner.overlaps blocksize f !! k = Some o
         /\ (inject_Z o - (1 # 2) <= inject_Z b * f <= inject_Z o + (1 # 2))%Q
         /\ ((inject_Z b * f - inject_Z (Qfloor (inject_Z b * f)) == 1 # 2)%Q ->
             Z.even o = true)
         /\ 0 <= o
         /\ ijk !! k = Some i /\ 0 <= i < n
         /\ BlockPlanner.block_coords shape blocksize
              (BlockPlanner.overlaps blocksize f) ijk !! k
            = Some (Slice (Z.max 0 (b * i - o)) (Z.min s (b * i + b + o)))
         /\ BlockPlanner.canonical_coords shape blocksize ijk !! k
            = Some (Slice (b * i) (Z.min s (b * i + b)))
         /\ 0 <= Z.max 0 (b * i - o) <= b * i
         /\ b * i < Z.min s (b * i + b) <= Z.min s (b * i + b + o)
         /\ Z.min s (b * i + b + o) <= s)
  /\ BlockPlanner.nblocks [256; 256; 256] [128; 128; 128] = [2; 2; 2]
  /\ BlockPlanner.overlaps [128; 128; 128] (1 # 2) = [64; 64; 64]
  /\ BlockPlanner.blocks_coords [256; 256; 256] [128; 128; 128] (1 # 2) !! 0%nat
     = Some (BlockPlanner.block_coords [256; 256; 256] [128; 128; 128]
               [64; 64; 64] [0; 0; 0])
  /\ BlockPlanner.block_coords [256; 256; 256] [128; 128; 128]
       [64; 64; 64] [0; 0; 0]
     = [Slice 0 192; Slice 0 192; Slice 0 192]
  /\ BlockPlanner.blocks_coords [256; 256; 256] [128; 128; 128] (1 # 2) !! 7%nat
     = Some (BlockPlanner.block_coords [256; 256; 256] [128; 128; 128]
               [64; 64; 64] [1; 1; 1])
  /\ BlockPlanner.block_coords [256; 256; 256] [128; 128; 128]
       [64; 64; 64] [1; 1; 1]
     = [Slice 64 256; Slice 64 256; Slice 64 256].
Proof.
  split; [|repeat split; vm_compute; reflexivity].
  intros shape blocksize f ijk Hlen Hpos Hf Hijk k s b Hs Hb.
  pose proof (proj1 (Forall_lookup _ _) Hpos k b Hb) as Hbpos. simpl in Hbpos.
  pose proof (nblocks_lookup _ _ _ _ _ Hs Hb) as Hn.
  pose proof (overlaps_lookup blocksize f _ _ Hb) as Ho.
  apply elem_of_ndindex in Hijk.
  destruct (Forall2_lookup_r _ _ _ _ _ Hijk Hn) as (i & Hi & Hrange).
  pose proof (ceil_div_bounds s b Hbpos) as Hceil. simpl in Hceil.
  assert (0 <= Np.round (inject_Z b * f)) as Honn.
  { apply round_nonneg. apply Qmult_le_0_compat; [|assumption].
    change 0%Q with (inject_Z 0). rewrite <- Zle_Qle. lia. }
  exists (Np.ceil (inject_Z s / inject_Z b)), (Np.round (inject_Z b * f)), i.
  split; [assumption|]. split; [assumption|]. split; [assumption|].
  split; [apply round_nearest|]. split; [apply round_half_even|].
  split; [assumption|].
  split; [assumption|]. split; [assumption|].
  split; [now apply block_coords_lookup|].
  split; [now apply canonical_coords_lookup|].
  nia.
Qed.

Lemma block_planning_clip_witness :
  exists n o i,
    BlockPlanner.nblocks [5; 4; 6] [2; 3; 4] !! 0%nat = Some n
    /\ 2 * (n - 1) < 5 <= 2 * n
    /\ BlockPlanner.overlaps [2; 3; 4] (1 # 2) !! 0%nat = Some o
    /\ (inject_Z o - (1 # 2) <= inject_Z 2 * (1 # 2) <= inject_Z o + (1 # 2))%Q
    /\ ((inject_Z 2 * (1 # 2) - inject_Z (Qfloor (inject_Z 2 * (1 # 2))) == 1 # 2)%Q ->
        Z.even o = true)
    /\ 0 <= o
    /\ [2; 0; 1] !! 0%nat = Some i /\ 0 <= i < n
    /\ BlockPlanner.block_coords [5; 4; 6] [2; 3; 4]
         (BlockPlanner.overlaps [2; 3; 4] (1 # 2)) [2; 0; 1] !! 0%nat
       = Some (Slice (Z.max 0 (2 * i - o)) (Z.min 5 (2 * i + 2 + o)))
    /\ BlockPlanner.canonical_coords [5; 4; 6] [2; 3; 4] [2; 0; 1] !! 0%nat
       = Some (Slice (2 * i) (Z.min 5 (2 * i + 2)))
    /\ 0 <= Z.max 0 (2 * i - o) <= 2 * i
    /\ 2 * i < Z.min 5 (2 * i + 2) <= Z.min 5 (2 * i + 2 + o)
    /\ Z.min 5 (2 * i + 2 + o) <= 5.
Proof.
  apply (proj1 block_planning_clip [5; 4; 6] [2; 3; 4] (1 # 2) [2; 0; 1]).
  - reflexivity.
  - repeat constructor.
  - discriminate.
  - apply elem_of_ndindex.
    change (BlockPlanner.nblocks [5; 4; 6] [2; 3; 4]) with [3; 2; 2].
    repeat (constructor; [lia|]). constructor.
  - reflexivity.
  - reflexivity.
Defined.

(** ** The overlap crop *)

Lemma slice_length_all (n : Z) : 0 <= n -> slice_length slice_all n = n.
Proof. intros. unfold slice_length; simpl. lia. Qed.

Lemma slice_length_from (o n : Z) :
  0 <= o <= n -> slice_length (slice_from o) n = n - o.
Proof.
  intros. unfold slice_length, slice_indices; simpl.
  destruct (Z.ltb_spec o 0); lia.
Qed.

Lemma slice_length_upto (b n : Z) :
  0 <= b <= n -> slice_length (slice_upto b) n = b.
Proof.
  intros. unfold slice_length, slice_indices; simpl.
  destruct (Z.ltb_spec b 0); lia.
Qed.

(** Slicing one axis and keeping the others whole changes the shape on
    that axis only. *)
Lemma getitem_shape_insert (sh : list Z) (k : nat) (sl : pyslice) (n : Z) :
  Forall (fun m => 0 <= m) sh -> sh !! k = Some n ->
  getitem_shape (<[k := sl]> (replicate (length sh) slice_all)) sh
  = <[k := slice_length sl n]> sh.
Proof.
  intros Hnn. revert k.
  induction Hnn as [|m sh Hm Hnn IH]; intros k Hk; [discriminate|].
  destruct k as [|k]; simpl in *.
  - injection Hk as ->. f_equal.
    clear IH. induction Hnn as [|m' sh' Hm' _ IH']; simpl; [reflexivity|].
    now rewrite slice_length_all, IH'.
  - rewrite slice_length_all by assumption. f_equal. now apply IH.
Qed.

Lemma getitem_insert_shape {A} (a : ndarray A) (k : nat) (sl : pyslice) (n : Z) :
  Forall (fun m => 0 <= m) (arr_shape a) -> arr_shape a !! k = Some n ->
  exists a', getitem a (<[k := sl]> (replicate (ndim a) slice_all)) = Ok a'
    /\ arr_shape a' = <[k := slice_length sl n]> (arr_shape a).
Proof.
  intros Hnn Hk. unfold getitem.
  rewrite decide_True by (rewrite length_insert, length_replicate; lia).
  eexists; split; [reflexivity|]. simpl. now apply getitem_shape_insert.
Qed.

Lemma index_Some {A} (l : list A) (i : nat) (x : A) :
  l !! i = Some x -> index l i = Ok x.
Proof. unfold index. now intros ->. Qed.

Section Crop.
Context {A : Type}.
Variables (shape blocksize blockoverlaps ijk : list Z).
Hypothesis Hlen_bs : length shape = length blocksize.
Hypothesis Hlen_ov : length blockoverlaps = length blocksize.
Hypothesis Hov : Forall2 (fun b o => 0 <= o < b) blocksize blockoverlaps.
Hypothesis Hijk : ijk ∈ Np.ndindex (BlockPlanner.nblocks shape blocksize).

Let ext := BlockPlanner.block_coords shape blocksize blockoverlaps ijk.
Let can := BlockPlanner.canonical_coords shape blocksize ijk.

(** The data of one axis of a planned block. *)
Lemma planned_axis (k : nat) :
  (k < length shape)%nat ->
  exists s b o i,
    shape !! k = Some s /\ blocksize !! k = Some b
    /\ blockoverlaps !! k = Some o /\ ijk !! k = Some i
    /\ 0 <= o < b /\ 0 <= i /\ b * i < s
    /\ ext !! k = Some (Slice (Z.max 0 (b * i - o)) (Z.min s (b * i + b + o)))
    /\ can !! k = Some (Slice (b * i) (Z.min s (b * i + b))).
Proof.
  intros Hk.
  destruct (lookup_lt_is_Some_2 shape k Hk) as [s Hs].
  destruct (lookup_lt_is_Some_2 blocksize k ltac:(lia)) as [b Hb].
  destruct (Forall2_lookup_l _ _ _ _ _ Hov Hb) as (o & Ho & Hob).
  pose proof (nblocks_lookup _ _ _ _ _ Hs Hb) as Hn.
  pose proof Hijk as Hidx. apply elem_of_ndindex in Hidx.
  destruct (Forall2_lookup_r _ _ _ _ _ Hidx Hn) as (i & Hi & Hrange).
  pose proof (ceil_div_bounds s b ltac:(lia)) as Hceil. simpl in Hceil.
  exists s, b, o, i. repeat split; try assumption; try lia.
  - nia.
  - now apply block_coords_lookup.
  - now apply canonical_coords_lookup.
Qed.

Lemma length_ext : length ext = length shape.
Proof.
  apply elem_of_ndindex, Forall2_length in Hijk.
  assert (length (BlockPlanner.nblocks shape blocksize) = length shape) as Hn.
  { unfold BlockPlanner.nblocks, Np.qdiv, Np.of_ints.
    rewrite length_fmap, length_zip_with, !length_fmap. lia. }
  unfold ext, BlockPlanner.block_coords, Np.minimum, Np.maximum0, Np.add,
    Np.sub, Np.mul, Np.scale.
  repeat rewrite ?length_zip_with, ?length_fmap. lia.
Qed.

Lemma length_can : length can = length shape.
Proof.
  apply elem_of_ndindex, Forall2_length in Hijk.
  assert (length (BlockPlanner.nblocks shape blocksize) = length shape) as Hn.
  { unfold BlockPlanner.nblocks, Np.qdiv, Np.of_ints.
    rewrite length_fmap, length_zip_with, !length_fmap. lia. }
  unfold can, BlockPlanner.canonical_coords, Np.minimum, Np.add, Np.mul.
  repeat rewrite ?length_zip_with, ?length_fmap. lia.
Qed.

(** One round of the crop loop turns the extended length of the axis
    into the canonical one and records the canonical slice. *)
Lemma crop_axis_canonical (a : ndarray A) (fin : list slice) (k : nat)
    (e c : slice) :
  Forall (fun m => 0 <= m) (arr_shape a) ->
  ext !! k = Some e -> can !! k = Some c ->
  arr_shape a !! k = Some (stop e - start e) ->
  exists a',
    DistributedTransform.crop_axis ext blocksize blockoverlaps (a, fin) k
    = Ok (a', fin ++ [c])
    /\ arr_shape a' = <[k := stop c - start c]> (arr_shape a).
Proof.
  intros Hnn He Hc Hshape.
  assert (k < length shape)%nat as Hk
    by (rewrite <- length_ext; eapply lookup_lt_Some; eassumption).
  destruct (planned_axis k Hk)
    as (s & b & o & i & Hs & Hb & Ho & Hi & Hob & Hi0 & His & He' & Hc').
  rewrite He in He'. injection He' as ->.
  rewrite Hc in Hc'. injection Hc' as ->.
  simpl in Hshape.
  unfold DistributedTransform.crop_axis.
  rewrite (index_Some _ _ _ He). cbn [mbind result_bind start stop].
  remember (Z.max 0 (b * i - o)) as es eqn:Hes.
  remember (Z.min s (b * i + b + o)) as ee eqn:Hee.
  assert (es = 0 -> i = 0) as Hfirst by nia.
  (* left side *)
  assert (exists a1,
    (if decide (es <> 0)
     then ov ← index blockoverlaps k;
          aligned_block ←
            getitem a (<[k := slice_from ov]> (replicate (ndim a) slice_all));
          Ok (aligned_block, es + ov)
     else Ok (a, es)) = Ok (a1, b * i)
    /\ arr_shape a1 = <[k := ee - b * i]> (arr_shape a)) as (a1 & -> & Ha1).
  { destruct (decide (es <> 0)) as [Hne|Heq].
    - rewrite (index_Some _ _ _ Ho). cbn [mbind result_bind].
      destruct (getitem_insert_shape a k (slice_from o) _ Hnn Hshape)
        as (a1 & -> & Ha1). cbn [mbind result_bind].
      exists a1. split; [f_equal; f_equal; lia|].
      rewrite Ha1, slice_length_from by lia. f_equal. lia.
    - assert (es = 0) as Hes0 by lia. rewrite (Hfirst Hes0) in *.
      exists a. split; [f_equal; f_equal; lia|].
      symmetry. apply list_insert_id. rewrite Hshape. f_equal. lia. }
  cbn [mbind result_bind].
  assert (arr_shape a1 !! k = Some (ee - b * i)) as Hk1.
  { rewrite Ha1. apply list_lookup_insert_eq.
    eapply lookup_lt_Some; eassumption. }
  assert (Forall (fun m => 0 <= m) (arr_shape a1)) as Hnn1.
  { rewrite Ha1. apply Forall_insert; [assumption|lia]. }
  rewrite (index_Some _ _ _ Hk1), (index_Some _ _ _ Hb).
  cbn [mbind result_bind].
  (* right side *)
  destruct (Z.ltb_spec b (ee - b * i)) as [Hlt|Hge].
  - destruct (getitem_insert_shape a1 k (slice_upto b) _ Hnn1 Hk1)
      as (a2 & -> & Ha2). cbn [mbind result_bind].
    rewrite slice_length_upto in Ha2 by lia.
    assert (arr_shape a2 !! k = Some b) as Hk2.
    { rewrite Ha2. apply list_lookup_insert_eq.
      eapply lookup_lt_Some; eassumption. }
    rewrite (index_Some _ _ _ Hk2). cbn [mbind result_bind].
    exists a2. split.
    + replace (Z.min s (b * i + b)) with (b * i + b) by lia. reflexivity.
    + rewrite Ha2, Ha1, list_insert_insert_eq. simpl. f_equal. lia.
  - cbn [mbind result_bind]. exists a1. split.
    + replace (Z.min s (b * i + b)) with ee by lia. reflexivity.
    + rewrite Ha1. simpl. f_equal. lia.
Qed.

(** The crop loop from axis [k] on: the axes before [k] already have
    their canonical length, the others still their extended length. *)
Lemma crop_axes_canonical (m k : nat) (a : ndarray A) (fin : list slice) :
  (k + m = length shape)%nat ->
  length (arr_shape a) = length shape ->
  (forall j c, (j < k)%nat -> can !! j = Some c ->
     arr_shape a !! j = Some (stop c - start c)) ->
  (forall j e, (k <= j)%nat -> ext !! j = Some e ->
     arr_shape a !! j = Some (stop e - start e)) ->
  exists a',
    DistributedTransform.crop_axes ext blocksize blockoverlaps (seq k m) (a, fin)
    = Ok (a', fin ++ drop k can)
    /\ arr_shape a' = (fun c => stop c - start c) <$> can.
Proof.
  revert k a fin. induction m as [|m IH]; intros k a fin Hkm Hlen Hlo Hhi.
  - exists a. simpl. split.
    + rewrite drop_ge by (rewrite length_can; lia). now rewrite app_nil_r.
    + apply list_eq. intros j. rewrite list_lookup_fmap.
      destruct (can !! j) as [c|] eqn:Hc; simpl.
      * apply Hlo; [|assumption]. apply lookup_lt_Some in Hc.
        rewrite length_can in Hc. lia.
      * apply lookup_ge_None. apply lookup_ge_None in Hc.
        rewrite length_can in Hc. lia.
  - assert (k < length shape)%nat as Hk by lia.
    destruct (planned_axis k Hk)
      as (s & b & o & i & Hs & Hb & Ho & Hi & Hob & Hi0 & His & He & Hc).
    assert (Forall (fun x => 0 <= x) (arr_shape a)) as Hnn.
    { apply Forall_lookup. intros j x Hx.
      assert (j < length shape)%nat as Hj
        by (rewrite <- Hlen; eapply lookup_lt_Some; eassumption).
      destruct (planned_axis j Hj)
        as (s' & b' & o' & i' & _ & _ & _ & _ & ? & ? & ? & He' & Hc').
      destruct (Nat.lt_ge_cases j k) as [Hjk|Hjk].
      - rewrite (Hlo _ _ Hjk Hc') in Hx. injection Hx as <-. simpl. nia.
      - rewrite (Hhi _ _ Hjk He') in Hx. injection Hx as <-. simpl. nia. }
    destruct (crop_axis_canonical a fin k _ _ Hnn He Hc (Hhi _ _ (Nat.le_refl k) He))
      as (a1 & Hstep & Ha1).
    cbn [seq DistributedTransform.crop_axes]. fold ext. rewrite Hstep.
    cbn [mbind result_bind].
    destruct (IH (S k) a1 (fin ++ [Slice (b * i) (Z.min s (b * i + b))]))
      as (a' & Hrest & Ha').
    + lia.
    + rewrite Ha1, length_insert. assumption.
    + intros j c Hj Hcj. rewrite Ha1.
      destruct (decide (j = k)) as [->|Hne].
      * rewrite Hc in Hcj. injection Hcj as <-.
        apply list_lookup_insert_eq. lia.
      * rewrite list_lookup_insert_ne by congruence. apply Hlo; [lia|assumption].
    + intros j e Hj Hej. rewrite Ha1.
      rewrite list_lookup_insert_ne by lia. apply Hhi; [lia|assumption].
    + exists a'. split; [|assumption].
      rewrite Hrest, <- app_assoc. simpl.
      now rewrite (drop_S _ _ _ Hc).
Qed.

(** The crop of an array shaped like the extended block. *)
Lemma crop_overlap_planned (aligned_block : ndarray A) :
  arr_shape aligned_block = (fun e => stop e - start e) <$> ext ->
  exists cropped,
    DistributedTransform.crop_overlap ext blocksize blockoverlaps aligned_block
    = Ok (can, cropped)
    /\ arr_shape cropped = (fun c => stop c - start c) <$> can.
Proof.
  intros Hshape.
  assert (ndim aligned_block = length shape) as Hdim
    by (unfold ndim; now rewrite Hshape, length_fmap, length_ext).
  destruct (crop_axes_canonical (length shape) 0 aligned_block [])
    as (a' & Hloop & Ha').
  - reflexivity.
  - exact Hdim.
  - intros j c Hj. lia.
  - intros j e _ He. now rewrite Hshape, list_lookup_fmap, He.
  - exists a'. unfold DistributedTransform.crop_overlap.
    rewrite Hdim, Hloop. split; [reflexivity|assumption].
Qed.

End Crop.

(** Away from the case [overlap = blocksize], the crop loop gives back the
    canonical tile: for overlaps with [0 <= overlap < blocksize] on every
    axis, cropping an array shaped like the extended block of a planned
    multi-index yields the canonical slices as placement and an array of
    the canonical shape. *)
Lemma crop_overlap_canonical {A} (shape blocksize blockoverlaps ijk : list Z)
    (aligned_block : ndarray A) :
  length shape = length blocksize ->
  length blockoverlaps = length blocksize ->
  Forall2 (fun b o => 0 <= o < b) blocksize blockoverlaps ->
  ijk ∈ Np.ndindex (BlockPlanner.nblocks shape blocksize) ->
  arr_shape aligned_block
  = (fun e => stop e - start e)
      <$> BlockPlanner.block_coords shape blocksize blockoverlaps ijk ->
  exists cropped,
    DistributedTransform.crop_overlap
      (BlockPlanner.block_coords shape blocksize blockoverlaps ijk)
      blocksize blockoverlaps aligned_block
    = Ok (BlockPlanner.canonical_coords shape blocksize ijk, cropped)
    /\ arr_shape cropped
       = (fun c => stop c - start c)
           <$> BlockPlanner.canonical_coords shape blocksize ijk.
Proof. intros. now apply crop_overlap_planned. Qed.

(** C2 on the code. With overlap factor 1.0 the overlap equals the block
    size, the extended start of block (1,1,1) is clipped to 0, the test
    [block_coords[axis].start != 0] takes the block for a first block and
    the crop places it at [0:2] on every axis, on top of block (0,0,0),
    where its canonical slice is [2:4]. *)
Theorem crop_overlap_misplaces_full_overlap {A} (item : list Z -> A) :
  BlockPlanner.overlaps [2; 2; 2] 1 = [2; 2; 2]
  /\ BlockPlanner.blocks_coords [4; 4; 4] [2; 2; 2] 1 !! 7%nat
     = Some (BlockPlanner.block_coords [4; 4; 4] [2; 2; 2] [2; 2; 2] [1; 1; 1])
  /\ BlockPlanner.block_coords [4; 4; 4] [2; 2; 2] [2; 2; 2] [1; 1; 1]
     = [Slice 0 4; Slice 0 4; Slice 0 4]
  /\ fst <$> DistributedTransform.crop_overlap
               [Slice 0 4; Slice 0 4; Slice 0 4] [2; 2; 2] [2; 2; 2]
               (NdArray [4; 4; 4] item)
     = Ok [Slice 0 2; Slice 0 2; Slice 0 2]
  /\ BlockPlanner.canonical_coords [4; 4; 4] [2; 2; 2] [1; 1; 1]
     = [Slice 2 4; Slice 2 4; Slice 2 4].
Proof. repeat split; vm_compute; reflexivity. Qed.

(** ** Transform localisation *)

Lemma floor_nonneg (x : Q) : (0 <= x)%Q -> 0 <= Np.floor x.
Proof. intros H. apply (Qfloor_resp_le 0 x H). Qed.

Lemma ceil_nonneg (x : Q) : (0 <= x)%Q -> 0 <= Np.ceil x.
Proof. intros H. apply (Qceiling_resp_le 0 x H). Qed.

Lemma Qdiv_nonneg (x y : Q) : (0 <= x)%Q -> (0 < y)%Q -> (0 <= x / y)%Q.
Proof.
  intros Hx Hy. unfold Qdiv. apply Qmult_le_0_compat; [assumption|].
  apply Qinv_le_0_compat. now apply Qlt_le_weak.
Qed.

Lemma inject_Z_nonneg (z : Z) : 0 <= z -> (0 <= inject_Z z)%Q.
Proof. intros H. change 0%Q with (inject_Z 0). now rewrite <- Zle_Qle. Qed.

(** Python's clipping of a slice with non-negative bounds. *)
Lemma slice_length_clip (a b n : Z) :
  0 <= a -> 0 <= b ->
  slice_indices (slice_of (Slice a b)) n = (Z.min a n, Z.min b n)
  /\ slice_length (slice_of (Slice a b)) n = Z.max 0 (Z.min b n - Z.min a n).
Proof.
  intros Ha Hb. unfold slice_length, slice_indices, slice_of; simpl.
  destruct (Z.ltb_spec a 0), (Z.ltb_spec b 0); try lia. split; reflexivity.
Qed.

Lemma getitem_shape_lookup (sl : list pyslice) (sh : list Z) k s n :
  sl !! k = Some s -> sh !! k = Some n ->
  getitem_shape sl sh !! k = Some (slice_length s n).
Proof.
  revert sh k. induction sl as [|s' sl IH]; intros [|m sh] [|k] Hs Hn;
    try discriminate; simpl in *.
  - congruence.
  - now apply IH.
Qed.

Lemma getitem_shape_lookup_whole (sl : list pyslice) (sh : list Z) k :
  (length sl <= k)%nat -> getitem_shape sl sh !! k = sh !! k.
Proof.
  revert sh k. induction sl as [|s' sl IH]; intros [|m sh] k Hk;
    try reflexivity; simpl in *.
  destruct k as [|k]; [lia|]. simpl. apply IH. lia.
Qed.

Section Localize.
Variables (fix_spacing : list Q) (block_coords : list slice).
Variable transform_spacing_list : list (list Q).

Let fix_origin := Np.qmul fix_spacing (Np.of_ints (start <$> block_coords)).
Let crop_start (spacing_t : list Q) : list Z :=
  Np.floor <$> Np.qdiv fix_origin spacing_t.
Let crop_stop (spacing_t : list Q) : list Z :=
  Np.ceil <$> Np.qdiv
    (Np.qmul (Np.of_ints (stop <$> block_coords)) fix_spacing) spacing_t.
Let crop_slices (spacing_t : list Q) : list pyslice :=
  zip_with (fun a b => slice_of (Slice a b))
    (crop_start spacing_t) (crop_stop spacing_t).

Lemma read_transform_affine (iii : nat) (transform : ndarray Q) :
  is_affine transform = true ->
  DistributedTransform.read_transform fix_spacing fix_origin block_coords
    transform_spacing_list iii transform = Ok (transform, fix_origin).
Proof. intros H. unfold DistributedTransform.read_transform. now rewrite H. Qed.

Lemma read_transform_field (iii : nat) (transform : ndarray Q) spacing_t :
  is_affine transform = false ->
  transform_spacing_list !! iii = Some spacing_t ->
  ndim transform = S (length block_coords) ->
  exists cropped,
    getitem transform (crop_slices spacing_t) = Ok cropped
    /\ DistributedTransform.read_transform fix_spacing fix_origin block_coords
         transform_spacing_list iii transform
       = Ok (cropped, Np.qmul (Np.of_ints (crop_start spacing_t)) spacing_t).
Proof.
  intros Haff Hsp Hdim. unfold DistributedTransform.read_transform.
  rewrite Haff, (index_Some _ _ _ Hsp). cbn [negb mbind result_bind].
  fold (crop_start spacing_t) (crop_stop spacing_t) (crop_slices spacing_t).
  unfold getitem. rewrite decide_True.
  - eexists. split; reflexivity.
  - unfold crop_slices, crop_stop, Np.qdiv, Np.qmul, Np.of_ints.
    rewrite Hdim.
    repeat rewrite ?length_zip_with, ?length_fmap. lia.
Qed.

(** The loop localizes the transform at position [j] of the chain on its
    own, with its own index, and keeps the positions. *)
Lemma read_transforms_pointwise (transform_list : list (ndarray Q)) (iii : nat) :
  (forall j transform, transform_list !! j = Some transform ->
     is_affine transform = false ->
     is_Some (transform_spacing_list !! (iii + j)%nat)
     /\ ndim transform = S (length block_coords)) ->
  exists applied origins,
    DistributedTransform.read_transforms fix_spacing fix_origin block_coords
      transform_spacing_list iii transform_list = Ok (applied, origins)
    /\ length applied = length transform_list
    /\ length origins = length transform_list
    /\ forall j transform, transform_list !! j = Some transform ->
         exists localized origin,
           applied !! j = Some localized /\ origins !! j = Some origin
           /\ DistributedTransform.read_transform fix_spacing fix_origin
                block_coords transform_spacing_list (iii + j) transform
              = Ok (localized, origin).
Proof.
  revert iii. induction transform_list as [|t rest IH]; intros iii Hok.
  - exists [], []. repeat split; try reflexivity. intros j ? Hj. discriminate.
  - assert (exists t' o,
      DistributedTransform.read_transform fix_spacing fix_origin block_coords
        transform_spacing_list iii t = Ok (t', o)) as (t' & o & Ht).
    { destruct (is_affine t) eqn:Haff.
      - eexists _, _. now apply read_transform_affine.
      - destruct (Hok 0%nat t eq_refl Haff) as [[sp Hsp] Hdim].
        rewrite Nat.add_0_r in Hsp.
        destruct (read_transform_field iii t sp Haff Hsp Hdim) as (c & _ & Hc).
        eexists _, _. exact Hc. }
    destruct (IH (S iii)) as (applied & origins & Hrest & Hla & Hlo & Hpt).
    { intros j tr Hj Haff. specialize (Hok (S j) tr Hj Haff).
      now rewrite <- Nat.add_succ_comm in Hok. }
    exists (t' :: applied), (o :: origins).
    cbn [DistributedTransform.read_transforms].
    rewrite Ht. cbn [mbind result_bind]. rewrite Hrest.
    cbn [mbind result_bind]. repeat split; simpl; try congruence.
    intros [|j] tr Hj; simpl in Hj.
    + injection Hj as <-. exists t', o. rewrite Nat.add_0_r. now repeat split.
    + destruct (Hpt j tr Hj) as (l & og & ? & ? & Hrt).
      exists l, og. rewrite <- Nat.add_succ_comm. now repeat split.
Qed.

Hypothesis Hfix_spacing : Forall (fun x => (0 < x)%Q) fix_spacing.
Hypothesis Hspacing :
  Forall (Forall (fun x => (0 < x)%Q)) transform_spacing_list.
Hypothesis Hblock : Forall (fun s => 0 <= start s /\ 0 <= stop s) block_coords.

Lemma crop_start_nonneg (spacing_t : list Q) k a :
  spacing_t ∈ transform_spacing_list ->
  crop_start spacing_t !! k = Some a -> 0 <= a.
Proof.
  intros Hin Ha. unfold crop_start, fix_origin, Np.qdiv, Np.qmul, Np.of_ints in Ha.
  apply list_lookup_fmap_Some_1 in Ha as (q & -> & Hq).
  apply lookup_zip_with_Some in Hq as (fo & sp & -> & Hfo & Hsp).
  apply lookup_zip_with_Some in Hfo as (fs & st & -> & Hfs & Hst).
  apply list_lookup_fmap_Some_1 in Hst as (z & -> & Hz).
  apply list_lookup_fmap_Some_1 in Hz as (s & -> & Hs).
  pose proof (proj1 (Forall_lookup _ _) Hfix_spacing _ _ Hfs) as Hfs0.
  pose proof (proj1 (Forall_lookup _ _) Hblock _ _ Hs) as [Hs0 _].
  pose proof (proj1 (Forall_forall _ _) Hspacing _ Hin) as Hsp_all.
  pose proof (proj1 (Forall_lookup _ _) Hsp_all _ _ Hsp) as Hsp0.
  cbv beta in *. apply floor_nonneg, Qdiv_nonneg; [|assumption].
  apply Qmult_le_0_compat; [now apply Qlt_le_weak|now apply inject_Z_nonneg].
Qed.

Lemma crop_stop_nonneg (spacing_t : list Q) k b :
  spacing_t ∈ transform_spacing_list ->
  crop_stop spacing_t !! k = Some b -> 0 <= b.
Proof.
  intros Hin Hb. unfold crop_stop, Np.qdiv, Np.qmul, Np.of_ints in Hb.
  apply list_lookup_fmap_Some_1 in Hb as (q & -> & Hq).
  apply lookup_zip_with_Some in Hq as (ps & sp & -> & Hps & Hsp).
  apply lookup_zip_with_Some in Hps as (st & fs & -> & Hst & Hfs).
  apply list_lookup_fmap_Some_1 in Hst as (z & -> & Hz).
  apply list_lookup_fmap_Some_1 in Hz as (s & -> & Hs).
  pose proof (proj1 (Forall_lookup _ _) Hfix_spacing _ _ Hfs) as Hfs0.
  pose proof (proj1 (Forall_lookup _ _) Hblock _ _ Hs) as [_ Hs0].
  pose proof (proj1 (Forall_forall _ _) Hspacing _ Hin) as Hsp_all.
  pose proof (proj1 (Forall_lookup _ _) Hsp_all _ _ Hsp) as Hsp0.
  cbv beta in *. apply ceil_nonneg, Qdiv_nonneg; [|assumption].
  apply Qmult_le_0_compat; [now apply inject_Z_nonneg|now apply Qlt_le_weak].
Qed.

End Localize.

Lemma getitem_starts_lookup (sl : list pyslice) (sh : list Z) k s n :
  sl !! k = Some s -> sh !! k = Some n ->
  getitem_starts sl sh !! k = Some (fst (slice_indices s n)).
Proof.
  revert sh k. induction sl as [|s' sl IH]; intros [|m sh] [|k] Hs Hn;
    try discriminate; simpl in *.
  - congruence.
  - now apply IH.
Qed.

(** C4. Localizing a transform chain to a block succeeds when every
    transform has a spacing and every displacement field has one axis more
    than the block; the result keeps the length and the order of the chain;
    an affine (4x4) transform is passed through unmodified with the block's
    physical origin as its origin; a displacement field with spacing
    [spacing_t] is sliced by [[floor(block_physical_origin / spacing_t),
    ceil(block_physical_stop / spacing_t))], which Python clips to the
    field's own shape, and its recorded origin is
    [crop_start * spacing_t]. *)
Theorem transform_chain_localized (fix_spacing : list Q)
    (block_coords : list slice) (transform_spacing_list : list (list Q))
    (transform_list : list (ndarray Q)) :
  let fix_origin := Np.qmul fix_spacing (Np.of_ints (start <$> block_coords)) in
  let block_stop := Np.qmul (Np.of_ints (stop <$> block_coords)) fix_spacing in
  length transform_spacing_list = length transform_list ->
  Forall (fun t => is_affine t = false -> ndim t = S (length block_coords))
         transform_list ->
  Forall (fun x => (0 < x)%Q) fix_spacing ->
  Forall (Forall (fun x => (0 < x)%Q)) transform_spacing_list ->
  Forall (fun s => 0 <= start s /\ 0 <= stop s) block_coords ->
  exists applied origins,
    DistributedTransform.read_transforms fix_spacing fix_origin block_coords
      transform_spacing_list 0 transform_list = Ok (applied, origins)
    /\ length applied = length transform_list
    /\ length origins = length transform_list
    /\ forall iii transform, transform_list !! iii = Some transform ->
         (is_affine transform = true ->
            applied !! iii = Some transform /\ origins !! iii = Some fix_origin)
         /\ (is_affine transform = false ->
             exists spacing_t cropped,
               transform_spacing_list !! iii = Some spacing_t
               /\ let crop_start := Np.floor <$> Np.qdiv fix_origin spacing_t in
                  let crop_stop := Np.ceil <$> Np.qdiv block_stop spacing_t in
                  let crop :=
                    zip_with (fun a b => slice_of (Slice a b))
                             crop_start crop_stop in
                  getitem transform crop = Ok cropped
                  /\ applied !! iii = Some cropped
                  /\ origins !! iii
                     = Some (Np.qmul (Np.of_ints crop_start) spacing_t)
                  /\ (forall idx,
                        arr_item cropped idx
                        = arr_item transform
                            (shift (getitem_starts crop (arr_shape transform))
                                   idx))
                  /\ forall k a b n,
                       crop_start !! k = Some a -> crop_stop !! k = Some b ->
                       arr_shape transform !! k = Some n ->
                       getitem_starts crop (arr_shape transform) !! k
                       = Some (Z.min a n)
                       /\ arr_shape cropped !! k
                          = Some (Z.max 0 (Z.min b n - Z.min a n))).
Proof.
  intros fix_origin block_stop Hlen Hrank Hfs Hsp Hblk.
  subst fix_origin block_stop.
  destruct (read_transforms_pointwise fix_spacing block_coords
              transform_spacing_list transform_list 0)
    as (applied & origins & Hrun & Hla & Hlo & Hpt).
  { intros j t Hj Haff. split.
    - apply lookup_lt_is_Some. rewrite Hlen. simpl.
      eapply lookup_lt_Some; eassumption.
    - exact (proj1 (Forall_lookup _ _) Hrank _ _ Hj Haff). }
  exists applied, origins.
  split; [assumption|]. split; [assumption|]. split; [assumption|].
  intros iii transform Hiii.
  destruct (Hpt iii transform Hiii) as (localized & origin & Happ & Horg & Hrt).
  change (0 + iii)%nat with iii in Hrt. split; intros Haff.
  - rewrite (read_transform_affine fix_spacing block_coords
               transform_spacing_list iii transform Haff) in Hrt.
    injection Hrt as <- <-. now split.
  - assert (is_Some (transform_spacing_list !! iii)) as [spacing_t Hst].
    { apply lookup_lt_is_Some. rewrite Hlen. eapply lookup_lt_Some; eassumption. }
    pose proof (proj1 (Forall_lookup _ _) Hrank _ _ Hiii Haff) as Hdim.
    destruct (read_transform_field fix_spacing block_coords
                transform_spacing_list iii transform spacing_t Haff Hst Hdim)
      as (cropped & Hget & Hrt').
    rewrite Hrt' in Hrt. injection Hrt as <- <-.
    exists spacing_t, cropped. split; [assumption|]. cbv zeta.
    split; [assumption|]. split; [assumption|]. split; [assumption|].
    assert (spacing_t ∈ transform_spacing_list) as Hin
      by (eapply list_elem_of_lookup_2; eassumption).
    unfold getitem in Hget. destruct (decide _) in Hget; [|discriminate].
    injection Hget as <-. split; [reflexivity|].
    intros k a b n Ha Hb Hn. cbn [arr_shape].
    pose proof (crop_start_nonneg fix_spacing block_coords
                  transform_spacing_list Hfs Hsp Hblk spacing_t k a Hin Ha) as Ha0.
    pose proof (crop_stop_nonneg fix_spacing block_coords
                  transform_spacing_list Hfs Hsp Hblk spacing_t k b Hin Hb) as Hb0.
    destruct (slice_length_clip a b n Ha0 Hb0) as [Hidx Hlen'].
    split.
    + erewrite getitem_starts_lookup;
        [|apply zip_with_lookup_Some; eassumption|eassumption].
      now rewrite Hidx.
    + erewrite getitem_shape_lookup;
        [|apply zip_with_lookup_Some; eassumption|eassumption].
      now rewrite Hlen'.
Qed.

Lemma transform_chain_localized_witness :
  exists applied origins,
    DistributedTransform.read_transforms [1; 1; 1]%Q
      (Np.qmul [1; 1; 1]%Q
         (Np.of_ints (start <$> [Slice 0 6; Slice 2 8; Slice 4 8])))
      [Slice 0 6; Slice 2 8; Slice 4 8] [[1; 1; 1]%Q; [2; 2; 2]%Q] 0
      [NdArray [4; 4] (fun _ => 0%Q); NdArray [4; 4; 4; 3] (fun _ => 0%Q)]
    = Ok (applied, origins)
    /\ length applied = 2%nat
    /\ arr_shape <$> applied = [[4; 4]; [3; 3; 2; 3]]
    /\ origins = [[0; 2; 4]%Q; [0; 2; 4]%Q].
Proof.
  destruct (transform_chain_localized [1; 1; 1]%Q
              [Slice 0 6; Slice 2 8; Slice 4 8] [[1; 1; 1]%Q; [2; 2; 2]%Q]
              [NdArray [4; 4] (fun _ => 0%Q); NdArray [4; 4; 4; 3] (fun _ => 0%Q)])
    as (applied & origins & Hrun & Hlen & _).
  - reflexivity.
  - repeat constructor; intros H; vm_compute in H; try discriminate; reflexivity.
  - repeat constructor.
  - repeat constructor.
  - repeat constructor; simpl; lia.
  - exists applied, origins. split; [exact Hrun|]. split; [exact Hlen|].
    vm_compute in Hrun. injection Hrun as <- <-. split; reflexivity.
Defined.

(** ** The moving region of a block *)

(** The corners enumerated for a three-dimensional block are the eight
    combinations of first and last voxel index per axis. *)
Lemma block_corners_spec (block_coords : list slice) (c : list Z) :
  length block_coords = 3%nat ->
  length (DistributedTransform.block_corners block_coords) = 8%nat
  /\ (c ∈ DistributedTransform.block_corners block_coords
      <-> Forall2 (fun x s => x = start s \/ x = stop s - 1) c block_coords).
Proof.
  intros Hlen.
  destruct block_coords as [|s1 [|s2 [|s3 [|? ?]]]]; try discriminate.
  split; [reflexivity|].
  unfold DistributedTransform.block_corners. cbn.
  rewrite !elem_of_cons, elem_of_nil. split.
  - intros H. decompose [or] H; subst; try contradiction;
      repeat (apply List.Forall2_cons;
                [first [left; reflexivity | right; reflexivity]|]);
      apply List.Forall2_nil.
  - intros H.
    inversion H as [|x1 ? c1 ? H1 H']; subst.
    inversion H' as [|x2 ? c2 ? H2 H'']; subst.
    inversion H'' as [|x3 ? c3 ? H3 H''']; subst.
    inversion H'''; subst.
    destruct H1 as [-> | ->], H2 as [-> | ->], H3 as [-> | ->]; tauto.
Qed.

Section AxisFold.
Context {T : Type}.
Variable op : T -> T -> T.
Variable R : T -> T -> Prop.
Hypothesis Hsel : forall x y, op x y = x \/ op x y = y.
Hypothesis HRl : forall x y, R (op x y) x.
Hypothesis HRr : forall x y, R (op x y) y.
Hypothesis HRtrans : forall x y z, R x y -> R y z -> R x z.

(** Folding a selecting operator over the rows of a rectangular array
    gives, on each axis, an entry of that column that is [R]-below all
    entries of the column. *)
Lemma fold_axis0_spec (d : nat) (rows : list (list T)) (r : list T) :
  length r = d -> Forall (fun row => length row = d) rows ->
  length (foldl (zip_with op) r rows) = d
  /\ forall k, (k < d)%nat ->
       exists m, foldl (zip_with op) r rows !! k = Some m
         /\ (forall row, row ∈ r :: rows ->
               exists x, row !! k = Some x /\ R m x)
         /\ (exists row, row ∈ r :: rows /\ row !! k = Some m).
Proof.
  intros Hr Hrows. revert r Hr.
  induction Hrows as [|row rows Hrow Hrows IH]; intros r Hr; simpl.
  - split; [assumption|]. intros k Hk.
    destruct (lookup_lt_is_Some_2 r k ltac:(lia)) as [x Hx].
    exists x. split; [assumption|]. split.
    + intros row Hin. apply list_elem_of_singleton in Hin as ->.
      exists x. split; [assumption|].
      destruct (Hsel x x) as [E|E]; rewrite <- E at 1; apply HRl.
    + exists r. split; [constructor|assumption].
  - destruct (IH (zip_with op r row)) as [Hlen Hspec].
    { rewrite length_zip_with. lia. }
    split; [assumption|]. intros k Hk.
    destruct (Hspec k Hk) as (m & Hm & Hall & (w & Hw & Hwk)).
    destruct (lookup_lt_is_Some_2 r k ltac:(lia)) as [x Hx].
    destruct (lookup_lt_is_Some_2 row k ltac:(lia)) as [y Hy].
    assert (zip_with op r row !! k = Some (op x y)) as Hz
      by now apply zip_with_lookup_Some.
    destruct (Hall (zip_with op r row) ltac:(constructor)) as (z & Hz' & Hmz).
    rewrite Hz in Hz'. injection Hz' as <-.
    exists m. split; [assumption|]. split.
    + intros row' Hin. apply elem_of_cons in Hin as [->|Hin].
      * exists x. split; [assumption|]. eapply HRtrans; [exact Hmz|apply HRl].
      * apply elem_of_cons in Hin as [->|Hin].
        -- exists y. split; [assumption|]. eapply HRtrans; [exact Hmz|apply HRr].
        -- apply Hall. now constructor.
    + apply elem_of_cons in Hw as [->|Hw].
      * rewrite Hz in Hwk. injection Hwk as <-.
        destruct (Hsel x y) as [E|E]; rewrite E.
        -- exists r. split; [constructor|assumption].
        -- exists row. split; [do 2 constructor|assumption].
      * exists w. split; [|assumption]. do 2 constructor. assumption.
Qed.

End AxisFold.

Lemma mov_voxels_elem (mov_spacing : list Q) (mov_shape : list Z)
    (mov_block_coords : list (list Q)) (row : list Z) :
  row ∈ DistributedTransform.mov_voxels mov_spacing mov_shape mov_block_coords
  <-> exists m, m ∈ mov_block_coords
        /\ row = Np.minimum mov_shape
                   (Np.maximum0 (Np.round <$> Np.qdiv m mov_spacing)).
Proof.
  unfold DistributedTransform.mov_voxels.
  rewrite <- !list_fmap_compose, list_elem_of_fmap. simpl.
  split; intros (m & H1 & H2); exists m; tauto.
Qed.

Lemma mov_voxels_row (mov_spacing : list Q) (mov_shape : list Z)
    (mov_block_coords : list (list Q)) (row : list Z) :
  length mov_spacing = length mov_shape ->
  Forall (fun n => 0 <= n) mov_shape ->
  Forall (fun m => length m = length mov_shape) mov_block_coords ->
  row ∈ DistributedTransform.mov_voxels mov_spacing mov_shape mov_block_coords ->
  length row = length mov_shape
  /\ forall k x n, row !! k = Some x -> mov_shape !! k = Some n -> 0 <= x <= n.
Proof.
  intros Hsp Hshape Hrows Hin.
  apply mov_voxels_elem in Hin as (m & Hm & ->).
  pose proof (proj1 (Forall_forall _ _) Hrows _ Hm) as Hlen. simpl in Hlen.
  unfold Np.minimum, Np.maximum0, Np.qdiv. split.
  - rewrite length_zip_with, !length_fmap, length_zip_with. lia.
  - intros k x n Hx Hn.
    apply lookup_zip_with_Some in Hx as (n' & y & -> & Hn' & Hy).
    rewrite Hn in Hn'. injection Hn' as <-.
    apply list_lookup_fmap_Some_1 in Hy as (z & -> & _).
    pose proof (proj1 (Forall_lookup _ _) Hshape _ _ Hn). simpl in *. lia.
Qed.

(** C5 as worded does not hold: the corners that are mapped are those of
    the extended slice the block function receives, not of the canonical
    extent. For shape 256, block size 128 and overlap 64, the low corner of
    block (1,1,1) is voxel (64,64,64), where the canonical extent starts at
    (128,128,128). *)
Lemma corners_not_of_canonical_extent :
  DistributedTransform.block_corners
    (BlockPlanner.block_coords [256; 256; 256] [128; 128; 128]
       [64; 64; 64] [1; 1; 1]) !! 0%nat
  = Some [64; 64; 64]
  /\ DistributedTransform.block_corners
       (BlockPlanner.canonical_coords [256; 256; 256] [128; 128; 128]
          [1; 1; 1]) !! 0%nat
     = Some [128; 128; 128]
  /\ DistributedTransform.block_corners
       (BlockPlanner.block_coords [256; 256; 256] [128; 128; 128]
          [64; 64; 64] [1; 1; 1])
     <> DistributedTransform.block_corners
          (BlockPlanner.canonical_coords [256; 256; 256] [128; 128; 128]
             [1; 1; 1]).
Proof. repeat split; vm_compute; congruence. Qed.

(** C5 (amended). The moving-volume region of a block is found from the
    eight corners (first and last voxel index per axis) of the slice tuple
    the block function receives, which is the extended slice: the corners
    are scaled by the fixed spacing, mapped by the external coordinate
    routine, divided by the moving spacing, rounded, clipped to
    [[0, mov.shape]], and the region read is, per axis, from the minimum to
    the maximum of the clipped corner indices. *)
Theorem moving_region_bounding_box
    (apply_transform_to_coordinates :
       list (list Q) -> list (ndarray Q) -> per_transform -> per_transform ->
       list (list Q))
    (fix_spacing mov_spacing : list Q) (mov_shape : list Z)
    (block_coords : list slice) (applied : list (ndarray Q))
    (transform_spacing_list transform_origin : list (list Q)) :
  let corners := DistributedTransform.block_corners block_coords in
  let fix_block_coords :=
    DistributedTransform.fix_block_coords fix_spacing block_coords in
  let mov_block_coords :=
    apply_transform_to_coordinates fix_block_coords applied
      (Each transform_spacing_list) (Each transform_origin) in
  let voxels :=
    DistributedTransform.mov_voxels mov_spacing mov_shape mov_block_coords in
  length block_coords = 3%nat ->
  length mov_spacing = length mov_shape ->
  Forall (fun n => 0 <= n) mov_shape ->
  length mov_block_coords = length fix_block_coords ->
  Forall (fun row => length row = length mov_shape) mov_block_coords ->
  (length corners = 8%nat
   /\ forall c, c ∈ corners
        <-> Forall2 (fun x s => x = start s \/ x = stop s - 1) c block_coords)
  /\ fix_block_coords
     = (fun c => Np.qmul (Np.of_ints c) fix_spacing) <$> corners
  /\ (forall row, row ∈ voxels
        <-> exists m, m ∈ mov_block_coords
              /\ row = Np.minimum mov_shape
                         (Np.maximum0 (Np.round <$> Np.qdiv m mov_spacing)))
  /\ exists mov_slices,
       DistributedTransform.mov_slices mov_spacing mov_shape mov_block_coords
       = Ok mov_slices
       /\ length mov_slices = length mov_shape
       /\ forall k lo hi n,
            mov_slices !! k = Some (Slice lo hi) -> mov_shape !! k = Some n ->
            0 <= lo /\ lo <= hi /\ hi <= n
            /\ (forall row, row ∈ voxels ->
                  exists x, row !! k = Some x /\ lo <= x <= hi)
            /\ (exists row, row ∈ voxels /\ row !! k = Some lo)
            /\ (exists row, row ∈ voxels /\ row !! k = Some hi).
Proof.
  intros corners fix_block_coords mov_block_coords voxels
    Hbc Hsp Hshape Hcount Hrect.
  split; [split; [|intros c]; now apply block_corners_spec|].
  split; [reflexivity|].
  split; [intros row; apply mov_voxels_elem|].
  assert (length voxels = 8%nat) as Hvox.
  { unfold voxels, DistributedTransform.mov_voxels.
    rewrite !length_fmap, Hcount.
    unfold fix_block_coords, DistributedTransform.fix_block_coords.
    rewrite length_fmap. now apply (block_corners_spec block_coords []). }
  assert (forall row, row ∈ voxels ->
            length row = length mov_shape
            /\ forall k x n, row !! k = Some x -> mov_shape !! k = Some n ->
                 0 <= x <= n) as Hrow
    by (intros row; now apply mov_voxels_row).
  unfold DistributedTransform.mov_slices. fold voxels.
  destruct voxels as [|r rows] eqn:Evox; [discriminate|]. clear Hvox.
  assert (Forall (fun row => length row = length mov_shape) rows) as Hrows.
  { apply Forall_forall. intros row Hin. apply Hrow. now constructor. }
  assert (length r = length mov_shape) as Hr by (apply Hrow; constructor).
  destruct (fold_axis0_spec Z.min Z.le ltac:(lia) ltac:(lia) ltac:(lia)
              ltac:(lia) _ rows r Hr Hrows) as [Hlmin Hmin].
  destruct (fold_axis0_spec Z.max Z.ge ltac:(lia) ltac:(lia) ltac:(lia)
              ltac:(lia) _ rows r Hr Hrows) as [Hlmax Hmax].
  cbn [min_axis0 max_axis0 mbind result_bind].
  eexists. split; [reflexivity|]. split.
  { rewrite length_zip_with. lia. }
  intros k lo hi n Hk Hn.
  apply lookup_zip_with_Some in Hk as (lo' & hi' & Heq & Hlo & Hhi).
  injection Heq as -> ->.
  assert (k < length mov_shape)%nat as Hklt
    by (eapply lookup_lt_Some; eassumption).
  destruct (Hmin k Hklt) as (m1 & Hm1 & Hall1 & (w1 & Hw1 & Hw1k)).
  destruct (Hmax k Hklt) as (m2 & Hm2 & Hall2 & (w2 & Hw2 & Hw2k)).
  rewrite Hlo in Hm1. injection Hm1 as <-.
  rewrite Hhi in Hm2. injection Hm2 as <-.
  pose proof (proj2 (Hrow w1 Hw1) k lo' n Hw1k Hn) as Hb1.
  pose proof (proj2 (Hrow w2 Hw2) k hi' n Hw2k Hn) as Hb2.
  destruct (Hall1 w2 Hw2) as (x & Hx & Hle). rewrite Hw2k in Hx.
  injection Hx as <-.
  split; [lia|]. split; [lia|]. split; [lia|]. split; [|split].
  - intros row Hin. destruct (Hall1 row Hin) as (x & Hx & Hx1).
    destruct (Hall2 row Hin) as (x' & Hx' & Hx2).
    rewrite Hx in Hx'. injection Hx' as <-. exists x. split; [assumption|lia].
  - exists w1. now split.
  - exists w2. now split.
Qed.

Lemma moving_region_bounding_box_witness :
  exists mov_slices,
    DistributedTransform.mov_slices [1; 1; 1]%Q [8; 8; 8]
      (DistributedTransform.fix_block_coords [1; 1; 1]%Q
         [Slice 0 6; Slice 2 8; Slice 4 8])
    = Ok mov_slices
    /\ mov_slices = [Slice 0 5; Slice 2 7; Slice 4 7].
Proof.
  destruct (moving_region_bounding_box (fun c _ _ _ => c)
              [1; 1; 1]%Q [1; 1; 1]%Q [8; 8; 8]
              [Slice 0 6; Slice 2 8; Slice 4 8] [] [] [])
    as (_ & _ & _ & (sl & Hsl & _)).
  - reflexivity.
  - reflexivity.
  - repeat constructor; lia.
  - reflexivity.
  - repeat constructor.
  - exists sl. split; [exact Hsl|].
    vm_compute in Hsl. now injection Hsl as <-.
Defined.

(** ** Result assembly and validation *)

Section Assembly.
Context {V : Type}.
Variable apply_transform_to_coordinates :
  list (list Q) -> list (ndarray Q) -> per_transform -> per_transform ->
  list (list Q).
Variable apply_transform :
  ndarray V -> ndarray V -> list Q -> list Q -> list (ndarray Q) ->
  list (list Q) -> list Q -> list Q -> ndarray V.
Variable as_completed :
  list (result (list slice * ndarray V)) ->
  list (result (list slice * ndarray V)).

(** Without an output array the loop over the completed futures stores
    nothing. *)
Lemma write_blocks_no_sink
    (completed : list (result (list slice * ndarray V))) :
  fst (DistributedTransform.write_blocks None completed) = None.
Proof.
  induction completed as [|[[coords block]|e] rest IH]; simpl; auto.
Qed.

Lemma no_config_error_Ok {A} (a : A) : no_config_error (Ok a).
Proof. discriminate. Qed.

Lemma no_config_error_bind {A B} (m : result A) (f : A -> result B) :
  no_config_error m -> (forall a, no_config_error (f a)) ->
  no_config_error (m ≫= f).
Proof.
  intros Hm Hf. destruct m as [a|e]; simpl; [apply Hf|].
  intros H. apply Hm. now injection H as ->.
Qed.

Lemma no_config_error_index {A} (l : list A) (i : nat) :
  no_config_error (index l i).
Proof. unfold index. destruct (l !! i); discriminate. Qed.

Lemma no_config_error_getitem {A} (a : ndarray A) (sl : list pyslice) :
  no_config_error (getitem a sl).
Proof. unfold getitem. destruct (decide _); discriminate. Qed.

Lemma no_config_error_setitem {A} (a : ndarray A) (sl : list slice) v :
  no_config_error (setitem a sl v).
Proof. unfold setitem. repeat destruct (decide _); discriminate. Qed.

Create HintDb no_config.
#[local] Hint Resolve no_config_error_Ok no_config_error_index
  no_config_error_getitem no_config_error_setitem : no_config.

Ltac no_config :=
  repeat first
    [ apply no_config_error_bind; [|intros ?]
    | progress auto with no_config
    | match goal with
      | |- no_config_error (let '(_, _) := ?p in _) => destruct p
      | |- no_config_error (if ?c then _ else _) => destruct c
      | |- no_config_error (match ?c with _ => _ end) => destruct c
      end ].

Lemma no_config_error_read_transforms fix_spacing fix_origin block_coords
    tsl iii transform_list :
  no_config_error
    (DistributedTransform.read_transforms fix_spacing fix_origin block_coords
       tsl iii transform_list).
Proof.
  revert iii. induction transform_list as [|t rest IH]; intros iii; simpl.
  - discriminate.
  - unfold DistributedTransform.read_transform. no_config; apply IH.
Qed.

Lemma no_config_error_crop_axes {A} block_coords blocksize blockoverlaps
    axes (st : ndarray A * list slice) :
  no_config_error
    (DistributedTransform.crop_axes block_coords blocksize blockoverlaps axes st).
Proof.
  revert st. induction axes as [|axis axes IH]; intros st; simpl.
  - discriminate.
  - apply no_config_error_bind; [|intros ?; apply IH].
    unfold DistributedTransform.crop_axis. no_config; discriminate.
Qed.

Lemma no_config_error_transform_single_block block_coords full_fix full_mov
    fix_spacing mov_spacing blocksize blockoverlaps transform_list tsl :
  no_config_error
    (DistributedTransform._transform_single_block
       apply_transform_to_coordinates apply_transform block_coords full_fix
       full_mov fix_spacing mov_spacing blocksize blockoverlaps
       transform_list tsl).
Proof.
  unfold DistributedTransform._transform_single_block,
    DistributedTransform.mov_slices, DistributedTransform.crop_overlap,
    min_axis0, max_axis0.
  no_config; try apply no_config_error_read_transforms;
    try apply no_config_error_crop_axes; try discriminate.
Qed.

Lemma no_config_error_write_blocks aligned_data
    (completed : list (result (list slice * ndarray V))) :
  Forall no_config_error completed ->
  no_config_error (snd (DistributedTransform.write_blocks aligned_data completed)).
Proof.
  intros Hall. revert aligned_data.
  induction Hall as [|[[coords block]|e] rest Hx Hall IH]; intros sink; simpl.
  - discriminate.
  - destruct sink as [out|]; [|apply IH].
    pose proof (no_config_error_setitem out coords block) as Hset.
    destruct (setitem out coords block); [apply IH|].
    intros H. apply Hset. simpl in H. now injection H as ->.
  - intros H. apply Hx. now injection H as ->.
Qed.

End Assembly.

(** C7 on the code. With [aligned_data=None] the loop of
    [distributed_apply_transform] in [distributed_transform.py] stores no
    block anywhere and the function ends without a [return]: the call never
    gives the resampled array back, whatever the inputs, where its
    docstring and the specification promise the resampled data. *)
Theorem resample_without_sink_returns_nothing {V : Type}
    (apply_transform_to_coordinates :
       list (list Q) -> list (ndarray Q) -> per_transform -> per_transform ->
       list (list Q))
    (apply_transform :
       ndarray V -> ndarray V -> list Q -> list Q -> list (ndarray Q) ->
       list (list Q) -> list Q -> list Q -> ndarray V)
    (as_completed :
       list (result (list slice * ndarray V)) ->
       list (result (list slice * ndarray V)))
    (fix_ mov : ndarray V) (fix_spacing mov_spacing : list Q)
    (blocksize : list Z) (transform_list : list (ndarray Q))
    (overlap_factor : Q) (transform_spacing : per_transform) :
  let r :=
    DistributedTransform.distributed_apply_transform
      apply_transform_to_coordinates apply_transform as_completed
      fix_ mov fix_spacing mov_spacing blocksize transform_list
      overlap_factor None transform_spacing in
  DistributedTransform.sink r = None
  /\ (DistributedTransform.returned r = Ok None
      \/ exists e, DistributedTransform.returned r = Raise e)
  /\ forall resampled, DistributedTransform.returned r <> Ok (Some resampled).
Proof.
  intros r. subst r. unfold DistributedTransform.distributed_apply_transform.
  match goal with
  | |- context [DistributedTransform.write_blocks None ?c] =>
      pose proof (write_blocks_no_sink c) as Hsink;
      destruct (DistributedTransform.write_blocks None c) as [data outcome]
  end.
  simpl in *. subst data. split; [reflexivity|].
  destruct outcome as [[]|e]; simpl.
  - split; [now left|]. discriminate.
  - split; [right; now exists e|]. discriminate.
Qed.

(** An instance of the call without sink that runs through: a 2x2x2
    volume, one block, the identity affine, an identity coordinate routine
    and a kernel that hands back the fixed block. *)
Lemma resample_without_sink_example :
  let fix_ := NdArray [2; 2; 2] (fun idx => idx) in
  let r :=
    DistributedTransform.distributed_apply_transform
      (fun coords _ _ _ => coords)
      (fun fix_block _ _ _ _ _ _ _ => fix_block) (fun futures => futures)
      fix_ fix_ [1; 1; 1]%Q [1; 1; 1]%Q [2; 2; 2]
      [NdArray [4; 4] (fun _ => 0%Q)] (1 # 2) None Unset in
  DistributedTransform.submitted r = [[Slice 0 2; Slice 0 2; Slice 0 2]]
  /\ DistributedTransform.sink r = None
  /\ DistributedTransform.returned r = Ok None.
Proof. repeat split; vm_compute; reflexivity. Qed.

(** C8 as worded does not hold: no structural validation takes place. A
    [transform_spacing] tuple of length 2 with a chain of length 1 is
    accepted, the block is submitted and the call ends normally; a
    transform of shape (3, 3), neither 4x4 nor of rank 4, is submitted too
    and fails inside the block task with [IndexError]. *)
Lemma resample_accepts_malformed_chain :
  let fix_ := NdArray [2; 2; 2] (fun idx => idx) in
  let run tl tsp :=
    DistributedTransform.distributed_apply_transform
      (fun coords _ _ _ => coords)
      (fun fix_block _ _ _ _ _ _ _ => fix_block) (fun futures => futures)
      fix_ fix_ [1; 1; 1]%Q [1; 1; 1]%Q [2; 2; 2] tl (1 # 2) None tsp in
  let affine := NdArray [4; 4] (fun _ => 0%Q) in
  let odd := NdArray [3; 3] (fun _ => 0%Q) in
  let r1 := run [affine] (Each [[1; 1; 1]%Q; [1; 1; 1]%Q]) in
  let r2 := run [odd] Unset in
  (DistributedTransform.submitted r1 = [[Slice 0 2; Slice 0 2; Slice 0 2]]
   /\ DistributedTransform.returned r1 = Ok None)
  /\ (is_affine odd = false /\ ndim odd <> 4%nat
      /\ DistributedTransform.submitted r2
         = [[Slice 0 2; Slice 0 2; Slice 0 2]]
      /\ DistributedTransform.returned r2 = Raise IndexError).
Proof. repeat split; vm_compute; congruence. Qed.

(** C8 (amended). [distributed_apply_transform] performs no structural
    validation: a [transform_spacing] tuple is used as given, every planned
    block is submitted whatever the transforms and spacings are, and no
    path of the call raises a configuration error; a malformed chain
    surfaces, if at all, as an exception of a block task. *)
Theorem resample_submits_without_validation {V : Type}
    (apply_transform_to_coordinates :
       list (list Q) -> list (ndarray Q) -> per_transform -> per_transform ->
       list (list Q))
    (apply_transform :
       ndarray V -> ndarray V -> list Q -> list Q -> list (ndarray Q) ->
       list (list Q) -> list Q -> list Q -> ndarray V)
    (as_completed :
       list (result (list slice * ndarray V)) ->
       list (result (list slice * ndarray V)))
    (fix_ mov : ndarray V) (fix_spacing mov_spacing : list Q)
    (blocksize : list Z) (transform_list : list (ndarray Q))
    (overlap_factor : Q) (aligned_data : option (ndarray V))
    (transform_spacing : per_transform) :
  (forall futures x, x ∈ as_completed futures -> x ∈ futures) ->
  let r :=
    DistributedTransform.distributed_apply_transform
      apply_transform_to_coordinates apply_transform as_completed
      fix_ mov fix_spacing mov_spacing blocksize transform_list
      overlap_factor aligned_data transform_spacing in
  DistributedTransform.submitted r
  = BlockPlanner.blocks_coords (arr_shape fix_) blocksize overlap_factor
  /\ DistributedTransform.returned r <> Raise ConfigurationError
  /\ forall l, transform_spacing = Each l ->
       DistributedTransform.transform_spacing_list fix_spacing transform_list
         transform_spacing = l.
Proof.
  intros Hcompleted r. subst r.
  unfold DistributedTransform.distributed_apply_transform.
  match goal with
  | |- context [DistributedTransform.write_blocks aligned_data ?c] =>
      pose proof (no_config_error_write_blocks aligned_data c) as Hwrite;
      destruct (DistributedTransform.write_blocks aligned_data c)
        as [data outcome]
  end.
  simpl in *. split; [reflexivity|]. split.
  - assert (no_config_error outcome) as Hout.
    { apply Hwrite. apply Forall_forall. intros x Hx.
      apply Hcompleted, list_elem_of_fmap in Hx as (b & -> & _).
      apply no_config_error_transform_single_block. }
    destruct outcome as [[]|e]; simpl; [discriminate|].
    intros H. apply Hout. now injection H as ->.
  - now intros l ->.
Qed.

Lemma resample_submits_without_validation_witness :
  DistributedTransform.submitted
    (DistributedTransform.distributed_apply_transform
       (fun coords _ _ _ => coords)
       (fun fix_block _ _ _ _ _ _ _ => fix_block) (fun futures => futures)
       (NdArray [2; 2; 2] (fun idx => idx)) (NdArray [2; 2; 2] (fun idx => idx))
       [1; 1; 1]%Q [1; 1; 1]%Q [2; 2; 2] [NdArray [3; 3] (fun _ => 0%Q)]
       (1 # 2) None (Each []))
  = BlockPlanner.blocks_coords [2; 2; 2] [2; 2; 2] (1 # 2).
Proof.
  apply (resample_submits_without_validation
           (fun coords _ _ _ => coords)
           (fun fix_block _ _ _ _ _ _ _ => fix_block) (fun futures => futures)
           (NdArray [2; 2; 2] (fun idx => idx))
           (NdArray [2; 2; 2] (fun idx => idx))
           [1; 1; 1]%Q [1; 1; 1]%Q [2; 2; 2] [NdArray [3; 3] (fun _ => 0%Q)]
           (1 # 2) None (Each [])).
  intros futures x Hx. exact Hx.
Defined.

(** ** The per-bucket coordinate transform *)

Section TransformCoords.
Variable apply_transform_to_coordinates :
  list (list Q) -> list (ndarray Q) -> per_transform -> per_transform ->
  list (list Q).
Variable uninitialised : Q.

Lemma length_empty_like_row (row : list Q) :
  length ((fun _ : Q => uninitialised) <$> row) = length row.
Proof. apply length_fmap. Qed.

(** The two column assignments into the uninitialised copy leave, in each
    row, the warped coordinates followed by the payload of the input. *)
Lemma assign_columns (civ warped_coords : list (list Q)) :
  Forall2 (fun w row => length w = length (take 3 row)) warped_coords civ ->
  exists w1,
    set_columns 0 (Some 3%nat) (DistributedTransform.empty_like uninitialised civ)
      warped_coords = Ok w1
    /\ set_columns 3 None w1 (drop 3 <$> civ)
       = Ok (zip_with (fun w row => w ++ drop 3 row) warped_coords civ).
Proof.
  intros Hrows. unfold set_columns, DistributedTransform.empty_like.
  rewrite decide_True.
  2:{ induction Hrows as [|w row ws rows Hw _ IH]; simpl; constructor; auto.
      rewrite drop_0, length_take, length_fmap.
      rewrite length_take in Hw. exact Hw. }
  eexists. split; [reflexivity|].
  rewrite decide_True.
  2:{ induction Hrows as [|w row ws rows Hw _ IH]; simpl; constructor; auto.
      rewrite length_take in Hw.
      rewrite firstn_all, !length_drop, !length_app, length_drop, length_fmap.
      lia. }
  f_equal. induction Hrows as [|w row ws rows Hw _ IH]; simpl; [reflexivity|].
  f_equal; [|exact IH].
  rewrite length_take in Hw.
  rewrite (drop_ge (w ++ _)) by (rewrite length_app, length_drop, length_fmap; lia).
  rewrite app_nil_r.
  destruct (Nat.le_gt_cases 3 (length row)) as [Hge|Hlt].
  - replace 3%nat with (length w) at 1 by lia.
    now rewrite take_app_length.
  - rewrite (drop_ge row) by lia.
    rewrite (drop_ge (_ <$> row)) by (rewrite length_fmap; lia).
    rewrite !app_nil_r. apply take_ge. lia.
Qed.

Lemma crop_transform_ok (block_slice_coords : list slice) (t : ndarray Q) :
  length block_slice_coords = 3%nat ->
  is_affine t = true \/ ndim t = 4%nat ->
  exists c, DistributedTransform.crop_transform block_slice_coords t = Ok c.
Proof.
  intros Hlen Ht. unfold DistributedTransform.crop_transform.
  destruct (is_affine t) eqn:Haff; simpl; [eauto|].
  destruct Ht as [|Hdim]; [discriminate|].
  destruct t as [sh item]. unfold ndim in *. simpl in *.
  destruct sh as [|n1 [|n2 [|n3 [|n4 [|? ?]]]]]; try discriminate.
  destruct block_slice_coords as [|s1 [|s2 [|s3 [|? ?]]]]; try discriminate.
  unfold DistributedTransform.crop_slice. simpl.
  destruct (stop s1 <? n1), (stop s2 <? n2), (stop s3 <? n3); simpl; eauto.
Qed.

Lemma crop_transforms_ok (block_slice_coords : list slice)
    (transform_list : list (ndarray Q)) :
  length block_slice_coords = 3%nat ->
  Forall (fun t => is_affine t = true \/ ndim t = 4%nat) transform_list ->
  exists cropped,
    mapM (DistributedTransform.crop_transform block_slice_coords) transform_list
    = Ok cropped.
Proof.
  intros Hlen Hall. induction Hall as [|t rest Ht _ [cropped IH]]; simpl.
  - eexists. reflexivity.
  - destruct (crop_transform_ok block_slice_coords t Hlen Ht) as [c ->].
    cbn [mbind result_bind]. rewrite IH. eexists. reflexivity.
Qed.

End TransformCoords.

(** What [_transform_coords] returns for a non-empty bucket: the rows of
    the warped coordinates, each followed by the input columns after the
    third. *)
Lemma transform_coords_runs
    (apply_transform_to_coordinates :
       list (list Q) -> list (ndarray Q) -> per_transform -> per_transform ->
       list (list Q))
    (uninitialised : Q) (block_index : list Z)
    (block_slice_coords : list slice) (block_origin : list Q)
    (coord_indexed_values : list (list Q)) (coords_spacing : list Q)
    (transform_list : list (ndarray Q)) :
  (forall points transforms spacing origin,
     Forall2 (fun w p => length w = length p)
       (apply_transform_to_coordinates points transforms spacing origin)
       points) ->
  coord_indexed_values <> [] ->
  length block_slice_coords = 3%nat ->
  Forall (fun t => is_affine t = true \/ ndim t = 4%nat) transform_list ->
  exists cropped,
    let warped_coords :=
      apply_transform_to_coordinates (take 3 <$> coord_indexed_values)
        cropped (Shared coords_spacing) (Shared block_origin) in
    mapM (DistributedTransform.crop_transform block_slice_coords) transform_list
    = Ok cropped
    /\ Forall2 (fun w row => length w = length (take 3 row))
         warped_coords coord_indexed_values
    /\ DistributedTransform._transform_coords apply_transform_to_coordinates
         uninitialised block_index block_slice_coords block_origin
         coord_indexed_values coords_spacing transform_list
       = Ok (zip_with (fun w row => w ++ drop 3 row)
               warped_coords coord_indexed_values).
Proof.
  intros Hcontract Hne Hlen Htl.
  destruct (crop_transforms_ok block_slice_coords transform_list Hlen Htl)
    as [cropped Hcrop].
  exists cropped. cbv zeta.
  set (wc := apply_transform_to_coordinates (take 3 <$> coord_indexed_values)
               cropped (Shared coords_spacing) (Shared block_origin)).
  assert (Forall2 (fun w row => length w = length (take 3 row))
            wc coord_indexed_values) as Hrows.
  { specialize (Hcontract (take 3 <$> coord_indexed_values) cropped
                  (Shared coords_spacing) (Shared block_origin)).
    now apply Forall2_fmap_r in Hcontract. }
  destruct (assign_columns uninitialised coord_indexed_values wc Hrows)
    as (w1 & Hw1 & Hw2).
  split; [assumption|]. split; [assumption|].
  unfold DistributedTransform._transform_coords.
  rewrite Hcrop. cbn [mbind result_bind]. fold wc.
  rewrite Hw1. cbn [mbind result_bind]. rewrite Hw2.
  cbn [mbind result_bind].
  destruct coord_indexed_values as [|row rows]; [contradiction|].
  inversion Hrows; subst. reflexivity.
Qed.

(** C10. When the external coordinate routine returns as many rows and
    columns as it is given, [_transform_coords] applied to a non-empty
    bucket returns one row per input row, and row [j] of the result
    consists of row [j] of the warped coordinates followed by exactly the
    payload columns (those after the first three) of input row [j]. *)
Theorem transform_coords_keeps_payload
    (apply_transform_to_coordinates :
       list (list Q) -> list (ndarray Q) -> per_transform -> per_transform ->
       list (list Q))
    (uninitialised : Q) (block_index : list Z)
    (block_slice_coords : list slice) (block_origin : list Q)
    (coord_indexed_values : list (list Q)) (coords_spacing : list Q)
    (transform_list : list (ndarray Q)) :
  (forall points transforms spacing origin,
     Forall2 (fun w p => length w = length p)
       (apply_transform_to_coordinates points transforms spacing origin)
       points) ->
  coord_indexed_values <> [] ->
  length block_slice_coords = 3%nat ->
  Forall (fun t => is_affine t = true \/ ndim t = 4%nat) transform_list ->
  exists warped cropped,
    mapM (DistributedTransform.crop_transform block_slice_coords) transform_list
    = Ok cropped
    /\ DistributedTransform._transform_coords apply_transform_to_coordinates
         uninitialised block_index block_slice_coords block_origin
         coord_indexed_values coords_spacing transform_list = Ok warped
    /\ length warped = length coord_indexed_values
    /\ forall j row, coord_indexed_values !! j = Some row ->
         exists wrow wcoords,
           warped !! j = Some wrow
           /\ apply_transform_to_coordinates (take 3 <$> coord_indexed_values)
                cropped (Shared coords_spacing) (Shared block_origin) !! j
              = Some wcoords
           /\ wrow = wcoords ++ drop 3 row
           /\ drop 3 wrow = drop 3 row.
Proof.
  intros Hcontract Hne Hlen Htl.
  destruct (transform_coords_runs apply_transform_to_coordinates uninitialised
              block_index block_slice_coords block_origin coord_indexed_values
              coords_spacing transform_list Hcontract Hne Hlen Htl)
    as (cropped & Hcrop & Hrows & Hrun).
  eexists _, cropped. split; [exact Hcrop|]. split; [exact Hrun|]. split.
  - rewrite length_zip_with. apply Forall2_length in Hrows. lia.
  - intros j row Hj.
    destruct (Forall2_lookup_r _ _ _ _ _ Hrows Hj) as (w & Hw & Hwl).
    exists (w ++ drop 3 row), w.
    split; [now apply (zip_with_lookup_Some (fun w row => w ++ drop 3 row))|].
    split; [assumption|]. split; [reflexivity|].
    rewrite length_take in Hwl.
    destruct (Nat.le_gt_cases 3 (length row)) as [Hge|Hlt].
    + replace 3%nat with (length w) at 1 by lia. apply drop_app_length.
    + rewrite (drop_ge row) by lia. rewrite app_nil_r. apply drop_ge. lia.
Qed.

Lemma transform_coords_keeps_payload_witness :
  exists warped,
    DistributedTransform._transform_coords
      translate_one 0%Q
      [0; 0; 0] [Slice 0 4; Slice 0 4; Slice 0 4] [0; 0; 0]%Q
      [[1; 2; 3; 7; 8]%Q; [3; 2; 1; 9; 10]%Q] [1; 1; 1]%Q
      [NdArray [4; 4] (fun _ => 0%Q); NdArray [8; 8; 8; 3] (fun _ => 0%Q)]
    = Ok warped
    /\ drop 3 <$> warped = [[7; 8]%Q; [9; 10]%Q].
Proof.
  destruct (transform_coords_keeps_payload
              translate_one 0%Q
              [0; 0; 0] [Slice 0 4; Slice 0 4; Slice 0 4] [0; 0; 0]%Q
              [[1; 2; 3; 7; 8]%Q; [3; 2; 1; 9; 10]%Q] [1; 1; 1]%Q
              [NdArray [4; 4] (fun _ => 0%Q); NdArray [8; 8; 8; 3] (fun _ => 0%Q)])
    as (warped & cropped & _ & Hrun & Hlen & Hrows).
  - intros points ? ? ?. unfold translate_one.
    induction points as [|p points IH]; simpl;
      constructor; [now rewrite length_fmap|exact IH].
  - discriminate.
  - reflexivity.
  - constructor; [left; reflexivity|].
    constructor; [right; reflexivity|]. constructor.
  - exists warped. split; [exact Hrun|].
    destruct (Hrows 0%nat _ eq_refl) as (r0 & c0 & H0 & _ & _ & Hd0).
    destruct (Hrows 1%nat _ eq_refl) as (r1 & c1 & H1 & _ & _ & Hd1).
    destruct warped as [|x0 [|x1 [|? ?]]]; try discriminate.
    simpl in H0, H1. injection H0 as <-. injection H1 as <-.
    simpl. now rewrite Hd0, Hd1.
Defined.

(** ** Bounding boxes of point sets *)

Lemma Qmin_sel (x y : Q) : Qmin x y = x \/ Qmin x y = y.
Proof.
  unfold Qmin, GenericMinMax.gmin. destruct (x ?= y)%Q; auto.
Qed.

Lemma Qmax_sel (x y : Q) : Qmax x y = x \/ Qmax x y = y.
Proof.
  unfold Qmax, GenericMinMax.gmax. destruct (x ?= y)%Q; auto.
Qed.

(** [np.min] and [np.max] along axis 0 give the tight bounding box of a
    non-empty rectangular point array. *)
Lemma bounding_box (coordinates : list (list Q)) (d : nat) :
  coordinates <> [] -> Forall (fun row => length row = d) coordinates ->
  exists a b,
    qmin_axis0 coordinates = Ok a /\ qmax_axis0 coordinates = Ok b
    /\ length a = d /\ length b = d
    /\ forall k, (k < d)%nat ->
         exists ak bk,
           a !! k = Some ak /\ b !! k = Some bk
           /\ (forall p, p ∈ coordinates ->
                 exists x, p !! k = Some x /\ (ak <= x <= bk)%Q)
           /\ (exists p, p ∈ coordinates /\ p !! k = Some ak)
           /\ (exists p, p ∈ coordinates /\ p !! k = Some bk).
Proof.
  intros Hne Hrect. destruct coordinates as [|r rows]; [contradiction|].
  inversion Hrect as [|? ? Hr Hrows]; subst.
  destruct (fold_axis0_spec Qmin Qle Qmin_sel Q.le_min_l Q.le_min_r
              Qle_trans _ rows r eq_refl Hrows) as [Hla Hmin].
  destruct (fold_axis0_spec Qmax (fun x y => (y <= x)%Q) Qmax_sel
              Q.le_max_l Q.le_max_r
              (fun x y z H1 H2 => Qle_trans _ _ _ H2 H1)
              _ rows r eq_refl Hrows) as [Hlb Hmax].
  eexists _, _. split; [reflexivity|]. split; [reflexivity|].
  split; [assumption|]. split; [assumption|].
  intros k Hk.
  destruct (Hmin k Hk) as (ak & Hak & Hall1 & Hatt1).
  destruct (Hmax k Hk) as (bk & Hbk & Hall2 & Hatt2).
  exists ak, bk. split; [assumption|]. split; [assumption|].
  split; [|split; assumption].
  intros p Hp. destruct (Hall1 p Hp) as (x & Hx & Hx1).
  destruct (Hall2 p Hp) as (x' & Hx' & Hx2).
  rewrite Hx in Hx'. injection Hx' as <-. exists x. now repeat split.
Qed.

Lemma Qdiv_le_compat (x y s : Q) : (0 < s)%Q -> (x <= y)%Q -> (x / s <= y / s)%Q.
Proof.
  intros Hs Hxy. unfold Qdiv. apply Qmult_le_compat_r; [assumption|].
  apply Qinv_le_0_compat. now apply Qlt_le_weak.
Qed.

(** The crop of [transform_partition] on one axis: it starts at or before
    the voxel of the smallest coordinate of the partition and stops after
    the voxel of the largest, so that it covers every point. *)
Lemma partition_crop_axis (a b spacing : list Q) (transform : ndarray Q)
    (k : nat) (s : slice) (ak bk : Q) :
  Forall (fun x => (0 < x)%Q) spacing ->
  a !! k = Some ak -> b !! k = Some bk ->
  PiecewiseTransform.crop_slices a b spacing transform !! k = Some s ->
  exists spk n,
    spacing !! k = Some spk
    /\ removelast (arr_shape transform) !! k = Some n
    /\ start s = Z.min (n - 1) (Np.floor (ak / spk))
    /\ stop s = Np.ceil (bk / spk) + 1
    /\ forall x, (ak <= x <= bk)%Q ->
         (inject_Z (Np.floor (ak / spk)) <= x / spk)%Q
         /\ (x / spk < inject_Z (stop s))%Q.
Proof.
  intros Hsp Ha Hb Hs. unfold PiecewiseTransform.crop_slices in Hs.
  apply lookup_zip_with_Some in Hs as (st & sp & -> & Hst & Hstop).
  unfold Np.minimum, Np.qdiv in *.
  apply lookup_zip_with_Some in Hst as (li & fl & -> & Hli & Hfl).
  apply list_lookup_fmap_Some_1 in Hli as (n & -> & Hn).
  apply list_lookup_fmap_Some_1 in Hfl as (q & -> & Hq).
  apply lookup_zip_with_Some in Hq as (ak' & spk & -> & Hak' & Hspk).
  apply list_lookup_fmap_Some_1 in Hstop as (q' & -> & Hq').
  apply lookup_zip_with_Some in Hq' as (bk' & spk' & -> & Hbk' & Hspk').
  rewrite Ha in Hak'. injection Hak' as <-.
  rewrite Hb in Hbk'. injection Hbk' as <-.
  rewrite Hspk in Hspk'. injection Hspk' as <-.
  pose proof (proj1 (Forall_lookup _ _) Hsp _ _ Hspk) as Hpos.
  cbv beta in Hpos.
  exists spk, n. cbn [start stop].
  split; [assumption|]. split; [assumption|].
  split; [reflexivity|]. split; [reflexivity|].
  intros x [Hax Hxb]. split.
  - apply Qle_trans with (ak / spk)%Q; [apply Qfloor_le|].
    now apply Qdiv_le_compat.
  - apply Qle_lt_trans with (bk / spk)%Q; [now apply Qdiv_le_compat|].
    apply Qle_lt_trans with (inject_Z (Np.ceil (bk / spk))); [apply Qle_ceiling|].
    rewrite <- Zlt_Qlt. lia.
Qed.

(** The crop of [_transform_coords] on a displacement field of three
    spatial axes starts, on every axis, at the start of the grid-cell
    slice. *)
Lemma grid_crop_slices (block_slice_coords : list slice) (t : ndarray Q) :
  length block_slice_coords = 3%nat -> ndim t = 4%nat ->
  exists crop,
    mapM (DistributedTransform.crop_slice block_slice_coords t)
         (seq 0 (ndim t - 1)) = Ok crop
    /\ start <$> crop = start <$> block_slice_coords.
Proof.
  intros Hlen Hdim. destruct t as [sh item]. unfold ndim in *. simpl in *.
  destruct sh as [|n1 [|n2 [|n3 [|n4 [|? ?]]]]]; try discriminate.
  destruct block_slice_coords as [|s1 [|s2 [|s3 [|? ?]]]]; try discriminate.
  unfold DistributedTransform.crop_slice. simpl.
  destruct (stop s1 <? n1), (stop s2 <? n2), (stop s3 <? n3); simpl;
    eexists; split; reflexivity.
Qed.

(** C9 as worded does not hold for [_transform_coords]: the bucket of grid
    cell (0,0,0) holds the single point (1,1,1), whose bounding box covers
    voxel 1 only, yet the field of shape (8,8,8,3) is cropped from the
    start of the grid-cell slice [0:4] on, here to [0:8] on every axis;
    the crop by bounding box, as [transform_partition] computes it, is
    [1:2]. *)
Lemma grid_bucket_crop_ignores_bounding_box :
  let field := NdArray [8; 8; 8; 3] (fun _ => 0%Q) in
  DistributedTransform.block_points [[1; 1; 1]%Q] [4; 4; 4]
    [4; 4; 4]%Q [1; 1; 1]%Q [0; 0; 0]
  = [([0; 0; 0], [Slice 0 4; Slice 0 4; Slice 0 4], [1; 1; 1]%Q,
      [[1; 1; 1]%Q])]
  /\ mapM (DistributedTransform.crop_slice
             [Slice 0 4; Slice 0 4; Slice 0 4] field) (seq 0 3)
     = Ok [Slice 0 8; Slice 0 8; Slice 0 8]
  /\ PiecewiseTransform.crop_slices [1; 1; 1]%Q [1; 1; 1]%Q [1; 1; 1]%Q field
     = [Slice 1 2; Slice 1 2; Slice 1 2].
Proof. repeat split; vm_compute; reflexivity. Qed.

(** C9 (amended). In [piecewise_transform.py] every partition has its
    tight bounding box, the per-axis minimum [a] and maximum [b] of its
    points, and each displacement field is cropped to
    [[min(last_index, floor(a / spacing)), ceil(b / spacing) + 1)], a voxel
    range that covers every point of the partition. In
    [distributed_transform.py] the crop of a bucket is taken from the
    grid-cell slice of its block index,
    [[voxel_blocksize*index, voxel_blocksize*index + voxel_blocksize)],
    and starts at its start, whatever the points of the bucket are. *)
Theorem bucket_crop_regions :
  (forall (apply_transform_to_coordinates :
             list (list Q) -> list (ndarray Q) -> per_transform ->
             per_transform -> list (list Q))
          (coordinates : list (list Q)) (transform_list : list (ndarray Q))
          (transform_spacing : per_transform) (d : nat),
     coordinates <> [] ->
     Forall (fun row => length row = d) coordinates ->
     exists a b,
       qmin_axis0 coordinates = Ok a /\ qmax_axis0 coordinates = Ok b
       /\ (forall k, (k < d)%nat ->
             exists ak bk,
               a !! k = Some ak /\ b !! k = Some bk
               /\ (forall p, p ∈ coordinates ->
                     exists x, p !! k = Some x /\ (ak <= x <= bk)%Q)
               /\ (exists p, p ∈ coordinates /\ p !! k = Some ak)
               /\ (exists p, p ∈ coordinates /\ p !! k = Some bk))
       /\ PiecewiseTransform.transform_partition
            apply_transform_to_coordinates coordinates transform_list
            transform_spacing
          = (new_list ← PiecewiseTransform.crop_transforms a b
                          transform_spacing 0 transform_list;
             Ok (apply_transform_to_coordinates coordinates new_list
                   transform_spacing (Shared a)))
       /\ forall iii t spacing,
            PiecewiseTransform.is_matrix t = false ->
            (transform_spacing = Shared spacing
             \/ exists l, transform_spacing = Each l /\ l !! iii = Some spacing) ->
            Forall (fun x => (0 < x)%Q) spacing ->
            PiecewiseTransform.crop_transform a b transform_spacing iii t
            = getitem t (slice_of <$>
                           PiecewiseTransform.crop_slices a b spacing t)
            /\ forall k s p x,
                 PiecewiseTransform.crop_slices a b spacing t !! k = Some s ->
                 p ∈ coordinates -> p !! k = Some x ->
                 exists spk ak bk n,
                   spacing !! k = Some spk
                   /\ a !! k = Some ak /\ b !! k = Some bk
                   /\ removelast (arr_shape t) !! k = Some n
                   /\ start s = Z.min (n - 1) (Np.floor (ak / spk))
                   /\ stop s = Np.ceil (bk / spk) + 1
                   /\ (inject_Z (Np.floor (ak / spk)) <= x / spk)%Q
                   /\ (x / spk < inject_Z (stop s))%Q)
  /\ (forall (coordinates : list (list Q)) (voxel_blocksize : list Z)
             (phys_blocksize min_coord : list Q) (block_index : list Z)
             (bucket : list Z * list slice * list Q * list (list Q)),
        bucket ∈ DistributedTransform.block_points coordinates
                   voxel_blocksize phys_blocksize min_coord block_index ->
        let block_slice_coords := bucket.1.1.2 in
        let block_start := Np.mul voxel_blocksize block_index in
        block_slice_coords
        = zip_with Slice block_start (Np.add block_start voxel_blocksize)
        /\ forall t : ndarray Q,
             length block_slice_coords = 3%nat -> ndim t = 4%nat ->
             exists crop,
               mapM (DistributedTransform.crop_slice block_slice_coords t)
                    (seq 0 (ndim t - 1)) = Ok crop
               /\ start <$> crop = start <$> block_slice_coords).
Proof.
  split.
  - intros ext coordinates transform_list transform_spacing d Hne Hrect.
    destruct (bounding_box coordinates d Hne Hrect)
      as (a & b & Ha & Hb & Hla & Hlb & Hbox).
    exists a, b. split; [assumption|]. split; [assumption|].
    split; [assumption|]. split.
    { unfold PiecewiseTransform.transform_partition. now rewrite Ha, Hb. }
    intros iii t spacing Hmat Hsp Hpos. split.
    + unfold PiecewiseTransform.crop_transform. rewrite Hmat. simpl.
      destruct Hsp as [->|(l & -> & Hl)]; [reflexivity|].
      now rewrite (index_Some _ _ _ Hl).
    + intros k s p x Hs Hp Hx.
      assert (k < d)%nat as Hk.
      { rewrite <- (proj1 (Forall_forall _ _) Hrect p Hp).
        eapply lookup_lt_Some; eassumption. }
      destruct (Hbox k Hk) as (ak & bk & Hak & Hbk & Hall & _).
      destruct (Hall p Hp) as (x' & Hx' & Hbounds).
      rewrite Hx in Hx'. injection Hx' as <-.
      destruct (partition_crop_axis a b spacing t k s ak bk Hpos Hak Hbk Hs)
        as (spk & n & Hspk & Hn & Hst & Hstop & Hcover).
      destruct (Hcover x Hbounds) as [Hlo Hhi].
      exists spk, ak, bk, n. now repeat (split; [assumption|]).
  - intros coordinates vb phys min_coord idx bucket Hin.
    unfold DistributedTransform.block_points in Hin.
    destruct (decide _) in Hin; [|inversion Hin].
    apply list_elem_of_singleton in Hin as ->. cbn [fst snd].
    split; [reflexivity|]. intros t Hlen Hdim.
    now apply grid_crop_slices.
Qed.

Lemma bucket_crop_regions_witness :
  exists a b,
    qmin_axis0 [[1; 5; 2]%Q; [3; 4; 6]%Q] = Ok a
    /\ qmax_axis0 [[1; 5; 2]%Q; [3; 4; 6]%Q] = Ok b
    /\ a = [1; 4; 2]%Q /\ b = [3; 5; 6]%Q.
Proof.
  destruct (proj1 bucket_crop_regions identity_routine
              [[1; 5; 2]%Q; [3; 4; 6]%Q] [] Unset 3%nat)
    as (a & b & Ha & Hb & _).
  - discriminate.
  - repeat constructor.
  - exists a, b. split; [exact Ha|]. split; [exact Hb|].
    vm_compute in Ha, Hb. injection Ha as <-. injection Hb as <-.
    split; reflexivity.
Defined.

(** ** Grid cells of a point set *)

Lemma Qltb_lt (x y : Q) : Qltb x y = true <-> (x < y)%Q.
Proof.
  unfold Qltb. rewrite negb_true_iff. split.
  - intros H. apply Qnot_le_lt. intros Hle.
    apply Qle_bool_iff in Hle. congruence.
  - intros H. destruct (Qle_bool y x) eqn:E; [|reflexivity].
    apply Qle_bool_iff in E. exfalso. now apply (Qlt_not_le x y).
Qed.

(** A coordinate [x] with [m <= x < m + p*n] lies in exactly one of the
    [n] half-open intervals [[m + p*i, m + p*i + p)]. *)
Lemma count_cell_axis (n : Z) (m p x : Q) :
  (0 < p)%Q -> (m <= x)%Q -> (x < m + p * inject_Z n)%Q ->
  count (fun i => Qle_bool (m + p * inject_Z i) x
                  && Qltb x (m + p * inject_Z i + p))
        (Np.range n) = 1%nat.
Proof.
  intros Hp Hm Hn.
  remember ((x - m) / p)%Q as q eqn:Eq.
  assert (p * q == x - m)%Q as Hq.
  { rewrite Eq. apply Qmult_div_r. intros H. rewrite H in Hp.
    now apply (Qlt_irrefl 0). }
  clear Eq.
  assert (forall i : Z,
            (m + p * inject_Z i <= x)%Q <-> (inject_Z i <= q)%Q) as HA.
  { intros i. rewrite <- (Qmult_le_l (inject_Z i) q p Hp).
    split; intros H; lra. }
  assert (forall i : Z,
            (x < m + p * inject_Z i + p)%Q <-> (q < inject_Z (i + 1))%Q) as HB.
  { intros i. rewrite <- (Qmult_lt_l q (inject_Z (i + 1)) p Hp), inject_Z_plus.
    change (inject_Z 1) with 1%Q. split; intros H; lra. }
  assert (forall i : Z,
            (inject_Z i <= q)%Q /\ (q < inject_Z (i + 1))%Q <-> i = Qfloor q)
    as Hfloor.
  { intros i. split.
    - intros [Hlo Hhi].
      pose proof (Qfloor_resp_le _ _ Hlo) as H1. rewrite Qfloor_Z in H1.
      pose proof (Qle_lt_trans _ _ _ (Qfloor_le q) Hhi) as H2.
      rewrite <- Zlt_Qlt in H2. lia.
    - intros ->. split; [apply Qfloor_le|apply Qlt_floor]. }
  unfold Np.range. apply (count_unique _ _ (Qfloor q)).
  - apply NoDup_seqZ.
  - apply elem_of_seqZ. split.
    + apply (Qfloor_resp_le 0 q). apply (Qmult_le_l 0 q p Hp). lra.
    + assert (q < inject_Z n)%Q as Hqn
        by (apply (Qmult_lt_l q (inject_Z n) p Hp); lra).
      pose proof (Qle_lt_trans _ _ _ (Qfloor_le q) Hqn) as H.
      rewrite <- Zlt_Qlt in H. lia.
  - intros i _. rewrite andb_true_iff, Qle_bool_iff, Qltb_lt, HA, HB.
    apply Hfloor.
Qed.

(** The cell test of a multi-index: every coordinate lies in the
    interval of its axis. *)
Lemma cell_test_cons (m p x : Q) (ms ps xs : list Q) (i : Z) (idx : list Z) :
  let lower := DistributedTransform.lower_bound_of (m :: ms) (p :: ps) (i :: idx) in
  let lower' := DistributedTransform.lower_bound_of ms ps idx in
  not_too_low lower (x :: xs) && not_too_high (Np.qadd lower (p :: ps)) (x :: xs)
  = (Qle_bool (m + p * inject_Z i) x && Qltb x (m + p * inject_Z i + p))
    && (not_too_low lower' xs && not_too_high (Np.qadd lower' ps) xs).
Proof.
  unfold not_too_low, not_too_high, DistributedTransform.lower_bound_of,
    Np.qadd, Np.qmul, Np.of_ints. cbn [zip_with fmap list_fmap forallb id].
  generalize (Qle_bool (m + p * inject_Z i) x)
             (Qltb x (m + p * inject_Z i + p)).
  intros b1 b2.
  repeat match goal with |- context [forallb ?f ?l] =>
    generalize (forallb f l); intros ? end.
  destruct b1, b2; simpl; try reflexivity;
    repeat match goal with b : bool |- _ => destruct b end; reflexivity.
Qed.

(** A point with [m_k <= x_k < m_k + p_k * n_k] on every axis lies in
    exactly one cell of the grid of [ns] cells with corner [ms] and pitch
    [ps]. *)
Lemma count_cells (ns : list Z) (ms ps xs : list Q) :
  length ms = length ns -> length ps = length ns -> length xs = length ns ->
  (forall k n m p x,
     ns !! k = Some n -> ms !! k = Some m -> ps !! k = Some p ->
     xs !! k = Some x ->
     (0 < p)%Q /\ (m <= x)%Q /\ (x < m + p * inject_Z n)%Q) ->
  count (fun idx =>
           let lower := DistributedTransform.lower_bound_of ms ps idx in
           not_too_low lower xs && not_too_high (Np.qadd lower ps) xs)
        (Np.ndindex ns) = 1%nat.
Proof.
  revert ms ps xs.
  induction ns as [|n ns IH]; intros [|m ms] [|p ps] [|x xs] Hm Hp Hx Hax;
    try discriminate.
  - reflexivity.
  - cbn [Np.ndindex]. rewrite <- (list_fmap_id (_ ≫= _)).
    rewrite (count_ndindex_cons _ id
               (fun i => Qle_bool (m + p * inject_Z i) x
                         && Qltb x (m + p * inject_Z i + p))
               (fun idx =>
                  let lower := DistributedTransform.lower_bound_of ms ps idx in
                  not_too_low lower xs && not_too_high (Np.qadd lower ps) xs)).
    + destruct (Hax 0%nat n m p x eq_refl eq_refl eq_refl eq_refl)
        as (Hp0 & Hm0 & Hn0).
      rewrite count_cell_axis by assumption.
      rewrite IH; [reflexivity|simpl in *; lia..|].
      intros k n' m' p' x' ? ? ? ?. now apply (Hax (S k)).
    + intros i idx. apply cell_test_cons.
Qed.

(** Splitting a list by tests of which every element meets exactly one
    rearranges it. *)
Lemma concat_filter_cons {A} (tests : list (A -> bool)) (a : A) (l : list A) :
  concat ((fun f => List.filter f (a :: l)) <$> tests)
  ≡ₚ replicate (count (fun f => f a) tests) a
     ++ concat ((fun f => List.filter f l) <$> tests).
Proof.
  induction tests as [|f tests IH]; [reflexivity|].
  rewrite !fmap_cons. cbn [concat List.filter].
  change (f :: tests) with ([f] ++ tests). rewrite count_app.
  unfold count at 1. cbn [List.filter]. destruct (f a); simpl.
  - rewrite IH. apply Permutation_skip.
    rewrite !app_assoc. apply Permutation_app_tail, Permutation_app_comm.
  - rewrite IH. rewrite !app_assoc.
    apply Permutation_app_tail, Permutation_app_comm.
Qed.

Lemma concat_filter_partition {A} (tests : list (A -> bool)) (l : list A) :
  (forall x, x ∈ l -> count (fun f => f x) tests = 1%nat) ->
  concat ((fun f => List.filter f l) <$> tests) ≡ₚ l.
Proof.
  induction l as [|a l IH]; intros Hone.
  - clear. induction tests as [|f tests IH]; [reflexivity|].
    rewrite fmap_cons. simpl. exact IH.
  - rewrite concat_filter_cons, (Hone a) by constructor. simpl.
    apply Permutation_skip, IH. intros x Hx. apply Hone. now constructor.
Qed.

Lemma mapM_Ok_Forall2 {A B} (f : A -> result B) (P : A -> B -> Prop)
    (l : list A) :
  (forall x, x ∈ l -> exists y, f x = Ok y /\ P x y) ->
  exists ys, mapM f l = Ok ys /\ Forall2 P l ys.
Proof.
  induction l as [|x l IH]; intros Hall; simpl.
  - exists []. split; [reflexivity|constructor].
  - destruct (Hall x ltac:(constructor)) as (y & Hy & HP).
    destruct IH as (ys & Hys & HF).
    { intros x' Hx'. apply Hall. now constructor. }
    exists (y :: ys). rewrite Hy. cbn [mbind result_bind]. rewrite Hys.
    split; [reflexivity|now constructor].
Qed.

Lemma size2_zero {A} (rows : list (list A)) :
  Forall (fun row => row <> []) rows -> size2 rows = 0%nat -> rows = [].
Proof.
  intros Hne Hsz. destruct rows as [|[|x row] rows]; [reflexivity| |].
  - inversion Hne; subst. contradiction.
  - simpl in Hsz. lia.
Qed.

Lemma size2_pos {A} (rows : list (list A)) :
  (0 < size2 rows)%nat -> rows <> [].
Proof. intros H ->. simpl in H. lia. Qed.

Lemma length_concat_Forall2 {A B} (xs : list (list A)) (ys : list (list B)) :
  Forall2 (fun x y => length y = length x) xs ys ->
  length (concat ys) = length (concat xs).
Proof.
  induction 1 as [|x y xs ys Hxy _ IH]; simpl; [reflexivity|].
  rewrite !length_app. lia.
Qed.

Lemma filter_elem_of {A} (f : A -> bool) (l : list A) (x : A) :
  x ∈ List.filter f l -> x ∈ l /\ f x = true.
Proof.
  rewrite !list_elem_of_In. apply List.filter_In.
Qed.

(** ** The grid-aligned coordinate pipeline *)

Section GridPipeline.
Variable apply_transform_to_coordinates :
  list (list Q) -> list (ndarray Q) -> per_transform -> per_transform ->
  list (list Q).
Variable uninitialised : Q.
Variables (coordinates : list (list Q)) (transform_list : list (ndarray Q)).
Variables (voxel_blocksize : list Z) (coords_spacing : list Q).

Let phys_blocksize := Np.qmul (Np.of_ints voxel_blocksize) coords_spacing.

Hypothesis Hcontract :
  forall points transforms spacing origin,
    Forall2 (fun w p => length w = length p)
      (apply_transform_to_coordinates points transforms spacing origin) points.
Hypothesis Hne : coordinates <> [].
Hypothesis Hcols : Forall (fun row => (3 <= length row)%nat) coordinates.
Hypothesis Hvb : length voxel_blocksize = 3%nat.
Hypothesis Hvb_pos : Forall (fun b => 0 < b) voxel_blocksize.
Hypothesis Hsp : length coords_spacing = 3%nat.
Hypothesis Hsp_pos : Forall (fun x => (0 < x)%Q) coords_spacing.
Hypothesis Htl :
  Forall (fun t => is_affine t = true \/ ndim t = 4%nat) transform_list.

Lemma phys_blocksize_pos k p :
  phys_blocksize !! k = Some p -> (0 < p)%Q.
Proof.
  unfold phys_blocksize, Np.qmul, Np.of_ints. intros H.
  apply lookup_zip_with_Some in H as (b & s & -> & Hb & Hs).
  apply list_lookup_fmap_Some_1 in Hb as (z & -> & Hz).
  pose proof (proj1 (Forall_lookup _ _) Hvb_pos _ _ Hz) as Hz0.
  pose proof (proj1 (Forall_lookup _ _) Hsp_pos _ _ Hs) as Hs0.
  cbv beta in *. apply Qmult_lt_0_compat; [|assumption].
  change 0%Q with (inject_Z 0). now rewrite <- Zlt_Qlt.
Qed.

Lemma length_phys_blocksize : length phys_blocksize = 3%nat.
Proof.
  unfold phys_blocksize, Np.qmul, Np.of_ints.
  rewrite length_zip_with, length_fmap. lia.
Qed.

(** The grid has enough cells on every axis to hold every point. *)
Lemma grid_covers :
  exists min_coord nblocks,
    DistributedTransform.coordinate_nblocks coordinates phys_blocksize
    = Ok (min_coord, nblocks)
    /\ length min_coord = 3%nat /\ length nblocks = 3%nat
    /\ forall row k n m p x,
         row ∈ coordinates ->
         nblocks !! k = Some n -> min_coord !! k = Some m ->
         phys_blocksize !! k = Some p -> take 3 row !! k = Some x ->
         (0 < p)%Q /\ (m <= x)%Q /\ (x < m + p * inject_Z n)%Q.
Proof.
  destruct (bounding_box (take 3 <$> coordinates) 3)
    as (a & b & Ha & Hb & Hla & Hlb & Hbox).
  { destruct coordinates; [contradiction|discriminate]. }
  { apply Forall_fmap. eapply Forall_impl; [exact Hcols|].
    intros row Hrow. unfold compose. cbv beta in *.
    rewrite length_take. lia. }
  exists a, ((fun x => Np.ceil (x + 1)) <$>
               Np.qdiv (zip_with Qminus b a) phys_blocksize).
  split; [unfold DistributedTransform.coordinate_nblocks; now rewrite Ha, Hb|].
  split; [assumption|]. split.
  { unfold Np.qdiv. rewrite length_fmap, !length_zip_with,
      length_phys_blocksize. lia. }
  intros row k n m p x Hrow Hn Hm Hp Hx.
  pose proof (phys_blocksize_pos k p Hp) as Hp0.
  assert (k < 3)%nat as Hk by (rewrite <- Hla; eapply lookup_lt_Some; eassumption).
  destruct (Hbox k Hk) as (ak & bk & Hak & Hbk & Hall & _).
  rewrite Hm in Hak. injection Hak as <-.
  destruct (Hall (take 3 row)) as (x' & Hx' & Hlo & Hhi).
  { apply list_elem_of_fmap. now exists row. }
  rewrite Hx in Hx'. injection Hx' as <-.
  apply list_lookup_fmap_Some_1 in Hn as (q & -> & Hq).
  unfold Np.qdiv in Hq.
  apply lookup_zip_with_Some in Hq as (v & p' & -> & Hv & Hp').
  rewrite Hp in Hp'. injection Hp' as <-.
  apply lookup_zip_with_Some in Hv as (bk' & m' & -> & Hbk' & Hm').
  rewrite Hbk in Hbk'. injection Hbk' as <-.
  rewrite Hm in Hm'. injection Hm' as <-.
  split; [assumption|]. split; [assumption|].
  pose proof (Qle_ceiling ((bk - m) / p + 1)) as Hceil.
  fold (Np.ceil ((bk - m) / p + 1)) in Hceil.
  remember (inject_Z (Np.ceil ((bk - m) / p + 1))) as N eqn:EN.
  remember ((bk - m) / p)%Q as q eqn:Eq.
  assert (p * q == bk - m)%Q as Hq.
  { rewrite Eq. apply Qmult_div_r. intros H. rewrite H in Hp0.
    now apply (Qlt_irrefl 0). }
  clear Eq EN.
  assert (p * (q + 1) <= p * N)%Q as Hmul by now apply (Qmult_le_l _ _ p Hp0).
  lra.
Qed.

Variables (min_coord : list Q) (nblocks : list Z).
Hypothesis Hgrid :
  DistributedTransform.coordinate_nblocks coordinates phys_blocksize
  = Ok (min_coord, nblocks).

Let cell (block_index : list Z) (row : list Q) : bool :=
  let lower_bound :=
    DistributedTransform.lower_bound_of min_coord phys_blocksize block_index in
  DistributedTransform.in_cell lower_bound
    (Np.qadd lower_bound phys_blocksize) row.

Let blocks :=
  block_index ← Np.ndindex nblocks;
  DistributedTransform.block_points coordinates voxel_blocksize
    phys_blocksize min_coord block_index.

(** With the cell bounds computed exactly, every point lies in exactly
    one cell of the grid. *)
Lemma grid_point_in_one_cell (row : list Q) :
  row ∈ coordinates ->
  count (fun block_index => cell block_index row) (Np.ndindex nblocks) = 1%nat.
Proof.
  intros Hrow. destruct grid_covers as (m & n & Hmn & Hlm & Hln & Hax).
  rewrite Hgrid in Hmn. injection Hmn as <- <-.
  unfold cell, DistributedTransform.in_cell. apply count_cells.
  - lia.
  - rewrite length_phys_blocksize. lia.
  - rewrite length_take.
    pose proof (proj1 (Forall_forall _ _) Hcols _ Hrow). cbv beta in *. lia.
  - intros k n m p x ? ? ? ?. now apply (Hax row k).
Qed.

Lemma grid_block_points_points (block_index : list Z) :
  concat ((fun b => b.2) <$>
            DistributedTransform.block_points coordinates voxel_blocksize
              phys_blocksize min_coord block_index)
  = List.filter (cell block_index) coordinates.
Proof.
  unfold DistributedTransform.block_points. fold (cell block_index).
  destruct (decide _) as [Hpos|Hzero]; [apply app_nil_r|].
  change ([] = List.filter (cell block_index) coordinates).
  change (~ (0 < size2 (List.filter (cell block_index) coordinates))%nat)
    in Hzero.
  symmetry. apply size2_zero; [|lia].
  apply Forall_forall. intros row Hrow.
  apply filter_elem_of in Hrow as [Hrow _].
  pose proof (proj1 (Forall_forall _ _) Hcols _ Hrow) as H. cbv beta in H.
  intros ->. simpl in H. lia.
Qed.

(** With the cell bounds computed exactly, the buckets hold the points of
    the input, each once. *)
Lemma grid_buckets_permutation :
  concat ((fun b => b.2) <$> blocks) ≡ₚ coordinates.
Proof.
  assert (concat ((fun b => b.2) <$> blocks)
          = concat ((fun f => List.filter f coordinates)
                      <$> (cell <$> Np.ndindex nblocks))) as ->.
  { unfold blocks. induction (Np.ndindex nblocks) as [|idx L IH];
      [reflexivity|].
    rewrite bind_cons, fmap_app, concat_app, IH, grid_block_points_points.
    reflexivity. }
  apply concat_filter_partition. intros row Hrow.
  rewrite count_fmap. now apply grid_point_in_one_cell.
Qed.

Lemma grid_blocks_wellformed b :
  b ∈ blocks -> b.2 <> [] /\ length b.1.1.2 = 3%nat.
Proof.
  unfold blocks. intros Hb.
  apply list_elem_of_bind in Hb as (idx & Hb & Hidx).
  unfold DistributedTransform.block_points in Hb.
  destruct (decide _) as [Hpos|] in Hb; [|inversion Hb].
  apply list_elem_of_singleton in Hb as ->. cbn [fst snd]. split.
  - now apply size2_pos.
  - destruct grid_covers as (m & n & Hmn & Hlm & Hln & _).
    rewrite Hgrid in Hmn. injection Hmn as <- <-.
    apply elem_of_ndindex, Forall2_length in Hidx.
    unfold Np.add, Np.mul. rewrite !length_zip_with. lia.
Qed.

(** A bucket holds rows of the input. *)
Lemma grid_blocks_rows b row :
  b ∈ blocks -> row ∈ b.2 -> row ∈ coordinates.
Proof.
  unfold blocks. intros Hb Hrow.
  apply list_elem_of_bind in Hb as (idx & Hb & _).
  unfold DistributedTransform.block_points in Hb.
  destruct (decide _) as [_|] in Hb; [|inversion Hb].
  apply list_elem_of_singleton in Hb as ->. cbn [snd] in Hrow.
  now apply filter_elem_of in Hrow as [Hrow _].
Qed.

(** Every bucket is transformed to as many rows as it holds, and the
    call returns the results bucket after bucket. *)
Lemma grid_pipeline_runs :
  exists results,
    mapM (fun '(block_index, block_slice_coords, block_origin, points) =>
            DistributedTransform._transform_coords
              apply_transform_to_coordinates uninitialised block_index
              block_slice_coords block_origin points coords_spacing
              transform_list) blocks = Ok results
    /\ Forall2 (fun b r => length r = length b.2) blocks results
    /\ DistributedTransform.distributed_apply_transform_to_coordinates
         apply_transform_to_coordinates uninitialised coordinates
         transform_list voxel_blocksize coords_spacing
       = Ok (concat results)
    /\ length (concat results) = length coordinates.
Proof.
  destruct (mapM_Ok_Forall2
    (fun '(block_index, block_slice_coords, block_origin, points) =>
       DistributedTransform._transform_coords
         apply_transform_to_coordinates uninitialised block_index
         block_slice_coords block_origin points coords_spacing transform_list)
    (fun b r => length r = length b.2) blocks) as (results & Hres & Hlens).
  { intros [[[idx slices] origin] points] Hb.
    destruct (grid_blocks_wellformed _ Hb) as [Hpts Hsl]. cbn [fst snd] in *.
    destruct (transform_coords_runs apply_transform_to_coordinates
                uninitialised idx slices origin points coords_spacing
                transform_list Hcontract Hpts Hsl Htl)
      as (cropped & _ & Hrows & Hrun).
    eexists. split; [exact Hrun|].
    rewrite length_zip_with. apply Forall2_length in Hrows. lia. }
  exists results. split; [assumption|]. split; [assumption|]. split.
  - unfold DistributedTransform.distributed_apply_transform_to_coordinates.
    fold phys_blocksize. rewrite Hgrid. cbn [mbind result_bind].
    fold blocks. rewrite Hres. cbn [mbind result_bind].
    now destruct results.
  - rewrite (length_concat_Forall2 ((fun b => b.2) <$> blocks) results).
    + apply Permutation_length, grid_buckets_permutation.
    + now apply Forall2_fmap_l.
Qed.

End GridPipeline.

(** ** Scattering results back *)

Lemma elem_of_concat {A} (ls : list (list A)) (x : A) :
  x ∈ concat ls <-> exists l, l ∈ ls /\ x ∈ l.
Proof.
  rewrite list_elem_of_In, in_concat. split; intros (l & H1 & H2); exists l;
    rewrite ?list_elem_of_In in *; tauto.
Qed.

Lemma fst_imap_pair {A} (l : list A) :
  fst <$> imap pair l = seq 0 (length l).
Proof.
  apply list_eq. intros i.
  rewrite list_lookup_fmap, list_lookup_imap.
  destruct (l !! i) as [x|] eqn:E; simpl.
  - symmetry. apply lookup_seq. split; [reflexivity|].
    eapply lookup_lt_Some; eassumption.
  - symmetry. apply lookup_ge_None. rewrite length_seq.
    now apply lookup_ge_None in E.
Qed.

Lemma zip_concat {A B} (xs : list (list A)) (ys : list (list B)) :
  Forall2 (fun x y => length y = length x) xs ys ->
  zip (concat xs) (concat ys) = concat (zip_with zip xs ys).
Proof.
  induction 1 as [|x y xs ys Hxy _ IH]; [reflexivity|].
  cbn [concat zip_with]. rewrite zip_with_app by congruence. now rewrite IH.
Qed.

(** Assigning pairwise distinct, valid positions: each assigned position
    holds its value, the length is unchanged. *)
Lemma foldl_insert_spec {A} (pairs : list (nat * A)) (results : list A) :
  NoDup (fst <$> pairs) ->
  (forall i, i ∈ fst <$> pairs -> (i < length results)%nat) ->
  let out := foldl (fun acc iv => <[iv.1 := iv.2]> acc) results pairs in
  length out = length results
  /\ (forall i v, (i, v) ∈ pairs -> out !! i = Some v)
  /\ (forall i, i ∉ fst <$> pairs -> out !! i = results !! i).
Proof.
  revert results. induction pairs as [|[i v] pairs IH]; intros results Hnd Hlt.
  - simpl. split; [reflexivity|]. split; [|reflexivity].
    intros i v Hin. inversion Hin.
  - rewrite fmap_cons in Hnd, Hlt. simpl in Hnd, Hlt.
    apply NoDup_cons in Hnd as [Hi Hnd].
    destruct (IH (<[i := v]> results) Hnd) as (Hlen & Hset & Hkeep).
    { intros j Hj. rewrite length_insert. apply Hlt. now constructor. }
    cbn [foldl fst snd]. rewrite length_insert in Hlen.
    split; [assumption|]. split.
    + intros j w Hin. apply elem_of_cons in Hin as [Heq|Hin].
      * injection Heq as -> ->. rewrite (Hkeep i Hi).
        apply list_lookup_insert_eq. apply Hlt. constructor.
      * now apply Hset.
    + intros j Hj. rewrite fmap_cons in Hj. simpl in Hj.
      apply not_elem_of_cons in Hj as [Hne Hj].
      rewrite (Hkeep j Hj). now apply list_lookup_insert_ne.
Qed.

Lemma scatter_spec {A} (results : list A) (indices : list nat)
    (values : list A) :
  NoDup indices ->
  Forall (fun i => (i < length results)%nat) indices ->
  length values = length indices ->
  exists out,
    scatter results indices values = Ok out
    /\ length out = length results
    /\ forall i v, (i, v) ∈ zip indices values -> out !! i = Some v.
Proof.
  intros Hnd Hlt Hlen. unfold scatter. rewrite decide_True by assumption.
  assert (match values with
          | [v] => Some (replicate (length indices) v)
          | _ => if decide (length values = length indices)
                 then Some values else None
          end = Some values) as ->.
  { destruct values as [|v [|v' values]].
    - now rewrite decide_True.
    - destruct indices as [|i [|i' indices]]; try discriminate. reflexivity.
    - now rewrite decide_True. }
  eexists. split; [reflexivity|].
  destruct (foldl_insert_spec (zip indices values) results) as (H1 & H2 & _).
  - now rewrite fst_zip by lia.
  - intros i Hi. rewrite fst_zip in Hi by lia.
    exact (proj1 (Forall_forall _ _) Hlt i Hi).
  - now split.
Qed.

(** ** The extent-driven coordinate pipeline *)

Lemma length_removelast_le {A} (l : list A) :
  (length (removelast l) <= length l)%nat.
Proof.
  induction l as [|x [|y l] IH]; simpl in *; lia.
Qed.

Section ExtentPipeline.
Variable apply_transform_to_coordinates :
  list (list Q) -> list (ndarray Q) -> per_transform -> per_transform ->
  list (list Q).
Variable uninitialised : Q.
Variables (coordinates : list (list Q)) (transform_list : list (ndarray Q)).
Variables (partition_size : Q) (transform_spacing : per_transform) (d : nat).

Hypothesis Hcontract :
  forall points transforms spacing origin,
    length (apply_transform_to_coordinates points transforms spacing origin)
    = length points.
Hypothesis Hne : coordinates <> [].
Hypothesis Hrect : Forall (fun row => length row = d) coordinates.
Hypothesis Hps : (0 < partition_size)%Q.
Hypothesis Hspacing :
  forall iii t, transform_list !! iii = Some t ->
    PiecewiseTransform.is_matrix t = false ->
    match transform_spacing with
    | Unset => False
    | Shared _ => True
    | Each l => is_Some (l !! iii)
    end.

Variables (origin : list Q) (nblocks : list Z).
Hypothesis Hgrid :
  PiecewiseTransform.coordinate_nblocks coordinates partition_size
  = Ok (origin, nblocks).
Hypothesis Hcovered :
  forall row k x m n,
    row ∈ coordinates -> row !! k = Some x ->
    origin !! k = Some m -> nblocks !! k = Some n ->
    (x < m + partition_size * inject_Z n)%Q.

Let cell (index_ : list Z) (row : list Q) : bool :=
  let lower_bound :=
    PiecewiseTransform.lower_bound_of origin partition_size index_ in
  PiecewiseTransform.in_cell lower_bound
    ((fun x => x + partition_size)%Q <$> lower_bound) row.

Let selected (index_ : list Z) : list (nat * list Q) :=
  List.filter (fun ir => cell index_ ir.2) (imap pair coordinates).

Let parts :=
  index_ ← Np.ndindex nblocks;
  PiecewiseTransform.partition_of coordinates origin partition_size index_.

Lemma extent_grid :
  length origin = d /\ length nblocks = d
  /\ forall row k x m,
       row ∈ coordinates -> row !! k = Some x -> origin !! k = Some m ->
       (m <= x)%Q.
Proof.
  destruct (bounding_box coordinates d Hne Hrect)
    as (a & b & Ha & Hb & Hla & Hlb & Hbox).
  unfold PiecewiseTransform.coordinate_nblocks in Hgrid.
  rewrite Ha, Hb in Hgrid. cbn [mbind result_bind] in Hgrid.
  injection Hgrid as <- <-. split; [assumption|]. split.
  - rewrite length_fmap, length_zip_with. lia.
  - intros row k x m Hrow Hx Hm.
    assert (k < d)%nat as Hk by (rewrite <- Hla; eapply lookup_lt_Some; eassumption).
    destruct (Hbox k Hk) as (ak & bk & Hak & _ & Hall & _).
    destruct (Hall row Hrow) as (x' & Hx' & Hlo & _).
    congruence.
Qed.

Lemma extent_cell_form (index_ : list Z) (row : list Q) :
  length index_ = d ->
  cell index_ row
  = (let lower :=
       DistributedTransform.lower_bound_of origin (replicate d partition_size)
         index_ in
     not_too_low lower row
     && not_too_high (Np.qadd lower (replicate d partition_size)) row).
Proof.
  intros Hidx. destruct extent_grid as (Hlo & _ & _).
  unfold cell, PiecewiseTransform.in_cell, PiecewiseTransform.lower_bound_of,
    DistributedTransform.lower_bound_of. cbv zeta.
  assert (Np.qmul (replicate d partition_size) (Np.of_ints index_)
          = (fun i => partition_size * inject_Z i)%Q <$> index_) as ->.
  { unfold Np.qmul, Np.of_ints.
    rewrite zip_with_replicate_l by (rewrite length_fmap; lia).
    now rewrite <- list_fmap_compose. }
  set (lower := Np.qadd origin _).
  assert (Np.qadd lower (replicate d partition_size)
          = (fun x => x + partition_size)%Q <$> lower) as ->.
  { unfold Np.qadd at 1. apply zip_with_replicate_r_eq.
    unfold lower, Np.qadd. rewrite length_zip_with, length_fmap. lia. }
  reflexivity.
Qed.

(** With the cell bounds computed exactly and a grid that reaches beyond
    every point, every point lies in exactly one cell. *)
Lemma extent_point_in_one_cell (row : list Q) :
  row ∈ coordinates ->
  count (fun index_ => cell index_ row) (Np.ndindex nblocks) = 1%nat.
Proof.
  intros Hrow. destruct extent_grid as (Hlo & Hln & Hmin).
  rewrite (count_ext _
    (fun idx =>
       let lower :=
         DistributedTransform.lower_bound_of origin
           (replicate d partition_size) idx in
       not_too_low lower row
       && not_too_high (Np.qadd lower (replicate d partition_size)) row)).
  - apply count_cells.
    + lia.
    + rewrite length_replicate. lia.
    + rewrite (proj1 (Forall_forall _ _) Hrect row Hrow). lia.
    + intros k n m p x Hn Hm Hp Hx.
      apply lookup_replicate in Hp as [-> _].
      split; [assumption|]. split; [now apply (Hmin row k)|].
      now apply (Hcovered row k).
  - intros idx Hidx. apply extent_cell_form.
    apply elem_of_ndindex, Forall2_length in Hidx. lia.
Qed.

Lemma selected_permutation :
  concat (selected <$> Np.ndindex nblocks) ≡ₚ imap pair coordinates.
Proof.
  unfold selected.
  rewrite (list_fmap_compose
             (fun idx (ir : nat * list Q) => cell idx ir.2)
             (fun f => List.filter f (imap pair coordinates))).
  apply concat_filter_partition. intros [j row] Hin.
  apply elem_of_lookup_imap in Hin as (i & y & Heq & Hy).
  injection Heq as -> ->. rewrite count_fmap. cbn [snd].
  apply extent_point_in_one_cell. eapply list_elem_of_lookup_2; eassumption.
Qed.

Lemma partition_of_selected (index_ : list Z) :
  PiecewiseTransform.partition_of coordinates origin partition_size index_
  = if decide (fst <$> selected index_ <> [])
    then [(snd <$> selected index_, fst <$> selected index_)]
    else [].
Proof. reflexivity. Qed.

(** The partitions are the non-empty selections of the cells, in grid
    order. *)
Lemma parts_selected :
  exists sels,
    parts = (fun sel : list (nat * list Q) => (snd <$> sel, fst <$> sel))
              <$> sels
    /\ concat sels = concat (selected <$> Np.ndindex nblocks)
    /\ Forall (fun sel => sel <> []) sels.
Proof.
  unfold parts. induction (Np.ndindex nblocks) as [|idx L IH].
  - exists []. repeat split; constructor.
  - destruct IH as (sels & Hparts & Hconcat & Hnonempty).
    rewrite bind_cons, fmap_cons, partition_of_selected. cbn [concat].
    destruct (decide _) as [Hsel|Hsel].
    + exists (selected idx :: sels). rewrite Hparts, fmap_cons.
      split; [reflexivity|]. split; [simpl; congruence|].
      constructor; [|assumption]. intros E. apply Hsel. now rewrite E.
    + exists sels. split; [assumption|]. split; [|assumption].
      assert (selected idx = []) as ->; [|assumption].
      apply dec_stable in Hsel. now apply fmap_nil_inv in Hsel.
Qed.

Lemma crop_transform_runs (a b : list Q) (iii : nat) (t : ndarray Q) :
  (PiecewiseTransform.is_matrix t = false ->
   match transform_spacing with
   | Unset => False
   | Shared _ => True
   | Each l => is_Some (l !! iii)
   end) ->
  exists c, PiecewiseTransform.crop_transform a b transform_spacing iii t = Ok c.
Proof.
  intros Hsp. unfold PiecewiseTransform.crop_transform.
  destruct (PiecewiseTransform.is_matrix t); simpl; [eauto|].
  specialize (Hsp eq_refl).
  assert (forall spacing, exists c,
            getitem t (slice_of <$>
                         PiecewiseTransform.crop_slices a b spacing t) = Ok c)
    as Hget.
  { intros spacing. unfold getitem. rewrite decide_True; [eauto|].
    unfold PiecewiseTransform.crop_slices, Np.minimum, ndim.
    rewrite length_fmap, !length_zip_with, length_fmap.
    pose proof (length_removelast_le (arr_shape t)). lia. }
  destruct transform_spacing as [|spacing|l]; [contradiction|apply Hget|].
  destruct Hsp as [spacing Hl]. rewrite (index_Some _ _ _ Hl). apply Hget.
Qed.

Lemma crop_transforms_run (a b : list Q) (transforms : list (ndarray Q))
    (iii : nat) :
  (forall j t, transforms !! j = Some t ->
     transform_list !! (iii + j)%nat = Some t) ->
  exists new_list,
    PiecewiseTransform.crop_transforms a b transform_spacing iii transforms
    = Ok new_list.
Proof.
  revert iii. induction transforms as [|t rest IH]; intros iii Hsub; simpl.
  - eauto.
  - destruct (crop_transform_runs a b iii t) as [c ->].
    { apply Hspacing. rewrite <- (Nat.add_0_r iii). now apply Hsub. }
    destruct (IH (S iii)) as [new_list ->].
    { intros j t' Hj. rewrite Nat.add_succ_l, <- Nat.add_succ_r.
      now apply Hsub. }
    simpl. eauto.
Qed.

(** A non-empty partition is transformed to as many rows as it holds. *)
Lemma transform_partition_runs (partition : list (list Q)) :
  partition <> [] ->
  exists warped,
    PiecewiseTransform.transform_partition apply_transform_to_coordinates
      partition transform_list transform_spacing = Ok warped
    /\ length warped = length partition.
Proof.
  intros Hpart. unfold PiecewiseTransform.transform_partition.
  destruct partition as [|row rows]; [contradiction|].
  cbn [qmin_axis0 qmax_axis0 mbind result_bind].
  match goal with
  | |- context [PiecewiseTransform.crop_transforms ?a ?b _ _ _] =>
      destruct (crop_transforms_run a b transform_list 0) as [new_list ->];
        [now intros|]
  end.
  cbn [mbind result_bind]. eexists. split; [reflexivity|apply Hcontract].
Qed.

(** The extent-driven pipeline when the index arrays of the partitions
    hold every position of the input once: the call returns as many rows
    as the input, and row [j] of the output is the row that the transform
    of its partition gives for input row [j]. *)
Lemma extent_pipeline_scatters :
  concat (snd <$> parts) ≡ₚ seq 0 (length coordinates) ->
  exists out,
    PiecewiseTransform.distributed_apply_transform_to_coordinates
      apply_transform_to_coordinates uninitialised coordinates transform_list
      partition_size transform_spacing = Ok out
    /\ length out = length coordinates
    /\ forall j row, coordinates !! j = Some row ->
         exists partition part_indices warped t v,
           (partition, part_indices) ∈ parts
           /\ PiecewiseTransform.transform_partition
                apply_transform_to_coordinates partition transform_list
                transform_spacing = Ok warped
           /\ part_indices !! t = Some j
           /\ partition !! t = Some row
           /\ warped !! t = Some v
           /\ out !! j = Some v.
Proof.
  intros Hseq.
  destruct parts_selected as (sels & Hparts & Hconcat & Hnonempty).
  (* the index array *)
  assert (concat (snd <$> parts) = fst <$> concat sels) as Hindices.
  { rewrite Hparts, <- list_fmap_compose. clear.
    induction sels as [|sel sels IH]; [reflexivity|].
    rewrite fmap_cons. cbn [concat]. now rewrite fmap_app, IH. }
  assert (length (concat sels) = length coordinates) as Hcount.
  { rewrite <- (length_fmap fst), <- Hindices, (Permutation_length Hseq).
    apply length_seq. }
  assert (sels <> []) as Hsels.
  { intros ->. apply Hne. apply nil_length_inv. now rewrite <- Hcount. }
  assert (forall j row, coordinates !! j = Some row -> (j, row) ∈ concat sels)
    as Hmem.
  { intros j row Hj.
    assert (j ∈ fst <$> concat sels) as Hin.
    { rewrite <- Hindices, Hseq. apply elem_of_seq. split; [lia|].
      simpl. eapply lookup_lt_Some; eassumption. }
    apply list_elem_of_fmap in Hin as ([j' row'] & -> & Hin).
    cbn [fst] in Hj |- *.
    enough (row' = row) as <- by assumption.
    rewrite Hconcat in Hin. apply elem_of_concat in Hin as (sel & Hsel & Hin).
    apply list_elem_of_fmap in Hsel as (idx & -> & _).
    apply filter_elem_of in Hin as [Hin _].
    apply elem_of_lookup_imap in Hin as (i & y & Heq & Hy).
    injection Heq as -> ->. congruence. }
  (* the transformed partitions *)
  assert (fst <$> parts = (fun sel : list (nat * list Q) => snd <$> sel) <$> sels)
    as Hfst by (rewrite Hparts, <- list_fmap_compose; reflexivity).
  assert (snd <$> parts = (fun sel : list (nat * list Q) => fst <$> sel) <$> sels)
    as Hsnd by (rewrite Hparts, <- list_fmap_compose; reflexivity).
  destruct (mapM_Ok_Forall2
    (fun partition =>
       PiecewiseTransform.transform_partition apply_transform_to_coordinates
         partition transform_list transform_spacing)
    (fun partition warped =>
       PiecewiseTransform.transform_partition apply_transform_to_coordinates
         partition transform_list transform_spacing = Ok warped
       /\ length warped = length partition)
    (fst <$> parts)) as (gathered & Hgathered & Hall).
  { intros partition Hin. rewrite Hfst in Hin.
    apply list_elem_of_fmap in Hin as (sel & -> & Hsel).
    destruct (transform_partition_runs (snd <$> sel)) as (w & Hw & Hlen).
    - pose proof (proj1 (Forall_forall _ _) Hnonempty sel Hsel) as Hn.
      cbv beta in Hn. now destruct sel.
    - exists w. now split. }
  rewrite Hfst in Hall. apply Forall2_fmap_l in Hall.
  assert (Forall2 (fun idxs warped => length warped = length idxs)
            (snd <$> parts) gathered) as Hlens.
  { rewrite Hsnd. apply Forall2_fmap_l.
    eapply Forall2_impl; [exact Hall|].
    intros sel warped [_ Hlen]. cbn [compose] in *.
    now rewrite Hlen, !length_fmap. }
  assert (length (concat gathered) = length (concat (snd <$> parts))) as Hlenp
    by now apply length_concat_Forall2.
  (* the scatter *)
  destruct (scatter_spec
              (PiecewiseTransform.empty_like uninitialised (concat gathered))
              (concat (snd <$> parts)) (concat gathered))
    as (out & Hscatter & Hlen_out & Hout).
  { rewrite Hseq. apply NoDup_seq. }
  { apply Forall_forall. intros i Hi. rewrite Hseq in Hi.
    apply elem_of_seq in Hi.
    unfold PiecewiseTransform.empty_like. rewrite length_fmap, Hlenp.
    rewrite Hindices, length_fmap, Hcount. lia. }
  { assumption. }
  exists out. split; [|split].
  - unfold PiecewiseTransform.distributed_apply_transform_to_coordinates.
    rewrite Hgrid. cbn [mbind result_bind]. fold parts.
    assert (concatenate (snd <$> parts) = Ok (concat (snd <$> parts))) as ->.
    { rewrite Hsnd. destruct sels; [contradiction|reflexivity]. }
    cbn [mbind result_bind]. rewrite Hgathered. cbn [mbind result_bind].
    assert (concatenate gathered = Ok (concat gathered)) as ->.
    { destruct gathered; [|reflexivity].
      apply Forall2_length in Hall. destruct sels; [contradiction|discriminate]. }
    cbn [mbind result_bind]. exact Hscatter.
  - rewrite Hlen_out. unfold PiecewiseTransform.empty_like.
    rewrite length_fmap, Hlenp, Hindices, length_fmap. exact Hcount.
  - intros j row Hj.
    pose proof (Hmem j row Hj) as Hin.
    apply elem_of_concat in Hin as (sel & Hsel & Hin).
    apply list_elem_of_lookup in Hsel as [m Hm].
    apply list_elem_of_lookup in Hin as [t Ht].
    destruct (Forall2_lookup_l _ _ _ _ _ Hall Hm) as (warped & Hw & Hrun & Hlen).
    cbn [compose] in Hrun, Hlen. rewrite length_fmap in Hlen.
    destruct (lookup_lt_is_Some_2 warped t) as [v Hv].
    { rewrite Hlen. eapply lookup_lt_Some; eassumption. }
    exists (snd <$> sel), (fst <$> sel), warped, t, v.
    split; [|split; [assumption|]].
    { rewrite Hparts. apply list_elem_of_fmap. exists sel. split; [reflexivity|].
      eapply list_elem_of_lookup_2; eassumption. }
    split; [now rewrite list_lookup_fmap, Ht|].
    split; [now rewrite list_lookup_fmap, Ht|].
    split; [assumption|].
    apply Hout. rewrite (zip_concat _ _ Hlens).
    apply elem_of_concat. exists (zip (fst <$> sel) warped). split.
    + apply (elem_of_lookup_zip_with_2 zip _ _ _ _ [] m);
        [now rewrite Hsnd, list_lookup_fmap, Hm|assumption].
    + apply (elem_of_lookup_zip_with_2 pair _ _ _ _ (j, v) t);
        [now rewrite list_lookup_fmap, Ht|assumption].
Qed.

(** With the cell bounds computed exactly and a grid that reaches beyond
    every point, the index arrays hold every position once. *)
Lemma extent_pipeline_runs :
  exists out,
    PiecewiseTransform.distributed_apply_transform_to_coordinates
      apply_transform_to_coordinates uninitialised coordinates transform_list
      partition_size transform_spacing = Ok out
    /\ length out = length coordinates
    /\ forall j row, coordinates !! j = Some row ->
         exists partition part_indices warped t v,
           (partition, part_indices) ∈ parts
           /\ PiecewiseTransform.transform_partition
                apply_transform_to_coordinates partition transform_list
                transform_spacing = Ok warped
           /\ part_indices !! t = Some j
           /\ partition !! t = Some row
           /\ warped !! t = Some v
           /\ out !! j = Some v.
Proof.
  apply extent_pipeline_scatters.
  destruct parts_selected as (sels & Hparts & Hconcat & _).
  assert (concat (snd <$> parts) = fst <$> concat sels) as ->.
  { rewrite Hparts, <- list_fmap_compose. clear.
    induction sels as [|sel sels IH]; [reflexivity|].
    rewrite fmap_cons. cbn [concat]. now rewrite fmap_app, IH. }
  rewrite Hconcat, selected_permutation. now rewrite fst_imap_pair.
Qed.

End ExtentPipeline.

(** ** The coordinate pipelines, end to end *)

Lemma identity_routine_contract points transforms spacing origin :
  Forall2 (fun w p : list Q => length w = length p)
    (identity_routine points transforms spacing origin) points.
Proof.
  unfold identity_routine. induction points; constructor; auto.
Qed.

(** With the identity as coordinate routine, [_transform_coords] gives a
    non-empty bucket back unchanged. *)
Lemma transform_coords_identity (uninitialised : Q) (block_index : list Z)
    (block_slice_coords : list slice) (block_origin : list Q)
    (points : list (list Q)) (coords_spacing : list Q)
    (transform_list : list (ndarray Q)) :
  points <> [] -> length block_slice_coords = 3%nat ->
  Forall (fun t => is_affine t = true \/ ndim t = 4%nat) transform_list ->
  DistributedTransform._transform_coords identity_routine uninitialised
    block_index block_slice_coords block_origin points coords_spacing
    transform_list = Ok points.
Proof.
  intros Hne Hlen Htl.
  destruct (transform_coords_runs identity_routine uninitialised
              block_index block_slice_coords block_origin points
              coords_spacing transform_list identity_routine_contract
              Hne Hlen Htl)
    as (cropped & _ & _ & Hrun).
  rewrite Hrun. f_equal. unfold identity_routine. clear.
  induction points as [|row rows IH]; [reflexivity|].
  rewrite fmap_cons. cbn [zip_with]. now rewrite take_drop, IH.
Qed.

(** C6 as worded does not hold for the pipeline of
    [distributed_transform.py]: it has no index array and returns the
    buckets one after the other in grid order. With the identity as
    coordinate routine, the two points (40,0,0) and (0,0,0) come back in
    the order (0,0,0), (40,0,0). *)
Lemma grid_pipeline_reorders :
  DistributedTransform.distributed_apply_transform_to_coordinates
    identity_routine 0%Q [[40; 0; 0]%Q; [0; 0; 0]%Q] [] [30; 30; 30]
    [1; 1; 1]%Q
  = Ok [[0; 0; 0]%Q; [40; 0; 0]%Q]
  /\ DistributedTransform.distributed_apply_transform_to_coordinates
       identity_routine 0%Q [[40; 0; 0]%Q; [0; 0; 0]%Q] [] [30; 30; 30]
       [1; 1; 1]%Q
     <> Ok [[40; 0; 0]%Q; [0; 0; 0]%Q].
Proof. split; vm_compute; congruence. Qed.

(** The pipeline of [piecewise_transform.py] loses the points that sit on
    the upper face of the grid: with partition size 30 the extent 30 gives
    one cell [[0, 30)], the point (30,30,30) falls in no cell, and the call
    returns one row for two points; with a third point the index array
    then reaches beyond the result and the call raises; a single point
    gives no cell at all. *)
Lemma extent_pipeline_drops_boundary_points :
  PiecewiseTransform.distributed_apply_transform_to_coordinates
    identity_routine 0%Q [[0; 0; 0]%Q; [30; 30; 30]%Q] [] 30%Q Unset
  = Ok [[0; 0; 0]%Q]
  /\ PiecewiseTransform.distributed_apply_transform_to_coordinates
       identity_routine 0%Q [[0; 0; 0]%Q; [30; 30; 30]%Q; [15; 15; 15]%Q] []
       30%Q Unset
     = Raise IndexError
  /\ PiecewiseTransform.distributed_apply_transform_to_coordinates
       identity_routine 0%Q [[5; 5; 5]%Q] [] 30%Q Unset
     = Raise ValueError.
Proof. repeat split; vm_compute; reflexivity. Qed.

Lemma mapM_Ok_ext {A B} (f : A -> result B) (g : A -> B) (l : list A) ys :
  mapM f l = Ok ys -> (forall x, x ∈ l -> f x = Ok (g x)) -> ys = g <$> l.
Proof.
  revert ys. induction l as [|x l IH]; intros ys Hrun Hf; simpl in Hrun.
  - now injection Hrun as <-.
  - rewrite (Hf x) in Hrun by constructor. cbn [mbind result_bind] in Hrun.
    destruct (mapM f l) as [ys'|e] eqn:E; [|discriminate].
    cbn [mbind result_bind] in Hrun. injection Hrun as <-.
    rewrite fmap_cons. f_equal. apply IH; [reflexivity|].
    intros x' Hx'. apply Hf. now constructor.
Qed.

(** C6 (amended). Grid-aligned pipeline ([distributed_transform.py]):
    the buckets are the non-empty selections of the grid cells, in the
    order of [np.ndindex], and hold rows of the input; every bucket is
    transformed to as many rows as it holds, and the call returns the
    bucket results one after the other in grid order - as many rows as
    the buckets hold together, not restored to the input order (with the
    identity routine: the buckets themselves). Extent-driven pipeline
    ([piecewise_transform.py]): whenever the index arrays of the
    partitions hold every position of the input exactly once, the scatter
    [results[indices] = permuted] puts at position [j] of the output the
    row that the transform of its partition gives for input row [j]: the
    output has the count and the order of the input (with the identity
    routine: the input itself). In which cell a point falls, and whether
    every point falls in one, is no part of the statement. *)
Theorem coordinate_pipelines_round_trip :
  (forall (routine :
             list (list Q) -> list (ndarray Q) -> per_transform ->
             per_transform -> list (list Q))
          (uninitialised : Q) (coordinates : list (list Q))
          (transform_list : list (ndarray Q)) (voxel_blocksize : list Z)
          (coords_spacing : list Q),
     (forall points transforms spacing origin,
        Forall2 (fun w p => length w = length p)
          (routine points transforms spacing origin) points) ->
     coordinates <> [] ->
     Forall (fun row => (3 <= length row)%nat) coordinates ->
     length voxel_blocksize = 3%nat ->
     Forall (fun b => 0 < b) voxel_blocksize ->
     length coords_spacing = 3%nat ->
     Forall (fun x => (0 < x)%Q) coords_spacing ->
     Forall (fun t => is_affine t = true \/ ndim t = 4%nat) transform_list ->
     exists min_coord nblocks results,
       let phys_blocksize :=
         Np.qmul (Np.of_ints voxel_blocksize) coords_spacing in
       let blocks :=
         block_index ← Np.ndindex nblocks;
         DistributedTransform.block_points coordinates voxel_blocksize
           phys_blocksize min_coord block_index in
       DistributedTransform.coordinate_nblocks coordinates phys_blocksize
       = Ok (min_coord, nblocks)
       /\ Forall (fun b => b.2 <> []
                          /\ forall row, row ∈ b.2 -> row ∈ coordinates)
                 blocks
       /\ mapM (fun '(block_index, block_slice_coords, block_origin, points) =>
                  DistributedTransform._transform_coords routine uninitialised
                    block_index block_slice_coords block_origin points
                    coords_spacing transform_list) blocks = Ok results
       /\ Forall2 (fun b r => length r = length b.2) blocks results
       /\ DistributedTransform.distributed_apply_transform_to_coordinates
            routine uninitialised coordinates transform_list voxel_blocksize
            coords_spacing = Ok (concat results)
       /\ length (concat results)
          = length (concat ((fun b => b.2) <$> blocks))
       /\ (routine = identity_routine ->
           concat results = concat ((fun b => b.2) <$> blocks)))
  /\ (forall (routine :
                list (list Q) -> list (ndarray Q) -> per_transform ->
                per_transform -> list (list Q))
             (uninitialised : Q) (coordinates : list (list Q))
             (transform_list : list (ndarray Q)) (partition_size : Q)
             (transform_spacing : per_transform) (d : nat)
             (origin : list Q) (nblocks : list Z),
        (forall points transforms spacing origin,
           length (routine points transforms spacing origin) = length points) ->
        coordinates <> [] ->
        Forall (fun row => length row = d) coordinates ->
        (forall iii t, transform_list !! iii = Some t ->
           PiecewiseTransform.is_matrix t = false ->
           match transform_spacing with
           | Unset => False
           | Shared _ => True
           | Each l => is_Some (l !! iii)
           end) ->
        PiecewiseTransform.coordinate_nblocks coordinates partition_size
        = Ok (origin, nblocks) ->
        let parts :=
          index_ ← Np.ndindex nblocks;
          PiecewiseTransform.partition_of coordinates origin partition_size
            index_ in
        concat (snd <$> parts) ≡ₚ seq 0 (length coordinates) ->
        exists out,
          PiecewiseTransform.distributed_apply_transform_to_coordinates
            routine uninitialised coordinates transform_list
            partition_size transform_spacing = Ok out
          /\ length out = length coordinates
          /\ (forall j row, coordinates !! j = Some row ->
                exists partition part_indices warped t v,
                  (partition, part_indices) ∈ parts
                  /\ PiecewiseTransform.transform_partition routine
                       partition transform_list transform_spacing
                     = Ok warped
                  /\ part_indices !! t = Some j
                  /\ partition !! t = Some row
                  /\ warped !! t = Some v
                  /\ out !! j = Some v)
          /\ (routine = identity_routine -> out = coordinates)).
Proof.
  split.
  - intros routine uninit coordinates tl vb sp Hcontract Hne Hcols Hvb Hvbp
      Hsp Hspp Htl.
    destruct (grid_covers coordinates vb sp Hne Hcols Hvb Hvbp Hsp Hspp)
      as (min_coord & nblocks & Hgrid & _).
    destruct (grid_pipeline_runs routine uninit coordinates tl vb sp
                Hcontract Hne Hcols Hvb Hvbp Hsp Hspp Htl min_coord nblocks
                Hgrid) as (results & Hres & Hlens & Hrun & _).
    exists min_coord, nblocks, results. cbv zeta.
    split; [assumption|]. split.
    { apply Forall_forall. intros b Hb. split.
      - exact (proj1 (grid_blocks_wellformed coordinates vb sp Hne Hcols Hvb
                        Hvbp Hsp Hspp min_coord nblocks Hgrid b Hb)).
      - intros row Hrow.
        exact (grid_blocks_rows coordinates vb sp min_coord nblocks b row Hb
                 Hrow). }
    split; [assumption|]. split; [assumption|]. split; [assumption|].
    split.
    { apply length_concat_Forall2. now apply Forall2_fmap_l. }
    intros ->. f_equal.
    apply (mapM_Ok_ext _ (fun b => b.2) _ _ Hres).
    intros [[[idx slices] origin] points] Hb.
    destruct (grid_blocks_wellformed coordinates vb sp Hne Hcols Hvb Hvbp
                Hsp Hspp min_coord nblocks Hgrid _ Hb) as [Hpts Hsl].
    now apply transform_coords_identity.
  - intros routine uninit coordinates tl psize tsp d origin nblocks
      Hcontract Hne Hrect Hspacing Hgrid parts Hseq.
    destruct (extent_pipeline_scatters routine uninit coordinates tl psize
                tsp Hcontract Hne Hspacing origin nblocks Hgrid Hseq)
      as (out & Hrun & Hlen & Hrows).
    exists out. split; [assumption|]. split; [assumption|].
    split; [assumption|].
    intros ->. apply list_eq. intros j.
    destruct (coordinates !! j) as [row|] eqn:Hj.
    + destruct (Hrows j row Hj)
        as (partition & idxs & warped & t & v & _ & Hw & _ & Hp & Hv & Hout).
      rewrite Hout. f_equal.
      unfold PiecewiseTransform.transform_partition in Hw.
      destruct (qmin_axis0 partition); [|discriminate].
      destruct (qmax_axis0 partition); [|discriminate].
      cbn [mbind result_bind] in Hw.
      destruct (PiecewiseTransform.crop_transforms _ _ _ _ _); [|discriminate].
      cbn [mbind result_bind] in Hw. unfold identity_routine in Hw.
      injection Hw as <-. congruence.
    + apply lookup_ge_None. rewrite Hlen. now apply lookup_ge_None.
Qed.

Lemma coordinate_pipelines_round_trip_witness :
  exists out,
    PiecewiseTransform.distributed_apply_transform_to_coordinates
      identity_routine 0%Q
      [[40; 1; 2]%Q; [0; 0; 0]%Q; [10; 35; 1]%Q; [41; 36; 3]%Q] [] 30%Q Unset
    = Ok out
    /\ out = [[40; 1; 2]%Q; [0; 0; 0]%Q; [10; 35; 1]%Q; [41; 36; 3]%Q].
Proof.
  destruct (proj2 coordinate_pipelines_round_trip identity_routine 0%Q
              [[40; 1; 2]%Q; [0; 0; 0]%Q; [10; 35; 1]%Q; [41; 36; 3]%Q] []
              30%Q Unset 3%nat [0; 0; 0]%Q [2; 2; 1])
    as (out & Hrun & _ & _ & Hid).
  - reflexivity.
  - discriminate.
  - repeat constructor.
  - intros iii t H. discriminate.
  - reflexivity.
  - vm_compute.
    apply (Permutation_trans (l' := [1; 0; 2; 3]%nat)).
    + apply perm_skip. apply perm_swap.
    + apply perm_swap.
  - exists out. split; [exact Hrun|]. now apply Hid.
Defined.

(* ================================================================= *)
(** * Further properties of the code *)

(** ** Slicing one axis *)

Lemma getitem_shape_length (sl : list pyslice) (sh : list Z) :
  length (getitem_shape sl sh) = length sh.
Proof.
  revert sh. induction sl as [|s sl IH]; intros [|n sh]; simpl; auto.
Qed.

Lemma getitem_ndim {A} (a a' : ndarray A) (sl : list pyslice) :
  getitem a sl = Ok a' -> ndim a' = ndim a.
Proof.
  unfold getitem. destruct (decide _); [|discriminate].
  intros [= <-]. unfold ndim. simpl. apply getitem_shape_length.
Qed.

Lemma getitem_shape_whole (m : nat) (sh : list Z) :
  Forall (fun x => 0 <= x) (take m sh) ->
  getitem_shape (replicate m slice_all) sh = sh.
Proof.
  revert sh. induction m as [|m IH]; intros [|n sh] H; simpl in *; auto.
  inversion H; subst. rewrite slice_length_all by assumption.
  f_equal. now apply IH.
Qed.

Lemma getitem_shape_axis (sh : list Z) (m k : nat) (sl : pyslice) (n : Z) :
  (k < m)%nat -> Forall (fun x => 0 <= x) (take m sh) -> sh !! k = Some n ->
  getitem_shape (<[k := sl]> (replicate m slice_all)) sh
  = <[k := slice_length sl n]> sh.
Proof.
  revert sh k. induction m as [|m IH]; intros [|x sh] k Hk Hnn Hn;
    try discriminate; try lia.
  simpl in Hnn. inversion Hnn; subst.
  destruct k as [|k]; simpl in *.
  - injection Hn as ->. f_equal. now apply getitem_shape_whole.
  - rewrite slice_length_all by assumption. f_equal. apply IH; [lia|auto..].
Qed.

Lemma getitem_starts_whole (m : nat) (sh : list Z) :
  (m <= length sh)%nat ->
  getitem_starts (replicate m slice_all) sh = replicate m 0.
Proof.
  revert sh. induction m as [|m IH]; intros [|n sh] H; simpl in *;
    try reflexivity; try lia.
  f_equal. apply IH. lia.
Qed.

Lemma getitem_starts_axis (sh : list Z) (m k : nat) (sl : pyslice) (n : Z) :
  (k < m <= length sh)%nat -> sh !! k = Some n ->
  getitem_starts (<[k := sl]> (replicate m slice_all)) sh
  = <[k := fst (slice_indices sl n)]> (replicate m 0).
Proof.
  revert sh k. induction m as [|m IH]; intros [|x sh] k Hk Hn;
    try discriminate; simpl in *; try lia.
  destruct k as [|k]; simpl in *.
  - injection Hn as ->. f_equal. apply getitem_starts_whole. lia.
  - f_equal. apply IH; [lia|assumption].
Qed.

(** ** Shifting a multi-index *)

Lemma shift_zeros (m : nat) (idx : list Z) : shift (replicate m 0) idx = idx.
Proof.
  revert idx. induction m as [|m IH]; intros [|i idx]; simpl; auto.
  now rewrite IH.
Qed.

Lemma shift_axis (m k : nat) (o : Z) (idx : list Z) :
  (k < m)%nat ->
  shift (<[k := o]> (replicate m 0)) idx = alter (Z.add o) k idx.
Proof.
  revert k idx. induction m as [|m IH]; intros k [|i idx] Hk; try lia.
  - destruct k; reflexivity.
  - destruct k as [|k]; simpl.
    + now rewrite shift_zeros.
    + f_equal. apply IH. lia.
Qed.

Lemma shift_app_alter (l : list Z) (o : Z) (idx : list Z) :
  shift l (alter (Z.add o) (length l) idx) = shift (l ++ [o]) idx.
Proof.
  revert idx. induction l as [|x l IH]; intros [|i idx]; try reflexivity.
  change (alter (Z.add o) (length (x :: l)) (i :: idx))
    with (i :: alter (Z.add o) (length l) idx).
  cbn [shift app]. now rewrite IH.
Qed.

Lemma shift_shift (l k idx : list Z) :
  length l = length k ->
  shift l (shift k idx) = shift (zip_with Z.add l k) idx.
Proof.
  revert k idx. induction l as [|x l IH]; intros [|y k] [|i idx] H;
    simpl in *; try discriminate; auto.
  rewrite IH by lia. f_equal. lia.
Qed.

(** Slicing axis [k] and keeping [m] leading axes whole on the others:
    the result has the length of the slice on that axis, and its entry at
    [idx] is the entry of the array at [idx] moved by the start of the
    slice on axis [k]. *)
Lemma getitem_axis {A} (a : ndarray A) (m k : nat) (sl : pyslice) (n : Z) :
  (k < m <= ndim a)%nat ->
  Forall (fun x => 0 <= x) (take m (arr_shape a)) ->
  arr_shape a !! k = Some n ->
  exists a',
    getitem a (<[k := sl]> (replicate m slice_all)) = Ok a'
    /\ arr_shape a' = <[k := slice_length sl n]> (arr_shape a)
    /\ forall idx,
         arr_item a' idx
         = arr_item a (alter (Z.add (fst (slice_indices sl n))) k idx).
Proof.
  intros Hk Hnn Hn. unfold getitem.
  rewrite decide_True by (rewrite length_insert, length_replicate; lia).
  eexists. split; [reflexivity|]. simpl. split.
  - apply getitem_shape_axis; [lia|assumption..].
  - intros idx. rewrite (getitem_starts_axis _ _ _ _ n) by (unfold ndim in Hk; auto).
    now rewrite shift_axis by lia.
Qed.

(** ** The crop loop, in general *)

Section CropOf.
Context {A : Type}.
Variables (shape blocksize blockoverlaps ijk : list Z).
Variable nslices : nat -> nat.
Hypothesis Hlen_bs : length shape = length blocksize.
Hypothesis Hlen_ov : length blockoverlaps = length blocksize.
Hypothesis Hov : Forall2 (fun b o => 0 <= o < b) blocksize blockoverlaps.
Hypothesis Hijk : ijk ∈ Np.ndindex (BlockPlanner.nblocks shape blocksize).

Let ext := BlockPlanner.block_coords shape blocksize blockoverlaps ijk.
Let can := BlockPlanner.canonical_coords shape blocksize ijk.
Let offs := zip_with (fun c e => start c - start e) can ext.

Lemma planned_axis_of (k : nat) :
  (k < length shape)%nat ->
  exists s b o i,
    shape !! k = Some s /\ blocksize !! k = Some b
    /\ blockoverlaps !! k = Some o /\ ijk !! k = Some i
    /\ 0 <= o < b /\ 0 <= i /\ b * i < s
    /\ ext !! k = Some (Slice (Z.max 0 (b * i - o)) (Z.min s (b * i + b + o)))
    /\ can !! k = Some (Slice (b * i) (Z.min s (b * i + b))).
Proof. now apply planned_axis. Qed.

Lemma length_ext_of : length ext = length shape.
Proof. now apply length_ext. Qed.

Lemma length_can_of : length can = length shape.
Proof. now apply (length_can shape blocksize blockoverlaps). Qed.

Lemma length_offs : length offs = length shape.
Proof.
  unfold offs. rewrite length_zip_with, length_ext_of, length_can_of. lia.
Qed.

(** One round of the loop: the length of the axis becomes the canonical
    one, the canonical slice is recorded, and the entries move by the
    distance between the canonical and the extended start. *)
Lemma crop_axis_of_canonical (a : ndarray A) (fin : list slice) (k : nat)
    (e c : slice) :
  nslices (ndim a) = length shape -> (length shape <= ndim a)%nat ->
  Forall (fun m => 0 <= m) (take (length shape) (arr_shape a)) ->
  ext !! k = Some e -> can !! k = Some c ->
  arr_shape a !! k = Some (stop e - start e) ->
  exists a',
    crop_axis_of nslices ext blocksize blockoverlaps (a, fin) k
    = Ok (a', fin ++ [c])
    /\ arr_shape a' = <[k := stop c - start c]> (arr_shape a)
    /\ forall idx,
         arr_item a' idx
         = arr_item a (alter (Z.add (start c - start e)) k idx).
Proof.
  intros Hns Hrank Hnn He Hc Hshape.
  assert (k < length shape)%nat as Hk
    by (rewrite <- length_ext_of; eapply lookup_lt_Some; eassumption).
  destruct (planned_axis_of k Hk)
    as (s & b & o & i & Hs & Hb & Ho & Hi & Hob & Hi0 & His & He' & Hc').
  rewrite He in He'. injection He' as ->.
  rewrite Hc in Hc'. injection Hc' as ->.
  simpl in Hshape. cbn [start stop].
  unfold crop_axis_of.
  rewrite (index_Some _ _ _ He). cbn [mbind result_bind start stop].
  remember (Z.max 0 (b * i - o)) as es eqn:Hes.
  remember (Z.min s (b * i + b + o)) as ee eqn:Hee.
  assert (es = 0 -> i = 0) as Hfirst by nia.
  (* left side *)
  assert (exists a1,
    (if decide (es <> 0)
     then ov ← index blockoverlaps k;
          block ←
            getitem a (<[k := slice_from ov]>
                         (replicate (nslices (ndim a)) slice_all));
          Ok (block, es + ov)
     else Ok (a, es)) = Ok (a1, b * i)
    /\ arr_shape a1 = <[k := ee - b * i]> (arr_shape a)
    /\ forall idx,
         arr_item a1 idx = arr_item a (alter (Z.add (b * i - es)) k idx))
    as (a1 & -> & Ha1 & Hitem1).
  { destruct (decide (es <> 0)) as [Hne|Heq].
    - rewrite (index_Some _ _ _ Ho). cbn [mbind result_bind]. rewrite Hns.
      destruct (getitem_axis a (length shape) k (slice_from o) _
                  ltac:(lia) Hnn Hshape) as (a1 & -> & Ha1 & Hitem1).
      cbn [mbind result_bind].
      exists a1. split; [f_equal; f_equal; lia|]. split.
      + rewrite Ha1, slice_length_from by lia. f_equal. lia.
      + intros idx. rewrite Hitem1. f_equal. f_equal. f_equal.
        unfold slice_indices, slice_from, clip_bound. simpl.
        destruct (Z.ltb_spec o 0); lia.
    - assert (es = 0) as Hes0 by lia. rewrite (Hfirst Hes0) in *.
      exists a. split; [f_equal; f_equal; lia|]. split.
      + symmetry. apply list_insert_id. rewrite Hshape. f_equal. lia.
      + intros idx. f_equal. symmetry. apply list_alter_id. intros x. lia. }
  cbn [mbind result_bind].
  assert (arr_shape a1 !! k = Some (ee - b * i)) as Hk1.
  { rewrite Ha1. apply list_lookup_insert_eq.
    eapply lookup_lt_Some; eassumption. }
  assert (Forall (fun m => 0 <= m) (take (length shape) (arr_shape a1)))
    as Hnn1.
  { rewrite Ha1, take_insert_lt by lia. apply Forall_insert; [assumption|lia]. }
  assert (ndim a1 = ndim a) as Hdim1
    by (unfold ndim; now rewrite Ha1, length_insert).
  rewrite (index_Some _ _ _ Hk1), (index_Some _ _ _ Hb).
  cbn [mbind result_bind].
  (* right side *)
  destruct (Z.ltb_spec b (ee - b * i)) as [Hlt|Hge].
  - rewrite Hdim1, Hns.
    destruct (getitem_axis a1 (length shape) k (slice_upto b) _
                ltac:(lia) Hnn1 Hk1) as (a2 & -> & Ha2 & Hitem2).
    cbn [mbind result_bind].
    rewrite slice_length_upto in Ha2 by lia.
    assert (arr_shape a2 !! k = Some b) as Hk2.
    { rewrite Ha2. apply list_lookup_insert_eq.
      eapply lookup_lt_Some; eassumption. }
    rewrite (index_Some _ _ _ Hk2). cbn [mbind result_bind].
    exists a2. split; [|split].
    + replace (Z.min s (b * i + b)) with (b * i + b) by lia. reflexivity.
    + rewrite Ha2, Ha1, list_insert_insert_eq. f_equal. lia.
    + intros idx. rewrite Hitem2, Hitem1. f_equal. f_equal.
      apply list_alter_id. intros x.
      unfold slice_indices, slice_upto, clip_bound. simpl. lia.
  - cbn [mbind result_bind]. exists a1. split; [|split].
    + replace (Z.min s (b * i + b)) with ee by lia. reflexivity.
    + rewrite Ha1. f_equal. lia.
    + assumption.
Qed.

(** The loop from axis [k] on. *)
Lemma crop_axes_of_canonical (m k : nat) (a a0 : ndarray A) (fin : list slice) :
  (k + m = length shape)%nat ->
  nslices (ndim a) = length shape -> (length shape <= ndim a)%nat ->
  (forall j c, (j < k)%nat -> can !! j = Some c ->
     arr_shape a !! j = Some (stop c - start c)) ->
  (forall j e, (k <= j)%nat -> ext !! j = Some e ->
     arr_shape a !! j = Some (stop e - start e)) ->
  (forall j, (length shape <= j)%nat -> arr_shape a !! j = arr_shape a0 !! j) ->
  (forall idx, arr_item a idx = arr_item a0 (shift (take k offs) idx)) ->
  exists a',
    crop_axes_of nslices ext blocksize blockoverlaps (seq k m) (a, fin)
    = Ok (a', fin ++ drop k can)
    /\ ndim a' = ndim a
    /\ (forall j c, can !! j = Some c ->
          arr_shape a' !! j = Some (stop c - start c))
    /\ (forall j, (length shape <= j)%nat ->
          arr_shape a' !! j = arr_shape a0 !! j)
    /\ forall idx, arr_item a' idx = arr_item a0 (shift offs idx).
Proof.
  revert k a fin.
  induction m as [|m IH]; intros k a fin Hkm Hns Hrank Hlo Hhi Htr Hitem.
  - exists a. simpl. split; [|split; [|split; [|split]]].
    + rewrite drop_ge by (rewrite length_can_of; lia). now rewrite app_nil_r.
    + reflexivity.
    + intros j c Hc. apply Hlo; [|assumption]. apply lookup_lt_Some in Hc.
      rewrite length_can_of in Hc. lia.
    + assumption.
    + intros idx. rewrite Hitem, take_ge by (rewrite length_offs; lia).
      reflexivity.
  - assert (k < length shape)%nat as Hk by lia.
    destruct (planned_axis_of k Hk)
      as (s & b & o & i & Hs & Hb & Ho & Hi & Hob & Hi0 & His & He & Hc).
    assert (Forall (fun x => 0 <= x) (take (length shape) (arr_shape a)))
      as Hnn.
    { apply Forall_lookup. intros j x Hx.
      apply lookup_take_Some in Hx as [Hx Hj].
      destruct (planned_axis_of j Hj)
        as (s' & b' & o' & i' & _ & _ & _ & _ & ? & ? & ? & He' & Hc').
      destruct (Nat.lt_ge_cases j k) as [Hjk|Hjk].
      - rewrite (Hlo _ _ Hjk Hc') in Hx. injection Hx as <-. simpl. nia.
      - rewrite (Hhi _ _ Hjk He') in Hx. injection Hx as <-. simpl. nia. }
    destruct (crop_axis_of_canonical a fin k _ _ Hns Hrank Hnn He Hc
                (Hhi _ _ (Nat.le_refl k) He))
      as (a1 & Hstep & Ha1 & Hitem1).
    cbn [seq crop_axes_of]. rewrite Hstep. cbn [mbind result_bind].
    assert (ndim a1 = ndim a) as Hdim1
      by (unfold ndim; now rewrite Ha1, length_insert).
    destruct (IH (S k) a1 (fin ++ [Slice (b * i) (Z.min s (b * i + b))]))
      as (a' & Hrest & Hdim' & Hshape' & Htr' & Hitem').
    + lia.
    + now rewrite Hdim1.
    + now rewrite Hdim1.
    + intros j c Hj Hcj. rewrite Ha1.
      destruct (decide (j = k)) as [->|Hne].
      * rewrite Hc in Hcj. injection Hcj as <-.
        apply list_lookup_insert_eq. unfold ndim in Hrank. lia.
      * rewrite list_lookup_insert_ne by congruence. apply Hlo; [lia|assumption].
    + intros j e Hj Hej. rewrite Ha1.
      rewrite list_lookup_insert_ne by lia. apply Hhi; [lia|assumption].
    + intros j Hj. rewrite Ha1, list_lookup_insert_ne by lia. now apply Htr.
    + intros idx. rewrite Hitem1, Hitem. f_equal.
      assert (offs !! k = Some (b * i - Z.max 0 (b * i - o))) as Hoff.
      { unfold offs. rewrite lookup_zip_with, Hc, He. reflexivity. }
      rewrite (take_S_r _ _ _ Hoff). cbn [start].
      rewrite <- shift_app_alter. f_equal. f_equal.
      rewrite length_take, length_offs. lia.
    + exists a'. split; [|split; [|split; [|split]]]; try assumption.
      * rewrite Hrest, <- app_assoc. simpl. now rewrite (drop_S _ _ _ Hc).
      * congruence.
Qed.

(** The whole loop on an array whose leading axes are those of the
    extended block, followed by any trailing axes. *)
Lemma crop_axes_of_planned (a0 : ndarray A) (trailing : list Z) :
  nslices (length shape + length trailing) = length shape ->
  arr_shape a0 = ((fun e => stop e - start e) <$> ext) ++ trailing ->
  exists a',
    crop_axes_of nslices ext blocksize blockoverlaps
      (seq 0 (nslices (ndim a0))) (a0, [])
    = Ok (a', can)
    /\ arr_shape a' = ((fun c => stop c - start c) <$> can) ++ trailing
    /\ forall idx, arr_item a' idx = arr_item a0 (shift offs idx).
Proof.
  intros Hns Hshape.
  assert (ndim a0 = (length shape + length trailing)%nat) as Hdim.
  { unfold ndim. now rewrite Hshape, length_app, length_fmap, length_ext_of. }
  destruct (crop_axes_of_canonical (length shape) 0 a0 a0 [])
    as (a' & Hloop & Hdim' & Hcan & Htr & Hitem).
  - reflexivity.
  - now rewrite Hdim.
  - lia.
  - intros j c Hj. lia.
  - intros j e _ He. rewrite Hshape, lookup_app_l
      by (rewrite length_fmap; eapply lookup_lt_Some; eassumption).
    now rewrite list_lookup_fmap, He.
  - reflexivity.
  - intros idx. now rewrite take_0.
  - exists a'. rewrite Hdim, Hns. split; [exact Hloop|]. split; [|assumption].
    apply list_eq. intros j.
    destruct (Nat.lt_ge_cases j (length shape)) as [Hj|Hj].
    + rewrite lookup_app_l by (rewrite length_fmap, length_can_of; lia).
      rewrite list_lookup_fmap.
      destruct (lookup_lt_is_Some_2 can j) as [c Hc];
        [rewrite length_can_of; lia|].
      rewrite Hc. simpl. now apply Hcan.
    + rewrite Htr, Hshape by assumption.
      rewrite !lookup_app_r by (rewrite length_fmap, ?length_can_of,
                                  ?length_ext_of; lia).
      now rewrite !length_fmap, length_can_of, length_ext_of.
Qed.

End CropOf.

(** ** The four copies of the crop loop *)

Lemma transform_crop_axes_of {A} (block_coords : list slice)
    (blocksize blockoverlaps : list Z) (axes : list nat)
    (st : ndarray A * list slice) :
  DistributedTransform.crop_axes block_coords blocksize blockoverlaps axes st
  = crop_axes_of (fun n => n) block_coords blocksize blockoverlaps axes st.
Proof.
  revert st. induction axes as [|axis axes IH]; intros st; [reflexivity|].
  cbn [DistributedTransform.crop_axes crop_axes_of].
  change (DistributedTransform.crop_axis block_coords blocksize blockoverlaps
            st axis)
    with (crop_axis_of (fun n => n) block_coords blocksize blockoverlaps
            st axis).
  destruct (crop_axis_of _ _ _ _ st axis); cbn [mbind result_bind]; auto.
Qed.

Lemma invert_crop_axes_of {V} (block_coords : list slice)
    (blocksize blockoverlaps : list Z) (axes : list nat)
    (st : ndarray V * list slice) :
  DistributedInvert.crop_axes block_coords blocksize blockoverlaps axes st
  = crop_axes_of (fun n => (n - 1)%nat) block_coords blocksize blockoverlaps
      axes st.
Proof.
  revert st. induction axes as [|axis axes IH]; intros st; [reflexivity|].
  cbn [DistributedInvert.crop_axes crop_axes_of].
  change (DistributedInvert.crop_axis block_coords blocksize blockoverlaps
            st axis)
    with (crop_axis_of (fun n => (n - 1)%nat) block_coords blocksize
            blockoverlaps st axis).
  destruct (crop_axis_of _ _ _ _ st axis); cbn [mbind result_bind]; auto.
Qed.

Lemma index_after_getitem {A} (a a' : ndarray A) (sl : list pyslice)
    (k : nat) (n : Z) :
  getitem a sl = Ok a' -> index (arr_shape a) k = Ok n ->
  exists n', index (arr_shape a') k = Ok n'.
Proof.
  intros Hget Hn. apply getitem_ndim in Hget. unfold ndim in Hget.
  unfold index in *.
  destruct (arr_shape a !! k) eqn:E; [|discriminate].
  apply lookup_lt_Some in E. rewrite <- Hget in E.
  apply lookup_lt_is_Some_2 in E as [n' ->]. now exists n'.
Qed.

(** The loops that keep no placement give the array of the loop that
    keeps it. *)
Ltac erase_crop_axis :=
  repeat match goal with
  | |- context [index ?l ?k] =>
      lazymatch goal with
      | H : index l k = _ |- _ => rewrite H
      | _ => let E := fresh "E" in destruct (index l k) eqn:E
      end; cbn [mbind result_bind fmap result_fmap]; try reflexivity
  | |- context [decide ?P] =>
      destruct (decide P); cbn [mbind result_bind fmap result_fmap];
      try reflexivity
  | |- context [?b <? ?n] =>
      destruct (b <? n); cbn [mbind result_bind fmap result_fmap];
      try reflexivity
  | |- context [getitem ?a ?sl] =>
      let G := fresh "G" in
      destruct (getitem a sl) eqn:G;
      cbn [mbind result_bind fmap result_fmap]; try reflexivity
  end.

Lemma resample_crop_axis_of {V} (fix_slices : list slice)
    (blocksize overlap : list Z) (aligned : ndarray V) (fin : list slice)
    (axis : nat) :
  PiecewiseResample.crop_axis fix_slices blocksize overlap aligned axis
  = fst <$> crop_axis_of (fun n => n) fix_slices blocksize overlap
              (aligned, fin) axis.
Proof.
  unfold PiecewiseResample.crop_axis, crop_axis_of.
  erase_crop_axis;
    match goal with
    | G : getitem ?a _ = Ok ?a', E : index (arr_shape ?a) axis = Ok _,
      E' : index (arr_shape ?a') axis = Raise _ |- _ =>
        destruct (index_after_getitem _ _ _ _ _ G E) as [? ?]; congruence
    end.
Qed.

Lemma resample_crop_axes_of {V} (fix_slices : list slice)
    (blocksize overlap : list Z) (axes : list nat) (aligned : ndarray V)
    (fin : list slice) :
  PiecewiseResample.crop_axes fix_slices blocksize overlap axes aligned
  = fst <$> crop_axes_of (fun n => n) fix_slices blocksize overlap axes
              (aligned, fin).
Proof.
  revert aligned fin. induction axes as [|axis axes IH]; intros aligned fin;
    [reflexivity|].
  cbn [PiecewiseResample.crop_axes crop_axes_of].
  rewrite (resample_crop_axis_of _ _ _ _ fin).
  destruct (crop_axis_of _ _ _ _ (aligned, fin) axis) as [[a1 fin1]|e];
    cbn [mbind result_bind fmap result_fmap fst]; [apply IH|reflexivity].
Qed.

Lemma pinvert_crop_axis_of {V} (slices_overlaps : list slice)
    (blocksize overlap : list Z) (inverse : ndarray V) (fin : list slice)
    (axis : nat) :
  PiecewiseInvert.crop_axis slices_overlaps blocksize overlap inverse axis
  = fst <$> crop_axis_of (fun n => (n - 1)%nat) slices_overlaps blocksize
              overlap (inverse, fin) axis.
Proof.
  unfold PiecewiseInvert.crop_axis, crop_axis_of.
  erase_crop_axis;
    match goal with
    | G : getitem ?a _ = Ok ?a', E : index (arr_shape ?a) axis = Ok _,
      E' : index (arr_shape ?a') axis = Raise _ |- _ =>
        destruct (index_after_getitem _ _ _ _ _ G E) as [? ?]; congruence
    end.
Qed.

Lemma pinvert_crop_axes_of {V} (slices_overlaps : list slice)
    (blocksize overlap : list Z) (axes : list nat) (inverse : ndarray V)
    (fin : list slice) :
  PiecewiseInvert.crop_axes slices_overlaps blocksize overlap axes inverse
  = fst <$> crop_axes_of (fun n => (n - 1)%nat) slices_overlaps blocksize
              overlap axes (inverse, fin).
Proof.
  revert inverse fin. induction axes as [|axis axes IH]; intros inverse fin;
    [reflexivity|].
  cbn [PiecewiseInvert.crop_axes crop_axes_of].
  rewrite (pinvert_crop_axis_of _ _ _ _ fin).
  destruct (crop_axis_of _ _ _ _ (inverse, fin) axis) as [[a1 fin1]|e];
    cbn [mbind result_bind fmap result_fmap fst]; [apply IH|reflexivity].
Qed.

(** ** Writing a region of an array *)

Lemma in_extent_Forall2 (v : list Z) (blk : list slice) :
  in_extent v blk = true <-> Forall2 (fun x s => start s <= x < stop s) v blk.
Proof.
  revert blk. induction v as [|x v IH]; intros [|s blk]; simpl.
  - split; [constructor|reflexivity].
  - split; [discriminate|inversion 1].
  - split; [discriminate|inversion 1].
  - rewrite !andb_true_iff, IH, Z.leb_le, Z.ltb_lt. split.
    + intros [[? ?] ?]. constructor; [lia|assumption].
    + inversion 1; subst. repeat split; [lia..|assumption].
Qed.

Lemma getitem_shape_slices (sl : list slice) (sh : list Z) :
  Forall2 (fun s n => 0 <= start s <= stop s /\ stop s <= n) sl
          (take (length sl) sh) ->
  getitem_shape (slice_of <$> sl) sh
  = ((fun s => stop s - start s) <$> sl) ++ drop (length sl) sh.
Proof.
  revert sh. induction sl as [|s sl IH]; intros sh H.
  - destruct sh; reflexivity.
  - destruct sh as [|n sh]; [inversion H|].
    simpl in H. inversion H as [|? ? ? ? Hs Hrest]; subst.
    cbn [fmap list_fmap getitem_shape length drop app]. f_equal.
    + unfold slice_length, slice_indices, slice_of, clip_bound. simpl.
      destruct (Z.ltb_spec (start s) 0), (Z.ltb_spec (stop s) 0); lia.
    + now apply IH.
Qed.

Lemma getitem_starts_slices (sl : list slice) (sh : list Z) :
  Forall2 (fun s n => 0 <= start s <= stop s /\ stop s <= n) sl
          (take (length sl) sh) ->
  getitem_starts (slice_of <$> sl) sh = start <$> sl.
Proof.
  revert sh. induction sl as [|s sl IH]; intros sh H.
  - destruct sh; reflexivity.
  - destruct sh as [|n sh]; [inversion H|].
    simpl in H. inversion H as [|? ? ? ? Hs Hrest]; subst.
    cbn [fmap list_fmap getitem_starts]. f_equal.
    + unfold slice_indices, slice_of, clip_bound. simpl.
      destruct (Z.ltb_spec (start s) 0); lia.
    + now apply IH.
Qed.

Lemma region_slices (sl : list slice) (rest : list Z) :
  zip_with (fun o n => Slice o (o + n)) (start <$> sl)
           (((fun s => stop s - start s) <$> sl) ++ rest)
  = sl.
Proof.
  induction sl as [|[a b] sl IH]; [reflexivity|].
  cbn [fmap list_fmap app zip_with start stop]. f_equal; [f_equal; lia|].
  exact IH.
Qed.

(** [a[slices] = v] for slices within the bounds of the array and a value
    of the shape of the region: the assignment succeeds, the shape stays,
    the entries of the region become those of [v] and the others stay. *)
Lemma setitem_region {A} (a v : ndarray A) (sl : list slice) :
  (length sl <= ndim a)%nat ->
  Forall2 (fun s n => 0 <= start s <= stop s /\ stop s <= n) sl
          (take (length sl) (arr_shape a)) ->
  arr_shape v
  = ((fun s => stop s - start s) <$> sl) ++ drop (length sl) (arr_shape a) ->
  exists a',
    setitem a sl v = Ok a'
    /\ arr_shape a' = arr_shape a
    /\ forall idx,
         arr_item a' idx
         = if in_extent (take (length sl) idx) sl
           then arr_item v (shift (Z.opp <$> (start <$> sl)) idx)
           else arr_item a idx.
Proof.
  intros Hlen Hsl Hv. unfold setitem. cbv zeta.
  rewrite decide_True by assumption.
  rewrite getitem_shape_slices, decide_True by assumption.
  rewrite getitem_starts_slices by assumption.
  rewrite Hv, region_slices.
  eexists. split; [reflexivity|]. split; reflexivity.
Qed.

(** ** The canonical tiles *)

Section Tiles.
Variables (shape blocksize : list Z).
Hypothesis Hlen : length shape = length blocksize.
Hypothesis Hpos : Forall (fun b => 0 < b) blocksize.

Let can := BlockPlanner.canonical_coords shape blocksize.
Let nb := Np.ndindex (BlockPlanner.nblocks shape blocksize).

Lemma length_nblocks : length (BlockPlanner.nblocks shape blocksize) = length shape.
Proof.
  unfold BlockPlanner.nblocks, Np.qdiv, Np.of_ints.
  rewrite length_fmap, length_zip_with, !length_fmap. lia.
Qed.

Lemma length_ijk (ijk : list Z) : ijk ∈ nb -> length ijk = length shape.
Proof.
  intros H. apply elem_of_ndindex, Forall2_length in H.
  now rewrite H, length_nblocks.
Qed.

Lemma length_canonical (ijk : list Z) :
  ijk ∈ nb -> length (can ijk) = length shape.
Proof.
  intros H. apply length_ijk in H.
  unfold can, BlockPlanner.canonical_coords, Np.minimum, Np.add, Np.mul.
  repeat rewrite ?length_zip_with, ?length_fmap. lia.
Qed.

(** The data of one axis of a canonical tile. *)
Lemma canonical_axis (ijk : list Z) (k : nat) :
  ijk ∈ nb -> (k < length shape)%nat ->
  exists s b n i,
    shape !! k = Some s /\ blocksize !! k = Some b
    /\ BlockPlanner.nblocks shape blocksize !! k = Some n
    /\ ijk !! k = Some i
    /\ 0 < b /\ 0 <= i < n /\ b * (n - 1) < s <= b * n
    /\ can ijk !! k = Some (Slice (b * i) (Z.min s (b * i + b))).
Proof.
  intros Hijk Hk.
  destruct (lookup_lt_is_Some_2 shape k Hk) as [s Hs].
  destruct (lookup_lt_is_Some_2 blocksize k ltac:(lia)) as [b Hb].
  pose proof (proj1 (Forall_lookup _ _) Hpos k b Hb) as Hbpos. simpl in Hbpos.
  pose proof (nblocks_lookup _ _ _ _ _ Hs Hb) as Hn.
  pose proof Hijk as Hidx. apply elem_of_ndindex in Hidx.
  destruct (Forall2_lookup_r _ _ _ _ _ Hidx Hn) as (i & Hi & Hrange).
  pose proof (ceil_div_bounds s b Hbpos) as Hceil. simpl in Hceil.
  exists s, b, (Np.ceil (inject_Z s / inject_Z b)), i.
  repeat split; try assumption; try lia.
  now apply canonical_coords_lookup.
Qed.

(** A canonical tile lies within the volume, with its bounds in order. *)
Lemma canonical_within (ijk : list Z) (rest : list Z) :
  ijk ∈ nb ->
  Forall2 (fun s n => 0 <= start s <= stop s /\ stop s <= n) (can ijk)
          (take (length (can ijk)) (shape ++ rest)).
Proof.
  intros Hijk. rewrite length_canonical by assumption.
  rewrite take_app_le, take_ge by lia.
  apply Forall2_same_length_lookup. split.
  - now rewrite length_canonical.
  - intros k c s Hc Hs.
    destruct (canonical_axis ijk k Hijk)
      as (s' & b & n & i & Hs' & _ & _ & _ & ? & ? & ? & Hc');
      [eapply lookup_lt_Some; eassumption|].
    rewrite Hc in Hc'. injection Hc' as ->.
    rewrite Hs in Hs'. injection Hs' as <-. simpl. nia.
Qed.

(** Two tiles that hold the same voxel are the same tile. *)
Lemma canonical_extent_unique (ijk ijk' v : list Z) :
  ijk ∈ nb -> ijk' ∈ nb ->
  in_extent v (can ijk) = true -> in_extent v (can ijk') = true ->
  ijk = ijk'.
Proof.
  intros Hijk Hijk' Hv Hv'.
  apply in_extent_Forall2 in Hv, Hv'.
  apply list_eq_same_length with (length shape);
    [now apply length_ijk..|].
  intros k i i' Hk Hi Hi'.
  destruct (canonical_axis ijk k Hijk Hk)
    as (s & b & n & i0 & Hs & Hb & _ & Hi0 & ? & ? & ? & Hc).
  destruct (canonical_axis ijk' k Hijk' Hk)
    as (s' & b' & n' & i0' & Hs' & Hb' & _ & Hi0' & ? & ? & ? & Hc').
  rewrite Hi in Hi0. injection Hi0 as <-.
  rewrite Hi' in Hi0'. injection Hi0' as <-.
  rewrite Hs in Hs'. injection Hs' as <-.
  rewrite Hb in Hb'. injection Hb' as <-.
  destruct (Forall2_lookup_r _ _ _ _ _ Hv Hc) as (x & Hx & Hx1).
  destruct (Forall2_lookup_r _ _ _ _ _ Hv' Hc') as (x' & Hx' & Hx1').
  rewrite Hx in Hx'. injection Hx' as <-. simpl in *. nia.
Qed.

(** Every voxel of the volume lies in a tile. *)
Lemma canonical_extent_exists (v : list Z) :
  in_volume v shape = true ->
  exists ijk, ijk ∈ nb /\ in_extent v (can ijk) = true.
Proof.
  unfold nb, can. clear nb can. revert blocksize Hlen Hpos v.
  induction shape as [|s sh IH]; intros [|b bs] Hlen Hpos [|x v] Hv;
    try discriminate.
  - exists []. split; [now left|reflexivity].
  - injection Hlen as Hlen. inversion Hpos as [|? ? Hb Hpos']; subst.
    cbn [in_volume] in Hv. apply andb_true_iff in Hv as [Hx Hv].
    apply andb_true_iff in Hx as [Hx0 Hxs].
    apply Z.leb_le in Hx0. apply Z.ltb_lt in Hxs.
    destruct (IH bs Hlen Hpos' v Hv) as (ijk & Hijk & Hin).
    pose proof (ceil_div_bounds s b Hb) as Hceil. simpl in Hceil.
    exists (x / b :: ijk). split.
    + apply elem_of_ndindex.
      change (BlockPlanner.nblocks (s :: sh) (b :: bs))
        with (Np.ceil (inject_Z s / inject_Z b) :: BlockPlanner.nblocks sh bs).
      constructor; [|now apply elem_of_ndindex].
      split; [apply Z.div_pos; lia|].
      apply Z.div_lt_upper_bound; [lia|]. nia.
    + change (BlockPlanner.canonical_coords (s :: sh) (b :: bs) (x / b :: ijk))
        with (Slice (b * (x / b)) (Z.min s (b * (x / b) + b))
                :: BlockPlanner.canonical_coords sh bs ijk).
      cbn [in_extent start stop]. rewrite Hin, andb_true_r.
      apply andb_true_iff. split; [apply Z.leb_le|apply Z.ltb_lt].
      * apply Z.mul_div_le. lia.
      * pose proof (Z.mod_pos_bound x b Hb).
        pose proof (Z.div_mod x b ltac:(lia)). lia.
Qed.

(** A voxel of a tile is a voxel of the volume. *)
Lemma canonical_extent_in_volume (ijk v : list Z) :
  ijk ∈ nb -> in_extent v (can ijk) = true -> in_volume v shape = true.
Proof.
  intros Hijk Hv. apply in_extent_Forall2 in Hv.
  pose proof (canonical_within ijk [] Hijk) as Hw.
  rewrite app_nil_r, length_canonical, take_ge in Hw by (assumption || lia).
  clear Hijk. unfold can in *. clear can nb.
  revert Hv Hw. generalize (BlockPlanner.canonical_coords shape blocksize ijk).
  clear. revert v. induction shape as [|s sh IH]; intros v l Hv Hw.
  - inversion Hw; subst. inversion Hv; subst. reflexivity.
  - inversion Hw as [|c ? l' ? Hc Hw']; subst.
    inversion Hv as [|x ? v' ? Hx Hv']; subst.
    cbn [in_volume]. rewrite (IH v' l' Hv' Hw'), andb_true_r.
    apply andb_true_iff. split; [apply Z.leb_le|apply Z.ltb_lt]; lia.
Qed.

(** ** Writing the blocks into the output *)

Context {V : Type}.
Variable trailing : list Z.
Variable blk : list Z -> ndarray V.
Hypothesis Hblk :
  forall ijk, ijk ∈ nb ->
    arr_shape (blk ijk)
    = ((fun c => stop c - start c) <$> can ijk) ++ trailing.

(** The entry of block [ijk] that goes to position [idx] of the output. *)
Let val (ijk idx : list Z) : V :=
  arr_item (blk ijk) (shift (Z.opp <$> (start <$> can ijk)) idx).

(** The output [out] holds the blocks of [done] on top of [out0]. *)
Let assembled (done : list Z -> Prop) (out0 out : ndarray V) : Prop :=
  arr_shape out = arr_shape out0
  /\ forall idx,
       (forall ijk, ijk ∈ nb -> done ijk ->
          in_extent (take (length shape) idx) (can ijk) = true ->
          arr_item out idx = val ijk idx)
       /\ ((forall ijk, ijk ∈ nb -> done ijk ->
              in_extent (take (length shape) idx) (can ijk) = false) ->
           arr_item out idx = arr_item out0 idx).

Lemma assembled_nothing (out0 : ndarray V) :
  assembled (fun _ => False) out0 out0.
Proof. split; [reflexivity|]. intros idx. split; [contradiction|reflexivity]. Qed.

Lemma assembled_iff (done done' : list Z -> Prop) (out0 out : ndarray V) :
  (forall j, j ∈ nb -> done j <-> done' j) ->
  assembled done out0 out -> assembled done' out0 out.
Proof.
  intros Hiff [Hshape Hinv]. split; [assumption|].
  intros idx. specialize (Hinv idx) as [Hdone Hnone]. split.
  - intros j Hj Hdj. apply Hdone; [assumption|]. now apply Hiff.
  - intros Hall. apply Hnone. intros j Hj Hdj. apply Hall; [assumption|].
    now apply Hiff.
Qed.

(** Writing one more block keeps the blocks written before. *)
Lemma assembled_step (done : list Z -> Prop) (out0 out : ndarray V)
    (ijk : list Z) :
  arr_shape out0 = shape ++ trailing ->
  ijk ∈ nb -> assembled done out0 out ->
  exists out',
    setitem out (can ijk) (blk ijk) = Ok out'
    /\ assembled (fun j => j = ijk \/ done j) out0 out'.
Proof.
  intros Hout0 Hijk [Hshape Hinv].
  destruct (setitem_region out (blk ijk) (can ijk))
    as (out' & Hset & Hshape' & Hitem).
  - unfold ndim. rewrite Hshape, Hout0, length_app, length_canonical by assumption.
    lia.
  - rewrite Hshape, Hout0. now apply canonical_within.
  - rewrite Hblk, Hshape, Hout0, length_canonical by assumption.
    now rewrite drop_app_length.
  - exists out'. split; [assumption|]. split; [congruence|].
    rewrite length_canonical in Hitem by assumption.
    intros idx. specialize (Hinv idx) as [Hdone Hnone]. rewrite Hitem. split.
    + intros j Hj Hdj Hin.
      destruct (in_extent (take (length shape) idx) (can ijk)) eqn:Hin0.
      * assert (j = ijk) as -> by (eapply canonical_extent_unique; eassumption).
        reflexivity.
      * destruct Hdj as [->|Hdj]; [congruence|]. now apply Hdone.
    + intros Hall.
      rewrite (Hall ijk Hijk) by now left.
      apply Hnone. intros j Hj Hdj. apply Hall; [assumption|now right].
Qed.

(** The loop of [distributed_apply_transform] over the completed
    futures, each of which holds a block with its canonical slices. *)
Lemma write_blocks_assembled (order : list (list Z))
    (done : list Z -> Prop) (out0 out1 : ndarray V) :
  arr_shape out0 = shape ++ trailing ->
  Forall (fun ijk => ijk ∈ nb) order ->
  assembled done out0 out1 ->
  exists out,
    DistributedTransform.write_blocks (Some out1)
      ((fun ijk => Ok (can ijk, blk ijk)) <$> order)
    = (Some out, Ok tt)
    /\ assembled (fun j => j ∈ order \/ done j) out0 out.
Proof.
  intros Hout0 Hall. revert done out1.
  induction Hall as [|ijk order Hijk Hrest IH]; intros done out1 Has.
  - exists out1. split; [reflexivity|].
    eapply assembled_iff; [|exact Has].
    intros j _. split; [now right|]. intros [H|H]; [inversion H|assumption].
  - destruct (assembled_step done out0 out1 ijk Hout0 Hijk Has)
      as (out2 & Hset & Has2).
    rewrite fmap_cons. cbn [DistributedTransform.write_blocks]. rewrite Hset.
    destruct (IH _ out2 Has2) as (out & Hrun & Has').
    exists out. split; [assumption|].
    eapply assembled_iff; [|exact Has'].
    intros j _. rewrite elem_of_cons. tauto.
Qed.

(** The write tasks of [distributed_invert_displacement_vector_field]. *)
Lemma invert_write_tasks_assembled (order : list (list Z))
    (done : list Z -> Prop) (out0 out1 : ndarray V) :
  arr_shape out0 = shape ++ trailing ->
  Forall (fun ijk => ijk ∈ nb) order ->
  assembled done out0 out1 ->
  exists out,
    DistributedInvert.write_tasks (Some out1)
      ((fun ijk => Ok (can ijk, blk ijk)) <$> order)
    = (Some out, Ok tt)
    /\ assembled (fun j => j ∈ order \/ done j) out0 out.
Proof.
  intros Hout0 Hall. revert done out1.
  induction Hall as [|ijk order Hijk Hrest IH]; intros done out1 Has.
  - exists out1. split; [reflexivity|].
    eapply assembled_iff; [|exact Has].
    intros j _. split; [now right|]. intros [H|H]; [inversion H|assumption].
  - destruct (assembled_step done out0 out1 ijk Hout0 Hijk Has)
      as (out2 & Hset & Has2).
    rewrite fmap_cons.
    cbn [DistributedInvert.write_tasks DistributedInvert._write_block].
    rewrite Hset.
    destruct (IH _ out2 Has2) as (out & Hrun & Has').
    exists out. split; [assumption|].
    eapply assembled_iff; [|exact Has'].
    intros j _. rewrite elem_of_cons. tauto.
Qed.

(** The loop "reconstruct output" of [piecewise_transform.py]: a future
    is found again by its position in the list of futures. *)
Lemma reconstruct_assembled (order : list (nat * list Z))
    (done : list Z -> Prop) (out0 out1 : ndarray V) :
  arr_shape out0 = shape ++ trailing ->
  Forall (fun p => nb !! p.1 = Some p.2) order ->
  assembled done out0 out1 ->
  exists out,
    PiecewiseInvert.reconstruct out1 (can <$> nb)
      ((fun p => (p.1, Ok (blk p.2))) <$> order)
    = Ok out
    /\ assembled (fun j => j ∈ (snd <$> order) \/ done j) out0 out.
Proof.
  intros Hout0 Hall. revert done out1.
  induction Hall as [|[iii ijk] order Hijk Hrest IH]; intros done out1 Has.
  - exists out1. split; [reflexivity|].
    eapply assembled_iff; [|exact Has].
    intros j _. split; [now right|]. intros [H|H]; [inversion H|assumption].
  - simpl in Hijk.
    assert (ijk ∈ nb) as Hin by (eapply list_elem_of_lookup_2; eassumption).
    destruct (assembled_step done out0 out1 ijk Hout0 Hin Has)
      as (out2 & Hset & Has2).
    rewrite fmap_cons. cbn [PiecewiseInvert.reconstruct fst snd].
    unfold index. rewrite list_lookup_fmap, Hijk.
    cbn [fmap option_fmap option_map mbind result_bind]. rewrite Hset.
    cbn [mbind result_bind].
    destruct (IH _ out2 Has2) as (out & Hrun & Has').
    exists out. split; [assumption|].
    eapply assembled_iff; [|exact Has'].
    intros j _. rewrite fmap_cons, elem_of_cons. simpl. tauto.
Qed.

(** The tasks of [piecewise_transform.py] that write their block
    themselves. *)
Lemma piecewise_write_tasks_assembled (order : list (nat * list Z))
    (done : list Z -> Prop) (out0 out1 : ndarray V) :
  arr_shape out0 = shape ++ trailing ->
  Forall (fun p => p.2 ∈ nb) order ->
  assembled done out0 out1 ->
  exists out,
    PiecewiseInvert.write_tasks out1
      ((fun p => (p.1, (can p.2, Ok (blk p.2)))) <$> order)
    = Ok out
    /\ assembled (fun j => j ∈ (snd <$> order) \/ done j) out0 out.
Proof.
  intros Hout0 Hall. revert done out1.
  induction Hall as [|[iii ijk] order Hijk Hrest IH]; intros done out1 Has.
  - exists out1. split; [reflexivity|].
    eapply assembled_iff; [|exact Has].
    intros j _. split; [now right|]. intros [H|H]; [inversion H|assumption].
  - simpl in Hijk.
    destruct (assembled_step done out0 out1 ijk Hout0 Hijk Has)
      as (out2 & Hset & Has2).
    rewrite fmap_cons. cbn [PiecewiseInvert.write_tasks fst snd].
    rewrite Hset. cbn [mbind result_bind].
    destruct (IH _ out2 Has2) as (out & Hrun & Has').
    exists out. split; [assumption|].
    eapply assembled_iff; [|exact Has'].
    intros j _. rewrite fmap_cons, elem_of_cons. simpl. tauto.
Qed.

(** When every tile has been written, every voxel of the volume holds the
    entry of its tile, and the entries outside the volume are those of the
    array the loop started from. *)
Lemma assembled_all (done : list Z -> Prop) (out0 out : ndarray V) :
  (forall ijk, ijk ∈ nb -> done ijk) ->
  assembled done out0 out ->
  arr_shape out = arr_shape out0
  /\ (forall idx,
        in_volume (take (length shape) idx) shape = true ->
        exists ijk,
          ijk ∈ nb
          /\ in_extent (take (length shape) idx) (can ijk) = true
          /\ arr_item out idx
             = arr_item (blk ijk) (shift (Z.opp <$> (start <$> can ijk)) idx))
  /\ forall idx,
       in_volume (take (length shape) idx) shape = false ->
       arr_item out idx = arr_item out0 idx.
Proof.
  intros Hdone [Hshape Hinv]. split; [assumption|]. split.
  - intros idx Hvol.
    destruct (canonical_extent_exists _ Hvol) as (ijk & Hijk & Hin).
    exists ijk. split; [assumption|]. split; [assumption|].
    apply (proj1 (Hinv idx)); auto.
  - intros idx Hvol. apply (proj2 (Hinv idx)).
    intros ijk Hijk _.
    destruct (in_extent (take (length shape) idx) (can ijk)) eqn:Hin;
      [|reflexivity].
    apply canonical_extent_in_volume in Hin; [congruence|assumption].
Qed.

Lemma elem_of_imap_pair {A} (l : list A) (i : nat) (x : A) :
  (i, x) ∈ imap pair l <-> l !! i = Some x.
Proof.
  rewrite elem_of_lookup_imap. split.
  - intros (j & y & [= -> ->] & H). exact H.
  - intros H. now exists i, x.
Qed.

(** The four loops on the blocks of a whole run, in any order. *)
Lemma write_blocks_complete (order : list (list Z)) (out0 : ndarray V) :
  arr_shape out0 = shape ++ trailing ->
  order ≡ₚ nb ->
  exists out,
    DistributedTransform.write_blocks (Some out0)
      ((fun ijk => Ok (can ijk, blk ijk)) <$> order)
    = (Some out, Ok tt)
    /\ arr_shape out = arr_shape out0
    /\ (forall idx,
          in_volume (take (length shape) idx) shape = true ->
          exists ijk,
            ijk ∈ nb
            /\ in_extent (take (length shape) idx) (can ijk) = true
            /\ arr_item out idx
               = arr_item (blk ijk)
                   (shift (Z.opp <$> (start <$> can ijk)) idx))
    /\ forall idx,
         in_volume (take (length shape) idx) shape = false ->
         arr_item out idx = arr_item out0 idx.
Proof.
  intros Hout0 Hperm.
  destruct (write_blocks_assembled order (fun _ => False) out0 out0 Hout0)
    as (out & Hrun & Has).
  - apply Forall_forall. intros ijk Hijk. now rewrite <- Hperm.
  - apply assembled_nothing.
  - exists out. split; [assumption|].
    eapply assembled_all; [|exact Has].
    intros ijk Hijk. left. now rewrite Hperm.
Qed.

Lemma invert_write_tasks_complete (order : list (list Z)) (out0 : ndarray V) :
  arr_shape out0 = shape ++ trailing ->
  order ≡ₚ nb ->
  exists out,
    DistributedInvert.write_tasks (Some out0)
      ((fun ijk => Ok (can ijk, blk ijk)) <$> order)
    = (Some out, Ok tt)
    /\ arr_shape out = arr_shape out0
    /\ (forall idx,
          in_volume (take (length shape) idx) shape = true ->
          exists ijk,
            ijk ∈ nb
            /\ in_extent (take (length shape) idx) (can ijk) = true
            /\ arr_item out idx
               = arr_item (blk ijk)
                   (shift (Z.opp <$> (start <$> can ijk)) idx))
    /\ forall idx,
         in_volume (take (length shape) idx) shape = false ->
         arr_item out idx = arr_item out0 idx.
Proof.
  intros Hout0 Hperm.
  destruct (invert_write_tasks_assembled order (fun _ => False) out0 out0 Hout0)
    as (out & Hrun & Has).
  - apply Forall_forall. intros ijk Hijk. now rewrite <- Hperm.
  - apply assembled_nothing.
  - exists out. split; [assumption|].
    eapply assembled_all; [|exact Has].
    intros ijk Hijk. left. now rewrite Hperm.
Qed.

Lemma reconstruct_complete (order : list (nat * list Z)) (out0 : ndarray V) :
  arr_shape out0 = shape ++ trailing ->
  order ≡ₚ imap pair nb ->
  exists out,
    PiecewiseInvert.reconstruct out0 (can <$> nb)
      ((fun p => (p.1, Ok (blk p.2))) <$> order)
    = Ok out
    /\ arr_shape out = arr_shape out0
    /\ (forall idx,
          in_volume (take (length shape) idx) shape = true ->
          exists ijk,
            ijk ∈ nb
            /\ in_extent (take (length shape) idx) (can ijk) = true
            /\ arr_item out idx
               = arr_item (blk ijk)
                   (shift (Z.opp <$> (start <$> can ijk)) idx))
    /\ forall idx,
         in_volume (take (length shape) idx) shape = false ->
         arr_item out idx = arr_item out0 idx.
Proof.
  intros Hout0 Hperm.
  destruct (reconstruct_assembled order (fun _ => False) out0 out0 Hout0)
    as (out & Hrun & Has).
  - apply Forall_forall. intros [iii ijk] Hp. rewrite Hperm in Hp.
    now apply elem_of_imap_pair in Hp.
  - apply assembled_nothing.
  - exists out. split; [assumption|].
    eapply assembled_all; [|exact Has].
    intros ijk Hijk. left.
    apply list_elem_of_lookup_1 in Hijk as [iii Hiii].
    apply list_elem_of_fmap. exists (iii, ijk). split; [reflexivity|].
    rewrite Hperm. now apply elem_of_imap_pair.
Qed.

Lemma piecewise_write_tasks_complete (order : list (nat * list Z))
    (out0 : ndarray V) :
  arr_shape out0 = shape ++ trailing ->
  order ≡ₚ imap pair nb ->
  exists out,
    PiecewiseInvert.write_tasks out0
      ((fun p => (p.1, (can p.2, Ok (blk p.2)))) <$> order)
    = Ok out
    /\ arr_shape out = arr_shape out0
    /\ (forall idx,
          in_volume (take (length shape) idx) shape = true ->
          exists ijk,
            ijk ∈ nb
            /\ in_extent (take (length shape) idx) (can ijk) = true
            /\ arr_item out idx
               = arr_item (blk ijk)
                   (shift (Z.opp <$> (start <$> can ijk)) idx))
    /\ forall idx,
         in_volume (take (length shape) idx) shape = false ->
         arr_item out idx = arr_item out0 idx.
Proof.
  intros Hout0 Hperm.
  destruct (piecewise_write_tasks_assembled order (fun _ => False) out0 out0 Hout0)
    as (out & Hrun & Has).
  - apply Forall_forall. intros [iii ijk] Hp. rewrite Hperm in Hp.
    apply elem_of_imap_pair in Hp. simpl.
    eapply list_elem_of_lookup_2; eassumption.
  - apply assembled_nothing.
  - exists out. split; [assumption|].
    eapply assembled_all; [|exact Has].
    intros ijk Hijk. left.
    apply list_elem_of_lookup_1 in Hijk as [iii Hiii].
    apply list_elem_of_fmap. exists (iii, ijk). split; [reflexivity|].
    rewrite Hperm. now apply elem_of_imap_pair.
Qed.

End Tiles.

(** ** The planners of the two files *)

Lemma coords_overlaps_block_coords (shape blocksize overlap ijk : list Z) :
  BlockPlanner.coords_overlaps shape blocksize overlap ijk
  = BlockPlanner.block_coords shape blocksize overlap ijk.
Proof.
  unfold BlockPlanner.coords_overlaps, BlockPlanner.block_coords,
    Np.minimum, Np.maximum0, Np.add, Np.sub, Np.mul, Np.scale.
  apply list_eq. intros k.
  repeat (progress rewrite ?lookup_zip_with, ?list_lookup_fmap).
  destruct (blocksize !! k) as [b|], (ijk !! k) as [i|],
    (overlap !! k) as [o|], (shape !! k) as [s|]; simpl; try reflexivity.
  f_equal. f_equal. f_equal. lia.
Qed.

(** X1. The planning loop of [piecewise_transform.py] (start and stop of
    the tile moved outwards by the overlap, then clipped) and the loop of
    [distributed_transform.py] (the stop taken from the unclipped start)
    give the same extended slices, for every block index and every
    overlap; run over the same grid with the same overlap factor, the two
    loops plan the same list of blocks. *)
Theorem planner_loops_agree (shape blocksize : list Z) :
  (forall overlap ijk,
     BlockPlanner.coords_overlaps shape blocksize overlap ijk
     = BlockPlanner.block_coords shape blocksize overlap ijk)
  /\ forall overlap_factor,
       BlockPlanner.coords_overlaps shape blocksize
         (BlockPlanner.overlaps blocksize overlap_factor)
         <$> Np.ndindex (BlockPlanner.nblocks shape blocksize)
       = BlockPlanner.blocks_coords shape blocksize overlap_factor.
Proof.
  split.
  - intros overlap ijk. apply coords_overlaps_block_coords.
  - intros overlap_factor. unfold BlockPlanner.blocks_coords.
    apply list_fmap_ext. intros k ijk _. apply coords_overlaps_block_coords.
Qed.

Lemma overlaps_zero (blocksize : list Z) :
  BlockPlanner.overlaps blocksize 0 = (fun _ => 0) <$> blocksize.
Proof.
  unfold BlockPlanner.overlaps. apply list_fmap_ext. intros k b _.
  unfold Np.round.
  rewrite (Qfloor_comp (inject_Z b * 0) 0) by ring.
  change (Qfloor 0) with 0.
  assert (inject_Z b * 0 - inject_Z 0 == 0)%Q as H by ring.
  destruct (Qcompare_spec (inject_Z b * 0 - inject_Z 0) (1 # 2)) as [E|E|E];
    [rewrite H in E; discriminate|reflexivity|rewrite H in E; discriminate].
Qed.

(** X2. With overlap factor 0 the planner plans the canonical tiles
    themselves: no block is extended. *)
Theorem zero_overlap_plans_canonical_tiles (shape blocksize : list Z) :
  length shape = length blocksize ->
  Forall (fun b => 0 < b) blocksize ->
  BlockPlanner.overlaps blocksize 0 = (fun _ => 0) <$> blocksize
  /\ BlockPlanner.blocks_coords shape blocksize 0
     = BlockPlanner.canonical_blocks shape blocksize.
Proof.
  intros Hlen Hpos. split; [apply overlaps_zero|].
  unfold BlockPlanner.blocks_coords, BlockPlanner.canonical_blocks.
  rewrite overlaps_zero.
  apply Forall_fmap_ext, Forall_forall. intros ijk Hijk.
  pose proof (length_ijk shape blocksize Hlen ijk Hijk) as Hli.
  apply elem_of_ndindex in Hijk.
  unfold BlockPlanner.block_coords, BlockPlanner.canonical_coords,
    Np.minimum, Np.maximum0, Np.add, Np.sub, Np.mul, Np.scale.
  apply list_eq. intros k.
  repeat (progress rewrite ?lookup_zip_with, ?list_lookup_fmap).
  destruct (blocksize !! k) as [b|] eqn:Hb; [|reflexivity].
  destruct (ijk !! k) as [i|] eqn:Hi; [|reflexivity].
  destruct (shape !! k) as [s|] eqn:Hs; [|reflexivity]. simpl.
  pose proof (proj1 (Forall_lookup _ _) Hpos k b Hb) as Hb0. simpl in Hb0.
  destruct (Forall2_lookup_l _ _ _ _ _ Hijk Hi) as (n & _ & Hin).
  f_equal. f_equal; [nia|f_equal; lia].
Qed.

Lemma zero_overlap_plans_canonical_tiles_witness :
  BlockPlanner.overlaps [2; 3; 4] 0 = (fun _ => 0) <$> [2; 3; 4]
  /\ BlockPlanner.blocks_coords [5; 4; 6] [2; 3; 4] 0
     = BlockPlanner.canonical_blocks [5; 4; 6] [2; 3; 4].
Proof.
  apply (zero_overlap_plans_canonical_tiles [5; 4; 6] [2; 3; 4]).
  - reflexivity.
  - repeat constructor.
Defined.

(** An overlap factor of at most one half gives an overlap below the
    block size. *)
Lemma overlap_below_blocksize (b : Z) (f : Q) :
  0 < b -> (0 <= f <= 1 # 2)%Q -> 0 <= Np.round (inject_Z b * f) < b.
Proof.
  intros Hb [Hf0 Hf1].
  assert (0 <= inject_Z b)%Q as Hb0
    by (change 0%Q with (inject_Z 0); rewrite <- Zle_Qle; lia).
  assert (0 <= inject_Z b * f)%Q as Hx0 by now apply Qmult_le_0_compat.
  assert (inject_Z b * f <= inject_Z b * (1 # 2))%Q as Hx1.
  { rewrite !(Qmult_comm (inject_Z b)). now apply Qmult_le_compat_r. }
  split; [now apply round_nonneg|].
  destruct (Z.eq_dec b 1) as [->|Hne].
  - (* block size 1: the product is at most 1/2, which rounds to 0 *)
    change (inject_Z 1) with 1%Q in *.
    assert (Qfloor (1 * f) = 0) as Hfl.
    { pose proof (Qfloor_le (1 * f)). pose proof (Qlt_floor (1 * f)) as Hlt.
      rewrite inject_Z_plus in Hlt. change (inject_Z 1) with 1%Q in Hlt.
      destruct (Z_lt_le_dec (Qfloor (1 * f)) 0) as [Hneg|Hnn].
      - assert (inject_Z (Qfloor (1 * f) + 1) <= inject_Z 0)%Q as Hle
          by (rewrite <- Zle_Qle; lia).
        rewrite inject_Z_plus in Hle.
        change (inject_Z 1) with 1%Q in Hle. change (inject_Z 0) with 0%Q in Hle.
        lra.
      - destruct (Z_lt_le_dec 0 (Qfloor (1 * f))) as [Hpos|]; [|lia].
        assert (inject_Z 1 <= inject_Z (Qfloor (1 * f)))%Q as Hle
          by (rewrite <- Zle_Qle; lia).
        change (inject_Z 1) with 1%Q in Hle. lra. }
    unfold Np.round. rewrite Hfl.
    destruct (Qcompare_spec (1 * f - inject_Z 0) (1 # 2)) as [E|E|E];
      [simpl; lia|lia|].
    change (inject_Z 0) with 0%Q in E. lra.
  - assert (Np.round (inject_Z b * f) <= b - 1); [|lia].
    apply round_le_int. unfold Z.sub. rewrite inject_Z_plus.
    change (inject_Z (- (1))) with (-1)%Q.
    assert (inject_Z 2 <= inject_Z b)%Q as H2
      by (rewrite <- Zle_Qle; lia).
    change (inject_Z 2) with 2%Q in H2. lra.
Qed.

(** The overlaps of an overlap factor of at most one half. *)
Lemma overlaps_below_blocksize (blocksize : list Z) (f : Q) :
  Forall (fun b => 0 < b) blocksize -> (0 <= f <= 1 # 2)%Q ->
  Forall2 (fun b o => 0 <= o < b) blocksize
          (BlockPlanner.overlaps blocksize f).
Proof.
  intros Hpos Hf. unfold BlockPlanner.overlaps.
  apply Forall2_fmap_r, Forall_Forall2_diag.
  eapply Forall_impl; [exact Hpos|]. intros b Hb. cbv beta in *.
  now apply overlap_below_blocksize.
Qed.

Lemma length_overlaps (blocksize : list Z) (f : Q) :
  length (BlockPlanner.overlaps blocksize f) = length blocksize.
Proof. unfold BlockPlanner.overlaps. apply length_fmap. Qed.

(** X3. For an overlap factor between 0 and 1 the overlap lies between 0
    and the block size; for a factor of at most one half, the defaults 0.5
    and 0.25 among them, it stays below the block size, on every axis and
    for every block size. *)
Theorem planned_overlap_bounds (blocksize : list Z) (f : Q) :
  Forall (fun b => 0 < b) blocksize ->
  ((0 <= f <= 1)%Q ->
   Forall2 (fun b o => 0 <= o <= b) blocksize
           (BlockPlanner.overlaps blocksize f))
  /\ ((0 <= f <= 1 # 2)%Q ->
      Forall2 (fun b o => 0 <= o < b) blocksize
              (BlockPlanner.overlaps blocksize f)).
Proof.
  intros Hpos. unfold BlockPlanner.overlaps. split; intros Hf.
  - apply Forall2_fmap_r, Forall_Forall2_diag.
    eapply Forall_impl; [exact Hpos|]. intros b Hb. cbv beta in *.
    assert (0 <= inject_Z b)%Q as Hb0
      by (change 0%Q with (inject_Z 0); rewrite <- Zle_Qle; lia).
    split.
    + apply round_nonneg. apply Qmult_le_0_compat; [assumption|apply Hf].
    + apply round_le_int.
      assert (inject_Z b * f <= inject_Z b * 1)%Q as H.
      { rewrite !(Qmult_comm (inject_Z b)). apply Qmult_le_compat_r;
          [apply Hf|assumption]. }
      lra.
  - now apply overlaps_below_blocksize.
Qed.

Lemma planned_overlap_bounds_witness :
  Forall2 (fun b o => 0 <= o < b) [1; 2; 5]
          (BlockPlanner.overlaps [1; 2; 5] (1 # 2)).
Proof.
  apply (proj2 (planned_overlap_bounds [1; 2; 5] (1 # 2)
                  ltac:(repeat constructor))).
  split; discriminate.
Defined.

(** ** The crop of a resampled block *)

(** X4. For overlaps below the block size, the crop loop of
    [_transform_single_block], run on an array shaped like the extended
    block of a planned index, returns the canonical slices as placement
    and the part of the array that lies over the canonical tile: the
    entry at [idx] of the result is the entry of the array at [idx] moved
    by the distance from the extended to the canonical start. *)
Theorem crop_overlap_keeps_canonical_part {A}
    (shape blocksize blockoverlaps ijk : list Z) (aligned_block : ndarray A) :
  length shape = length blocksize ->
  length blockoverlaps = length blocksize ->
  Forall2 (fun b o => 0 <= o < b) blocksize blockoverlaps ->
  ijk ∈ Np.ndindex (BlockPlanner.nblocks shape blocksize) ->
  let ext := BlockPlanner.block_coords shape blocksize blockoverlaps ijk in
  let can := BlockPlanner.canonical_coords shape blocksize ijk in
  arr_shape aligned_block = (fun e => stop e - start e) <$> ext ->
  exists cropped,
    DistributedTransform.crop_overlap ext blocksize blockoverlaps aligned_block
    = Ok (can, cropped)
    /\ arr_shape cropped = (fun c => stop c - start c) <$> can
    /\ forall idx,
         arr_item cropped idx
         = arr_item aligned_block
             (shift (zip_with (fun c e => start c - start e) can ext) idx).
Proof.
  intros Hlen Hlo Hov Hijk ext can Hshape. subst ext can.
  destruct (crop_axes_of_planned shape blocksize blockoverlaps ijk
              (fun n => n) Hlen Hlo Hov Hijk aligned_block [])
    as (a' & Hloop & Ha' & Hitem).
  - simpl. lia.
  - now rewrite app_nil_r.
  - exists a'. unfold DistributedTransform.crop_overlap.
    rewrite transform_crop_axes_of, Hloop.
    rewrite app_nil_r in Ha'. cbn [mbind result_bind].
    split; [reflexivity|]. split; assumption.
Qed.

Lemma crop_overlap_keeps_canonical_part_witness :
  exists cropped,
    DistributedTransform.crop_overlap
      (BlockPlanner.block_coords [5; 4; 6] [2; 3; 4] [1; 1; 2] [1; 0; 1])
      [2; 3; 4] [1; 1; 2] (NdArray [4; 4; 4] (fun idx => idx))
    = Ok (BlockPlanner.canonical_coords [5; 4; 6] [2; 3; 4] [1; 0; 1], cropped)
    /\ arr_shape cropped
       = (fun c => stop c - start c)
           <$> BlockPlanner.canonical_coords [5; 4; 6] [2; 3; 4] [1; 0; 1]
    /\ forall idx,
         arr_item cropped idx
         = shift (zip_with (fun c e => start c - start e)
                    (BlockPlanner.canonical_coords [5; 4; 6] [2; 3; 4]
                       [1; 0; 1])
                    (BlockPlanner.block_coords [5; 4; 6] [2; 3; 4] [1; 1; 2]
                       [1; 0; 1])) idx.
Proof.
  apply (crop_overlap_keeps_canonical_part [5; 4; 6] [2; 3; 4] [1; 1; 2]
           [1; 0; 1] (NdArray [4; 4; 4] (fun idx => idx))).
  - reflexivity.
  - reflexivity.
  - repeat constructor; lia.
  - apply elem_of_ndindex.
    change (BlockPlanner.nblocks [5; 4; 6] [2; 3; 4]) with [3; 2; 2].
    repeat (constructor; [lia|]). constructor.
  - reflexivity.
Defined.

(** ** Localising the transforms *)

Lemma read_transform_raises (fix_spacing fix_origin : list Q)
    (block_coords : list slice) (transform_spacing_list : list (list Q))
    (iii : nat) (transform : ndarray Q) (e : exn) :
  DistributedTransform.read_transform fix_spacing fix_origin block_coords
    transform_spacing_list iii transform = Raise e ->
  e = IndexError.
Proof.
  unfold DistributedTransform.read_transform.
  destruct (negb (is_affine transform)); [|discriminate].
  unfold index. destruct (transform_spacing_list !! iii);
    cbn [mbind result_bind]; [|now intros [= <-]].
  unfold getitem. destruct (decide _); cbn [mbind result_bind];
    [discriminate|now intros [= <-]].
Qed.

Lemma read_transforms_raises (fix_spacing fix_origin : list Q)
    (block_coords : list slice) (transform_spacing_list : list (list Q))
    (iii : nat) (transform_list : list (ndarray Q)) (e : exn) :
  DistributedTransform.read_transforms fix_spacing fix_origin block_coords
    transform_spacing_list iii transform_list = Raise e ->
  e = IndexError.
Proof.
  revert iii. induction transform_list as [|t rest IH]; intros iii;
    [discriminate|].
  cbn [DistributedTransform.read_transforms].
  destruct (DistributedTransform.read_transform _ _ _ _ iii t)
    as [[t' o]|e'] eqn:Ht; cbn [mbind result_bind].
  - destruct (DistributedTransform.read_transforms _ _ _ _ (S iii) rest)
      as [[applied origins]|e'] eqn:Hrest; cbn [mbind result_bind];
      [discriminate|].
    intros [= <-]. now apply (IH (S iii)).
  - intros [= <-]. now apply read_transform_raises in Ht.
Qed.

(** X5. A chain of affine (4x4) transforms is localised to itself: the
    loop returns the chain unchanged with the block origin for every
    transform, whatever the spacings are, and never looks a spacing up. *)
Theorem affine_chain_is_not_localized (fix_spacing fix_origin : list Q)
    (block_coords : list slice) (transform_spacing_list : list (list Q))
    (iii : nat) (transform_list : list (ndarray Q)) :
  Forall (fun t => is_affine t = true) transform_list ->
  DistributedTransform.read_transforms fix_spacing fix_origin block_coords
    transform_spacing_list iii transform_list
  = Ok (transform_list, replicate (length transform_list) fix_origin).
Proof.
  intros Haff. revert iii.
  induction Haff as [|t rest Ht Hrest IH]; intros iii; [reflexivity|].
  cbn [DistributedTransform.read_transforms].
  unfold DistributedTransform.read_transform. rewrite Ht.
  cbn [negb mbind result_bind]. rewrite IH. reflexivity.
Qed.

Lemma affine_chain_is_not_localized_witness :
  DistributedTransform.read_transforms [1; 1; 1]%Q [0; 0; 0]%Q
    [Slice 0 2; Slice 0 2; Slice 0 2] [] 0
    [NdArray [4; 4] (fun _ => 0%Q); NdArray [4; 4] (fun _ => 1%Q)]
  = Ok ([NdArray [4; 4] (fun _ => 0%Q); NdArray [4; 4] (fun _ => 1%Q)],
        replicate 2 [0; 0; 0]%Q).
Proof.
  apply (affine_chain_is_not_localized [1; 1; 1]%Q [0; 0; 0]%Q
           [Slice 0 2; Slice 0 2; Slice 0 2] [] 0
           [NdArray [4; 4] (fun _ => 0%Q); NdArray [4; 4] (fun _ => 1%Q)]).
  repeat constructor.
Defined.

(** X6. With spacings and a block origin that have one entry per axis of
    the block (numpy refuses operands of different lengths with
    [ValueError], which is outside this statement), the localisation of a
    chain fails with [IndexError] and with no other exception; it does so
    whenever a displacement field stands at a position of the chain for
    which the tuple of spacings has no entry. *)
Theorem missing_spacing_raises_index_error (fix_spacing fix_origin : list Q)
    (block_coords : list slice) (transform_spacing_list : list (list Q))
    (transform_list : list (ndarray Q)) :
  length fix_spacing = length block_coords ->
  length fix_origin = length block_coords ->
  Forall (fun spacing => length spacing = length block_coords)
         transform_spacing_list ->
  (forall e,
     DistributedTransform.read_transforms fix_spacing fix_origin block_coords
       transform_spacing_list 0 transform_list = Raise e ->
     e = IndexError)
  /\ forall j t,
       transform_list !! j = Some t -> is_affine t = false ->
       (length transform_spacing_list <= j)%nat ->
       DistributedTransform.read_transforms fix_spacing fix_origin
         block_coords transform_spacing_list 0 transform_list
       = Raise IndexError.
Proof.
  intros _ _ _.
  split; [intros e; apply read_transforms_raises|].
  intros j t Hj Haff Hlen.
  enough (forall iii,
            (length transform_spacing_list <= iii + j)%nat ->
            DistributedTransform.read_transforms fix_spacing fix_origin
              block_coords transform_spacing_list iii transform_list
            = Raise IndexError) as H by (apply H; lia).
  clear Hlen. revert j Hj.
  induction transform_list as [|t0 rest IH]; intros j Hj iii Hlen;
    [discriminate|].
  cbn [DistributedTransform.read_transforms].
  destruct (DistributedTransform.read_transform _ _ _ _ iii t0)
    as [[t' o]|e'] eqn:Ht; cbn [mbind result_bind].
  - destruct j as [|j].
    + injection Hj as ->. exfalso.
      unfold DistributedTransform.read_transform in Ht. rewrite Haff in Ht.
      cbn [negb] in Ht. unfold index in Ht.
      rewrite (proj2 (lookup_ge_None _ _)) in Ht by lia. discriminate.
    + rewrite (IH j Hj (S iii)) by lia. reflexivity.
  - f_equal. now apply read_transform_raises in Ht.
Qed.

Lemma missing_spacing_raises_index_error_witness :
  DistributedTransform.read_transforms [1; 1; 1]%Q [0; 0; 0]%Q
    [Slice 0 2; Slice 0 2; Slice 0 2] [[1; 1; 1]%Q] 0
    [NdArray [4; 4] (fun _ => 0%Q); NdArray [2; 2; 2; 3] (fun _ => 0%Q)]
  = Raise IndexError.
Proof.
  apply (proj2 (missing_spacing_raises_index_error [1; 1; 1]%Q [0; 0; 0]%Q
                  [Slice 0 2; Slice 0 2; Slice 0 2] [[1; 1; 1]%Q]
                  [NdArray [4; 4] (fun _ => 0%Q);
                   NdArray [2; 2; 2; 3] (fun _ => 0%Q)]
                  eq_refl eq_refl ltac:(repeat constructor))
           1%nat (NdArray [2; 2; 2; 3] (fun _ => 0%Q))).
  - reflexivity.
  - reflexivity.
  - simpl. lia.
Defined.

(** ** The crop of a bucket of the grid *)

Lemma mapM_Ok_fmap {A B} (f : A -> result B) (g : A -> B) (l : list A) :
  (forall x, x ∈ l -> f x = Ok (g x)) -> mapM f l = Ok (g <$> l).
Proof.
  induction l as [|x l IH]; intros Hf; [reflexivity|].
  cbn [mapM]. rewrite (Hf x) by constructor. cbn [mbind result_bind].
  rewrite IH by (intros; apply Hf; now constructor). reflexivity.
Qed.

(** Slice tuples that select the same indices on every axis select the
    same part of an array. *)
Lemma getitem_same_indices {A} (a : ndarray A) (sl sl' : list pyslice) :
  length sl = length sl' ->
  (forall k p q n,
     sl !! k = Some p -> sl' !! k = Some q -> arr_shape a !! k = Some n ->
     slice_indices p n = slice_indices q n) ->
  getitem a sl = getitem a sl'.
Proof.
  intros Hlen Hsame. unfold getitem. rewrite <- Hlen.
  destruct (decide _); [|reflexivity].
  assert (getitem_shape sl (arr_shape a) = getitem_shape sl' (arr_shape a)
          /\ getitem_starts sl (arr_shape a)
             = getitem_starts sl' (arr_shape a)) as [-> ->]; [|reflexivity].
  clear l. revert sl' Hlen Hsame. generalize (arr_shape a) as sh.
  induction sl as [|p sl IH]; intros sh [|q sl'] Hlen Hsame;
    try discriminate; [now split|].
  destruct sh as [|n sh]; [now split|].
  pose proof (Hsame 0%nat p q n eq_refl eq_refl eq_refl) as H0.
  destruct (IH sh sl') as [H1 H2].
  - simpl in Hlen. lia.
  - intros k p' q' n' Hp Hq Hn. now apply (Hsame (S k)).
  - cbn [getitem_shape getitem_starts]. unfold slice_length.
    rewrite H0, H1, H2. now split.
Qed.

(** X7. The crop of [_transform_coords] never cuts a displacement field
    at the upper side of the grid cell: on every spatial axis it takes the
    field from the start of the cell to the end of the field, the same
    part as [transform[start_0:, start_1:, ...]], whatever the stop of the
    cell is. *)
Theorem grid_crop_reaches_end_of_field (block_slice_coords : list slice)
    (transform : ndarray Q) :
  is_affine transform = false ->
  (ndim transform - 1 <= length block_slice_coords)%nat ->
  Forall (fun s => 0 <= start s <= stop s) block_slice_coords ->
  DistributedTransform.crop_transform block_slice_coords transform
  = getitem transform
      ((fun s => slice_from (start s))
         <$> take (ndim transform - 1) block_slice_coords).
Proof.
  intros Haff Hlen Hsl. unfold DistributedTransform.crop_transform.
  rewrite Haff. cbn [negb].
  set (m := (ndim transform - 1)%nat) in *.
  set (g := fun k : nat =>
              let s := default (Slice 0 0) (block_slice_coords !! k) in
              let n := default 0 (arr_shape transform !! k) in
              if stop s <? n then Slice (start s) n
              else Slice (start s) (stop s)).
  rewrite (mapM_Ok_fmap _ g).
  2:{ intros k Hk. apply elem_of_seq in Hk as [_ Hk]. simpl in Hk.
      unfold DistributedTransform.crop_slice, g.
      assert (k < length block_slice_coords)%nat as Hk' by lia.
      destruct (lookup_lt_is_Some_2 block_slice_coords k Hk') as [s Hs].
      destruct (lookup_lt_is_Some_2 (arr_shape transform) k) as [n Hn].
      { unfold m, ndim in Hk. lia. }
      rewrite (index_Some _ _ _ Hs), (index_Some _ _ _ Hn), Hs, Hn.
      cbn [mbind result_bind]. simpl. now destruct (stop s <? n). }
  cbn [mbind result_bind].
  apply getitem_same_indices.
  - rewrite !length_fmap, length_seq, length_take. lia.
  - intros k p q n Hp Hq Hn.
    apply list_lookup_fmap_Some_1 in Hp as (c & -> & Hc).
    apply list_lookup_fmap_Some_1 in Hc as (k' & -> & Hk').
    apply lookup_seq in Hk' as [-> Hk]. simpl.
    apply list_lookup_fmap_Some_1 in Hq as (s & -> & Hs).
    apply lookup_take_Some in Hs as [Hs _].
    pose proof (proj1 (Forall_lookup _ _) Hsl k s Hs) as Hs0. simpl in Hs0.
    unfold g. rewrite Hs, Hn. simpl.
    unfold slice_indices, slice_of, slice_from, clip_bound.
    destruct (Z.ltb_spec (stop s) n); cbn [py_start py_stop start stop].
    + f_equal. destruct (Z.ltb_spec n 0); lia.
    + f_equal. destruct (Z.ltb_spec (stop s) 0); lia.
Qed.

Lemma grid_crop_reaches_end_of_field_witness :
  DistributedTransform.crop_transform [Slice 4 8; Slice 0 4; Slice 4 8]
    (NdArray [10; 10; 6; 3] (fun _ => 0%Q))
  = getitem (NdArray [10; 10; 6; 3] (fun _ => 0%Q))
      [slice_from 4; slice_from 0; slice_from 4].
Proof.
  apply (grid_crop_reaches_end_of_field [Slice 4 8; Slice 0 4; Slice 4 8]
           (NdArray [10; 10; 6; 3] (fun _ => 0%Q))).
  - reflexivity.
  - simpl. lia.
  - repeat constructor; simpl; lia.
Defined.

(** ** The partitions of the extent-driven pipeline *)

Lemma ndindex_empty_axis (ns : list Z) (k : nat) (n : Z) :
  ns !! k = Some n -> n <= 0 -> Np.ndindex ns = [].
Proof.
  intros Hk Hn.
  destruct (Np.ndindex ns) as [|idx rest] eqn:E; [reflexivity|].
  assert (idx ∈ Np.ndindex ns) as Hidx by (rewrite E; constructor).
  apply elem_of_ndindex in Hidx.
  destruct (Forall2_lookup_r _ _ _ _ _ Hidx Hk) as (i & _ & Hi). lia.
Qed.

(** X8. A point set that is flat along some axis (all points have the
    same coordinate there, a single point among them) makes the
    extent-driven pipeline raise [ValueError]: the extent of the axis is
    0, the grid has no cell, no partition is made and [np.concatenate]
    finds nothing to concatenate. *)
Theorem flat_point_set_raises_value_error
    (routine :
       list (list Q) -> list (ndarray Q) -> per_transform -> per_transform ->
       list (list Q))
    (uninitialised : Q) (coordinates : list (list Q))
    (transform_list : list (ndarray Q)) (partition_size : Q)
    (transform_spacing : per_transform) (d k : nat) (c : Q) :
  coordinates <> [] ->
  Forall (fun row => length row = d) coordinates ->
  (0 < partition_size)%Q ->
  (k < d)%nat ->
  (forall row, row ∈ coordinates -> row !! k = Some c) ->
  PiecewiseTransform.distributed_apply_transform_to_coordinates routine
    uninitialised coordinates transform_list partition_size transform_spacing
  = Raise ValueError.
Proof.
  intros Hne Hrect Hps Hk Hflat.
  destruct (bounding_box coordinates d Hne Hrect)
    as (a & b & Ha & Hb & Hla & Hlb & Hbox).
  destruct (Hbox k Hk) as (ak & bk & Hak & Hbk & _ & (p & Hp & Hpa) & (q & Hq & Hqb)).
  rewrite (Hflat p Hp) in Hpa. injection Hpa as <-.
  rewrite (Hflat q Hq) in Hqb. injection Hqb as <-.
  unfold PiecewiseTransform.distributed_apply_transform_to_coordinates,
    PiecewiseTransform.coordinate_nblocks.
  rewrite Ha, Hb. cbn [mbind result_bind].
  rewrite (ndindex_empty_axis _ k (Np.ceil ((c - c) / partition_size))).
  - reflexivity.
  - rewrite list_lookup_fmap, lookup_zip_with, Hbk, Hak. reflexivity.
  - unfold Np.ceil. rewrite (Qceiling_comp _ 0); [reflexivity|].
    field. intros H. rewrite H in Hps. now apply Qlt_irrefl in Hps.
Qed.

Lemma flat_point_set_raises_value_error_witness :
  PiecewiseTransform.distributed_apply_transform_to_coordinates
    identity_routine 0%Q [[0; 0; 7]%Q; [40; 35; 7]%Q] [] 30%Q Unset
  = Raise ValueError.
Proof.
  apply (flat_point_set_raises_value_error identity_routine 0%Q
           [[0; 0; 7]%Q; [40; 35; 7]%Q] [] 30%Q Unset 3 2 7%Q).
  - discriminate.
  - repeat constructor.
  - reflexivity.
  - lia.
  - intros row Hrow.
    repeat (apply elem_of_cons in Hrow as [->|Hrow]; [reflexivity|]).
    inversion Hrow.
Defined.

Lemma forallb_id_false (l : list bool) (k : nat) :
  l !! k = Some false -> forallb id l = false.
Proof.
  revert k. induction l as [|x l IH]; intros [|k] H; try discriminate;
    simpl in *.
  - now injection H as ->.
  - rewrite (IH k H). apply andb_false_r.
Qed.

(** X9. A point of the extent-driven pipeline that lies on or beyond the
    upper face of the grid on some axis, [x >= origin + partition_size *
    nblocks], lies in no cell: its position is in the index array of no
    partition, and the point is not transformed. *)
Theorem upper_face_points_are_in_no_partition (coordinates : list (list Q))
    (partition_size : Q) (d : nat) (origin : list Q) (nblocks : list Z)
    (row : list Q) (k : nat) (x m : Q) (n : Z) :
  coordinates <> [] ->
  Forall (fun row => length row = d) coordinates ->
  (0 < partition_size)%Q ->
  PiecewiseTransform.coordinate_nblocks coordinates partition_size
  = Ok (origin, nblocks) ->
  row ∈ coordinates ->
  row !! k = Some x -> origin !! k = Some m -> nblocks !! k = Some n ->
  (m + partition_size * inject_Z n <= x)%Q ->
  (forall index_, index_ ∈ Np.ndindex nblocks ->
     let lower_bound :=
       PiecewiseTransform.lower_bound_of origin partition_size index_ in
     PiecewiseTransform.in_cell lower_bound
       ((fun x => x + partition_size)%Q <$> lower_bound) row = false)
  /\ forall partition part_indices j,
       (partition, part_indices)
         ∈ (index_ ← Np.ndindex nblocks;
            PiecewiseTransform.partition_of coordinates origin partition_size
              index_) ->
       coordinates !! j = Some row -> j ∉ part_indices.
Proof.
  intros Hne Hrect Hps Hgrid Hrow Hx Hm Hn Hface.
  assert (forall index_, index_ ∈ Np.ndindex nblocks ->
            PiecewiseTransform.in_cell
              (PiecewiseTransform.lower_bound_of origin partition_size index_)
              ((fun x => x + partition_size)%Q
                 <$> PiecewiseTransform.lower_bound_of origin partition_size
                       index_) row = false) as Hcell.
  { intros index_ Hidx. apply elem_of_ndindex in Hidx.
    destruct (Forall2_lookup_r _ _ _ _ _ Hidx Hn) as (i & Hi & Hin).
    unfold PiecewiseTransform.in_cell. apply andb_false_iff. right.
    unfold not_too_high. apply (forallb_id_false _ k).
    unfold PiecewiseTransform.lower_bound_of, Np.qadd.
    rewrite lookup_zip_with, Hx. cbn [mbind option_bind].
    rewrite list_lookup_fmap, lookup_zip_with, Hm. cbn [mbind option_bind].
    rewrite list_lookup_fmap, Hi. cbn [fmap option_fmap option_map mbind option_bind].
    f_equal. unfold Qltb. apply negb_false_iff. apply Qle_bool_iff.
    assert (inject_Z i + 1 <= inject_Z n)%Q as Hle.
    { change 1%Q with (inject_Z 1). rewrite <- inject_Z_plus, <- Zle_Qle. lia. }
    assert (partition_size * (inject_Z i + 1)
            <= partition_size * inject_Z n)%Q as Hmul
      by now apply Qmult_le_l.
    lra. }
  split; [exact Hcell|].
  intros partition part_indices j Hpart Hj Hin.
  apply list_elem_of_bind in Hpart as (index_ & Hpart & Hidx).
  unfold PiecewiseTransform.partition_of in Hpart. cbv zeta in Hpart.
  destruct (decide _) in Hpart; [|inversion Hpart].
  apply list_elem_of_singleton in Hpart. injection Hpart as _ ->.
  apply list_elem_of_fmap in Hin as ([j' r] & Hjj & Hsel). simpl in Hjj.
  subst j'. apply filter_elem_of in Hsel as [Hsel Htest]. simpl in Htest.
  apply elem_of_lookup_imap in Hsel as (j' & r' & Heq & Hr).
  injection Heq as <- <-. rewrite Hj in Hr. injection Hr as <-.
  rewrite (Hcell index_ Hidx) in Htest. discriminate.
Qed.

Lemma upper_face_points_are_in_no_partition_witness :
  PiecewiseTransform.in_cell
    (PiecewiseTransform.lower_bound_of [0; 0; 0]%Q 30%Q [0; 0; 0])
    ((fun x => x + 30)%Q
       <$> PiecewiseTransform.lower_bound_of [0; 0; 0]%Q 30%Q [0; 0; 0])
    [30; 30; 30]%Q
  = false.
Proof.
  apply (proj1 (upper_face_points_are_in_no_partition
                  [[0; 0; 0]%Q; [30; 30; 30]%Q] 30%Q 3 [0; 0; 0]%Q [1; 1; 1]
                  [30; 30; 30]%Q 0 30%Q 0%Q 1
                  ltac:(discriminate) ltac:(repeat constructor)
                  ltac:(reflexivity) ltac:(reflexivity)
                  ltac:(right; left) ltac:(reflexivity) ltac:(reflexivity)
                  ltac:(reflexivity) ltac:(discriminate)) [0; 0; 0]).
  left.
Defined.

(** ** Transforming a partition without spacing *)

Lemma crop_transforms_unset (a b : list Q) (iii : nat)
    (transform_list : list (ndarray Q)) :
  (Forall (fun t => PiecewiseTransform.is_matrix t = true) transform_list ->
   PiecewiseTransform.crop_transforms a b Unset iii transform_list
   = Ok transform_list)
  /\ (Exists (fun t => PiecewiseTransform.is_matrix t = false) transform_list ->
      PiecewiseTransform.crop_transforms a b Unset iii transform_list
      = Raise TypeError).
Proof.
  revert iii. induction transform_list as [|t rest IH]; intros iii.
  - split; [reflexivity|inversion 1].
  - cbn [PiecewiseTransform.crop_transforms].
    unfold PiecewiseTransform.crop_transform.
    destruct (PiecewiseTransform.is_matrix t) eqn:Ht;
      cbn [negb mbind result_bind].
    + split.
      * intros Hall. inversion Hall; subst.
        now rewrite (proj1 (IH (S iii))).
      * intros Hex. inversion Hex; subst; [congruence|].
        now rewrite (proj2 (IH (S iii))).
    + split; [|reflexivity].
      intros Hall. inversion Hall; subst. congruence.
Qed.

(** X10. With [transform_spacing=None], [transform_partition] runs on a
    chain of matrices, which it passes on uncropped, and raises
    [TypeError] as soon as the chain holds a displacement field. *)
Theorem partition_without_spacing
    (routine :
       list (list Q) -> list (ndarray Q) -> per_transform -> per_transform ->
       list (list Q))
    (coordinates : list (list Q)) (transform_list : list (ndarray Q)) :
  coordinates <> [] ->
  (Forall (fun t => PiecewiseTransform.is_matrix t = true) transform_list ->
   exists a,
     qmin_axis0 coordinates = Ok a
     /\ PiecewiseTransform.transform_partition routine coordinates
          transform_list Unset
        = Ok (routine coordinates transform_list Unset (Shared a)))
  /\ (Exists (fun t => PiecewiseTransform.is_matrix t = false) transform_list ->
      PiecewiseTransform.transform_partition routine coordinates
        transform_list Unset
      = Raise TypeError).
Proof.
  intros Hne. destruct coordinates as [|r rows]; [contradiction|].
  unfold PiecewiseTransform.transform_partition.
  cbn [qmin_axis0 qmax_axis0 mbind result_bind]. split.
  - intros Hall. eexists. split; [reflexivity|].
    now rewrite (proj1 (crop_transforms_unset _ _ 0 transform_list)).
  - intros Hex.
    now rewrite (proj2 (crop_transforms_unset _ _ 0 transform_list)).
Qed.

Lemma partition_without_spacing_witness :
  PiecewiseTransform.transform_partition identity_routine
    [[1; 2; 3]%Q] [NdArray [4; 4] (fun _ => 0%Q);
                   NdArray [8; 8; 8; 3] (fun _ => 0%Q)] Unset
  = Raise TypeError.
Proof.
  apply (proj2 (partition_without_spacing identity_routine [[1; 2; 3]%Q]
                  [NdArray [4; 4] (fun _ => 0%Q);
                   NdArray [8; 8; 8; 3] (fun _ => 0%Q)]
                  ltac:(discriminate))).
  right. left. reflexivity.
Defined.

(** ** Reading a block *)

(** [a[slices]] for slices within the bounds of the array. *)
Lemma getitem_region {A} (a : ndarray A) (sl : list slice) :
  (length sl <= ndim a)%nat ->
  Forall2 (fun s n => 0 <= start s <= stop s /\ stop s <= n) sl
          (take (length sl) (arr_shape a)) ->
  exists a',
    getitem a (slice_of <$> sl) = Ok a'
    /\ arr_shape a'
       = ((fun s => stop s - start s) <$> sl) ++ drop (length sl) (arr_shape a)
    /\ forall idx, arr_item a' idx = arr_item a (shift (start <$> sl) idx).
Proof.
  intros Hlen Hsl. unfold getitem.
  rewrite decide_True by (now rewrite length_fmap).
  eexists. split; [reflexivity|]. cbn [arr_shape arr_item].
  rewrite getitem_shape_slices, getitem_starts_slices by assumption.
  split; reflexivity.
Qed.

Section Planned.
Variables (shape blocksize blockoverlaps ijk : list Z).
Hypothesis Hlen_bs : length shape = length blocksize.
Hypothesis Hlen_ov : length blockoverlaps = length blocksize.
Hypothesis Hov : Forall2 (fun b o => 0 <= o < b) blocksize blockoverlaps.
Hypothesis Hijk : ijk ∈ Np.ndindex (BlockPlanner.nblocks shape blocksize).

Let ext := BlockPlanner.block_coords shape blocksize blockoverlaps ijk.

(** An extended block lies within the volume, with its bounds in order. *)
Lemma planned_within (rest : list Z) :
  Forall2 (fun s n => 0 <= start s <= stop s /\ stop s <= n) ext
          (take (length ext) (shape ++ rest)).
Proof.
  assert (length ext = length shape) as Hle by now apply length_ext.
  rewrite Hle, take_app_le, take_ge by lia.
  apply Forall2_same_length_lookup. split; [assumption|].
  intros k e s He Hs.
  destruct (planned_axis shape blocksize blockoverlaps ijk Hlen_bs Hlen_ov
              Hov Hijk k)
    as (s' & b & o & i & Hs' & _ & _ & _ & ? & ? & ? & He' & _);
    [eapply lookup_lt_Some; eassumption|].
  fold ext in He'. rewrite He in He'. injection He' as ->.
  rewrite Hs in Hs'. injection Hs' as <-. simpl. nia.
Qed.

(** Reading the extended block of an array whose leading axes are those
    of the volume. *)
Lemma getitem_planned {A} (a : ndarray A) (rest : list Z) :
  arr_shape a = shape ++ rest ->
  exists a',
    getitem a (slice_of <$> ext) = Ok a'
    /\ arr_shape a' = ((fun e => stop e - start e) <$> ext) ++ rest
    /\ forall idx, arr_item a' idx = arr_item a (shift (start <$> ext) idx).
Proof.
  intros Hshape.
  assert (length ext = length shape) as Hle by now apply length_ext.
  destruct (getitem_region a ext) as (a' & Hget & Ha' & Hitem).
  - unfold ndim. rewrite Hshape, length_app. lia.
  - rewrite Hshape. apply planned_within.
  - exists a'. split; [assumption|]. split; [|assumption].
    now rewrite Ha', Hshape, Hle, drop_app_length.
Qed.

End Planned.

(** ** Inverting a block of a displacement field *)

(** The task [_invert_block] on the extended block of a planned index. *)
Lemma invert_block_planned {V}
    (invert : ndarray V -> list Q -> Z -> Z -> Z -> ndarray V)
    (shape blocksize blockoverlaps ijk : list Z) (c : Z)
    (full_vectorfield : ndarray V) (spacing : list Q)
    (iterations order sqrt_iterations : Z) :
  length shape = length blocksize ->
  length blockoverlaps = length blocksize ->
  Forall2 (fun b o => 0 <= o < b) blocksize blockoverlaps ->
  ijk ∈ Np.ndindex (BlockPlanner.nblocks shape blocksize) ->
  (forall field sp it ord sq,
     arr_shape (invert field sp it ord sq) = arr_shape field) ->
  arr_shape full_vectorfield = shape ++ [c] ->
  let ext := BlockPlanner.block_coords shape blocksize blockoverlaps ijk in
  let can := BlockPlanner.canonical_coords shape blocksize ijk in
  exists block_vectorfield inverse_block,
    getitem full_vectorfield (slice_of <$> ext) = Ok block_vectorfield
    /\ (forall idx,
          arr_item block_vectorfield idx
          = arr_item full_vectorfield (shift (start <$> ext) idx))
    /\ DistributedInvert._invert_block invert ext full_vectorfield spacing
         blocksize blockoverlaps iterations order sqrt_iterations
       = Ok (can, inverse_block)
    /\ arr_shape inverse_block = ((fun s => stop s - start s) <$> can) ++ [c]
    /\ forall idx,
         arr_item inverse_block idx
         = arr_item
             (invert block_vectorfield spacing iterations order
                sqrt_iterations)
             (shift (zip_with (fun c e => start c - start e) can ext) idx).
Proof.
  intros Hlen Hlo Hov Hijk Hcontract Hshape ext can. subst ext can.
  destruct (getitem_planned shape blocksize blockoverlaps ijk Hlen Hlo Hov
              Hijk full_vectorfield [c] Hshape) as (bv & Hget & Hbv & Hitem).
  exists bv.
  set (inv := invert bv spacing iterations order sqrt_iterations).
  assert (arr_shape inv
          = ((fun e => stop e - start e)
               <$> BlockPlanner.block_coords shape blocksize blockoverlaps ijk)
            ++ [c]) as Hinv by (unfold inv; now rewrite Hcontract).
  destruct (crop_axes_of_planned shape blocksize blockoverlaps ijk
              (fun n => (n - 1)%nat) Hlen Hlo Hov Hijk inv [c])
    as (a' & Hloop & Ha' & Hitem').
  - simpl. lia.
  - exact Hinv.
  - exists a'. split; [assumption|]. split; [assumption|].
    unfold DistributedInvert._invert_block. rewrite Hget.
    cbn [mbind result_bind]. fold inv.
    rewrite invert_crop_axes_of. cbv beta in Hloop. rewrite Hloop.
    cbn [mbind result_bind]. split; [reflexivity|]. split; assumption.
Qed.

(** The closure [invert_block] of [piecewise_transform.py] on the extended
    block of a planned index. *)
Lemma piecewise_invert_block_planned {V}
    (invert : ndarray V -> list Q -> Q -> Z -> Z -> Q -> Z -> ndarray V)
    (shape blocksize ijk : list Z) (c : Z) (field_zarr : ndarray V)
    (spacing : list Q) (step : Q) (iterations sqrt_order : Z) (sqrt_step : Q)
    (sqrt_iterations : Z) :
  length shape = length blocksize ->
  Forall (fun b => 0 < b) blocksize ->
  ijk ∈ Np.ndindex (BlockPlanner.nblocks shape blocksize) ->
  (forall field sp st it so ss si,
     arr_shape (invert field sp st it so ss si) = arr_shape field) ->
  arr_shape field_zarr = shape ++ [c] ->
  let overlap := BlockPlanner.overlaps blocksize (1 # 4) in
  let ext := BlockPlanner.coords_overlaps shape blocksize overlap ijk in
  let can := BlockPlanner.canonical_coords shape blocksize ijk in
  exists field inverse,
    getitem field_zarr (slice_of <$> ext) = Ok field
    /\ (forall idx,
          arr_item field idx
          = arr_item field_zarr (shift (start <$> ext) idx))
    /\ PiecewiseInvert.invert_block invert field_zarr spacing blocksize
         overlap step iterations sqrt_order sqrt_step sqrt_iterations ext
       = Ok inverse
    /\ arr_shape inverse = ((fun s => stop s - start s) <$> can) ++ [c]
    /\ forall idx,
         arr_item inverse idx
         = arr_item
             (invert field spacing step iterations sqrt_order sqrt_step
                sqrt_iterations)
             (shift (zip_with (fun c e => start c - start e) can ext) idx).
Proof.
  intros Hlen Hpos Hijk Hcontract Hshape overlap ext can. subst ext can.
  rewrite coords_overlaps_block_coords.
  assert (Forall2 (fun b o => 0 <= o < b) blocksize overlap) as Hov
    by (apply overlaps_below_blocksize; [assumption|split; discriminate]).
  assert (length overlap = length blocksize) as Hlo by apply length_overlaps.
  destruct (getitem_planned shape blocksize overlap ijk Hlen Hlo Hov
              Hijk field_zarr [c] Hshape) as (bv & Hget & Hbv & Hitem).
  exists bv.
  set (inv := invert bv spacing step iterations sqrt_order sqrt_step
                sqrt_iterations).
  assert (arr_shape inv
          = ((fun e => stop e - start e)
               <$> BlockPlanner.block_coords shape blocksize overlap ijk)
            ++ [c]) as Hinv by (unfold inv; now rewrite Hcontract).
  destruct (crop_axes_of_planned shape blocksize overlap ijk
              (fun n => (n - 1)%nat) Hlen Hlo Hov Hijk inv [c])
    as (a' & Hloop & Ha' & Hitem').
  - simpl. lia.
  - exact Hinv.
  - exists a'. split; [assumption|]. split; [assumption|].
    unfold PiecewiseInvert.invert_block. rewrite Hget.
    cbn [mbind result_bind]. fold inv.
    rewrite (pinvert_crop_axes_of _ _ _ _ _ []). cbv beta in Hloop.
    rewrite Hloop. cbn [fmap result_fmap fst].
    split; [reflexivity|]. split; assumption.
Qed.

(** ** A block of the resampling, from the fixed block to the crop *)

Lemma length_foldl_zip_with {A} (f : A -> A -> A) (rows : list (list A))
    (r : list A) :
  (length (foldl (zip_with f) r rows) <= length r)%nat.
Proof.
  revert r. induction rows as [|row rows IH]; intros r; simpl; [lia|].
  etransitivity; [apply IH|]. rewrite length_zip_with. lia.
Qed.

(** The moving region exists as soon as a corner has been mapped, and has
    no more axes than the moving volume. *)
Lemma mov_slices_runs (mov_spacing : list Q) (mov_shape : list Z)
    (mov_block_coords : list (list Q)) :
  mov_block_coords <> [] ->
  exists mov_slices,
    DistributedTransform.mov_slices mov_spacing mov_shape mov_block_coords
    = Ok mov_slices
    /\ (length mov_slices <= length mov_shape)%nat.
Proof.
  intros Hne. destruct mov_block_coords as [|row rows]; [contradiction|].
  unfold DistributedTransform.mov_slices, DistributedTransform.mov_voxels.
  rewrite !fmap_cons. cbn [min_axis0 max_axis0 mbind result_bind].
  eexists. split; [reflexivity|].
  rewrite length_zip_with.
  etransitivity; [apply Nat.le_min_l|].
  etransitivity; [apply length_foldl_zip_with|].
  unfold Np.minimum. rewrite length_zip_with. lia.
Qed.

Lemma offsets_compose (can ext : list slice) :
  length can = length ext ->
  zip_with Z.add (zip_with (fun c e => start c - start e) can ext)
           (Z.opp <$> (start <$> can))
  = Z.opp <$> (start <$> ext).
Proof.
  revert ext. induction can as [|c can IH]; intros [|e ext] H;
    try discriminate; [reflexivity|].
  cbn [zip_with fmap list_fmap]. f_equal; [lia|]. apply IH.
  simpl in H. lia.
Qed.

Section Block.
Context {V : Type}.
Variable routine :
  list (list Q) -> list (ndarray Q) -> per_transform -> per_transform ->
  list (list Q).
Variable apply_transform :
  ndarray V -> ndarray V -> list Q -> list Q -> list (ndarray Q) ->
  list (list Q) -> list Q -> list Q -> ndarray V.
Hypothesis Hroutine :
  forall points transforms spacing origin,
    Forall2 (fun w p : list Q => length w = length p)
      (routine points transforms spacing origin) points.
Hypothesis Happly :
  forall fb mb fs ms tl to fo mo,
    arr_shape (apply_transform fb mb fs ms tl to fo mo) = arr_shape fb.

Variables (shape blocksize blockoverlaps ijk : list Z).
Hypothesis Hlen_bs : length shape = length blocksize.
Hypothesis Hlen_ov : length blockoverlaps = length blocksize.
Hypothesis Hov : Forall2 (fun b o => 0 <= o < b) blocksize blockoverlaps.
Hypothesis Hijk : ijk ∈ Np.ndindex (BlockPlanner.nblocks shape blocksize).

Variables (full_fix full_mov : ndarray V) (fix_spacing mov_spacing : list Q).
Variables (transform_list : list (ndarray Q)).
Variable transform_spacing_list : list (list Q).
Hypothesis Hfix : arr_shape full_fix = shape.
Hypothesis Hchain :
  forall j t, transform_list !! j = Some t -> is_affine t = false ->
    is_Some (transform_spacing_list !! j) /\ ndim t = S (length shape).

Let ext := BlockPlanner.block_coords shape blocksize blockoverlaps ijk.
Let can := BlockPlanner.canonical_coords shape blocksize ijk.
Let fix_origin := Np.qmul fix_spacing (Np.of_ints (start <$> ext)).

(** The block function on the extended block of a planned index: it
    reads the fixed block, localises the chain, reads the moving region,
    resamples and returns the canonical part of what the kernel gave. *)
Lemma transform_single_block_planned :
  exists fix_block mov_block applied origins mov_slices cropped,
    getitem full_fix (slice_of <$> ext) = Ok fix_block
    /\ (forall idx,
          arr_item fix_block idx
          = arr_item full_fix (shift (start <$> ext) idx))
    /\ DistributedTransform.read_transforms fix_spacing fix_origin ext
         transform_spacing_list 0 transform_list = Ok (applied, origins)
    /\ DistributedTransform.mov_slices mov_spacing (arr_shape full_mov)
         (routine (DistributedTransform.fix_block_coords fix_spacing ext)
            applied (Each transform_spacing_list) (Each origins))
       = Ok mov_slices
    /\ getitem full_mov (slice_of <$> mov_slices) = Ok mov_block
    /\ DistributedTransform._transform_single_block routine apply_transform
         ext full_fix full_mov fix_spacing mov_spacing blocksize
         blockoverlaps transform_list transform_spacing_list
       = Ok (can, cropped)
    /\ arr_shape cropped = (fun c => stop c - start c) <$> can
    /\ forall idx,
         arr_item cropped idx
         = arr_item
             (apply_transform fix_block mov_block fix_spacing mov_spacing
                applied origins fix_origin
                (Np.qmul mov_spacing (Np.of_ints (start <$> mov_slices))))
             (shift (zip_with (fun c e => start c - start e) can ext) idx).
Proof.
  assert (length ext = length shape) as Hle by now apply length_ext.
  assert (length can = length shape) as Hlc
    by now apply (length_can shape blocksize blockoverlaps).
  destruct (getitem_planned shape blocksize blockoverlaps ijk Hlen_bs Hlen_ov
              Hov Hijk full_fix [])
    as (fix_block & Hget & Hfb & Hitem); [now rewrite app_nil_r|].
  fold ext in Hget, Hfb, Hitem. rewrite app_nil_r in Hfb.
  destruct (read_transforms_pointwise fix_spacing ext transform_spacing_list
              transform_list 0)
    as (applied & origins & Hread & _).
  { intros j t Hj Haff. rewrite Hle. now apply Hchain. }
  fold fix_origin in Hread.
  set (mapped :=
         routine (DistributedTransform.fix_block_coords fix_spacing ext)
           applied (Each transform_spacing_list) (Each origins)).
  destruct (mov_slices_runs mov_spacing (arr_shape full_mov) mapped)
    as (mov_sl & Hmov & Hmlen).
  { intros Hnil. pose proof (Hroutine
      (DistributedTransform.fix_block_coords fix_spacing ext) applied
      (Each transform_spacing_list) (Each origins)) as H.
    fold mapped in H. rewrite Hnil in H. apply Forall2_length in H.
    unfold DistributedTransform.fix_block_coords,
      DistributedTransform.block_corners in H.
    rewrite !length_fmap in H. discriminate. }
  assert (exists mov_block,
            getitem full_mov (slice_of <$> mov_sl) = Ok mov_block)
    as (mov_block & Hgm).
  { unfold getitem. rewrite decide_True; [eexists; reflexivity|].
    rewrite length_fmap. exact Hmlen. }
  set (aligned :=
         apply_transform fix_block mov_block fix_spacing mov_spacing applied
           origins fix_origin
           (Np.qmul mov_spacing (Np.of_ints (start <$> mov_sl)))).
  destruct (crop_axes_of_planned shape blocksize blockoverlaps ijk
              (fun n => n) Hlen_bs Hlen_ov Hov Hijk aligned [])
    as (cropped & Hloop & Hcs & Hci).
  - simpl. lia.
  - unfold aligned. rewrite Happly, app_nil_r. exact Hfb.
  - rewrite app_nil_r in Hcs. fold ext can in Hloop, Hcs, Hci.
    exists fix_block, mov_block, applied, origins, mov_sl, cropped.
    split; [assumption|]. split; [assumption|]. split; [assumption|].
    split; [assumption|]. split; [assumption|]. split; [|split].
    + unfold DistributedTransform._transform_single_block.
      rewrite Hget. cbn [mbind result_bind]. fold fix_origin.
      rewrite Hread. cbn [mbind result_bind]. fold mapped. rewrite Hmov.
      cbn [mbind result_bind]. rewrite Hgm. cbn [mbind result_bind].
      fold aligned. unfold DistributedTransform.crop_overlap.
      rewrite transform_crop_axes_of, Hloop. reflexivity.
    + assumption.
    + assumption.
Qed.

End Block.

(** ** A whole run of the resampling *)

Lemma Permutation_fmap_inv {A B} (f : A -> B) (l1 : list B) (l2 : list A) :
  l1 ≡ₚ f <$> l2 -> exists l3, l1 = f <$> l3 /\ l3 ≡ₚ l2.
Proof.
  assert (forall l, f <$> l = map f l) as Hmap
    by (induction l as [|x l IH]; [reflexivity|]; simpl; now rewrite <- IH).
  intros H. rewrite (Hmap l2) in H.
  destruct (Permutation_map_inv _ _ H) as (l3 & -> & Hperm).
  exists l3. split; [symmetry; apply Hmap|now symmetry].
Qed.

Lemma in_volume_length (v shape : list Z) :
  in_volume v shape = true -> length v = length shape.
Proof.
  revert shape. induction v as [|x v IH]; intros [|n shape] H;
    try discriminate; [reflexivity|].
  simpl in H. apply andb_true_iff in H as [_ H]. simpl. f_equal. now apply IH.
Qed.

(** X11. A call of [distributed_apply_transform] with an output array,
    on a three-dimensional volume, with an overlap factor of at most one
    half and a chain of 4x4 matrices and fields of rank 4 that have their
    spacings: whatever the order in which the blocks complete, the call
    ends normally and returns nothing, the output keeps its shape, and
    every voxel [v] of the volume holds the value that the resampling
    kernel computed for it in the one block whose canonical tile contains
    [v], that is the entry at [v - start] of the array the kernel returned
    for the extended block starting at [start], called on the fixed block,
    the localised chain and the moving region of that block. *)
Theorem resample_fills_output_tile_by_tile {V : Type}
    (routine :
       list (list Q) -> list (ndarray Q) -> per_transform -> per_transform ->
       list (list Q))
    (apply_transform :
       ndarray V -> ndarray V -> list Q -> list Q -> list (ndarray Q) ->
       list (list Q) -> list Q -> list Q -> ndarray V)
    (as_completed :
       list (result (list slice * ndarray V)) ->
       list (result (list slice * ndarray V)))
    (fix_ mov out0 : ndarray V) (fix_spacing mov_spacing : list Q)
    (blocksize : list Z) (transform_list : list (ndarray Q))
    (overlap_factor : Q) (transform_spacing : per_transform) :
  let shape := arr_shape fix_ in
  let overlaps := BlockPlanner.overlaps blocksize overlap_factor in
  let spacings :=
    DistributedTransform.transform_spacing_list fix_spacing transform_list
      transform_spacing in
  let ext := BlockPlanner.block_coords shape blocksize overlaps in
  let can := BlockPlanner.canonical_coords shape blocksize in
  (forall futures, as_completed futures ≡ₚ futures) ->
  (forall points transforms spacing origin,
     Forall2 (fun w p : list Q => length w = length p)
       (routine points transforms spacing origin) points) ->
  (forall fb mb fs ms tl to fo mo,
     arr_shape (apply_transform fb mb fs ms tl to fo mo) = arr_shape fb) ->
  length shape = 3%nat -> length blocksize = 3%nat ->
  Forall (fun b => 0 < b) blocksize ->
  (0 <= overlap_factor <= 1 # 2)%Q ->
  ndim mov = 3%nat ->
  length fix_spacing = 3%nat -> Forall (fun x => (0 < x)%Q) fix_spacing ->
  length mov_spacing = 3%nat -> Forall (fun x => (0 < x)%Q) mov_spacing ->
  Forall (fun t => is_affine t = true \/ ndim t = 4%nat) transform_list ->
  length spacings = length transform_list ->
  Forall (fun sp => length sp = 3%nat /\ Forall (fun x => (0 < x)%Q) sp)
         spacings ->
  arr_shape out0 = shape ->
  let r :=
    DistributedTransform.distributed_apply_transform routine apply_transform
      as_completed fix_ mov fix_spacing mov_spacing blocksize transform_list
      overlap_factor (Some out0) transform_spacing in
  DistributedTransform.submitted r
  = ext <$> Np.ndindex (BlockPlanner.nblocks shape blocksize)
  /\ DistributedTransform.returned r = Ok None
  /\ exists out,
       DistributedTransform.sink r = Some out
       /\ arr_shape out = shape
       /\ (forall v,
             in_volume v shape = true ->
             exists ijk fix_block mov_block applied origins mov_slices,
               let fix_origin :=
                 Np.qmul fix_spacing (Np.of_ints (start <$> ext ijk)) in
               ijk ∈ Np.ndindex (BlockPlanner.nblocks shape blocksize)
               /\ in_extent v (can ijk) = true
               /\ getitem fix_ (slice_of <$> ext ijk) = Ok fix_block
               /\ DistributedTransform.read_transforms fix_spacing fix_origin
                    (ext ijk) spacings 0 transform_list
                  = Ok (applied, origins)
               /\ DistributedTransform.mov_slices mov_spacing (arr_shape mov)
                    (routine
                       (DistributedTransform.fix_block_coords fix_spacing
                          (ext ijk))
                       applied (Each spacings) (Each origins))
                  = Ok mov_slices
               /\ getitem mov (slice_of <$> mov_slices) = Ok mov_block
               /\ arr_item out v
                  = arr_item
                      (apply_transform fix_block mov_block fix_spacing
                         mov_spacing applied origins fix_origin
                         (Np.qmul mov_spacing
                            (Np.of_ints (start <$> mov_slices))))
                      (shift (Z.opp <$> (start <$> ext ijk)) v))
       /\ forall idx,
            in_volume (take 3 idx) shape = false ->
            arr_item out idx = arr_item out0 idx.
Proof.
  intros shape overlaps spacings ext can Hperm Hroutine Happly Hls Hlb Hpos
    Hf Hmov Hlfs Hfs Hlms Hms Hchain Hlsp Hsp Hout0 r.
  assert (length shape = length blocksize) as Hlen by lia.
  assert (Forall2 (fun b o => 0 <= o < b) blocksize overlaps) as Hov
    by now apply overlaps_below_blocksize.
  assert (length overlaps = length blocksize) as Hlo by apply length_overlaps.
  set (nb := Np.ndindex (BlockPlanner.nblocks shape blocksize)).
  set (f := fun block_coords =>
              DistributedTransform._transform_single_block routine
                apply_transform block_coords fix_ mov fix_spacing mov_spacing
                blocksize overlaps transform_list spacings).
  set (blk := fun ijk =>
                match f (ext ijk) with Ok (_, b) => b | Raise _ => out0 end).
  assert (forall ijk, ijk ∈ nb ->
            exists fix_block mov_block applied origins mov_slices,
              getitem fix_ (slice_of <$> ext ijk) = Ok fix_block
              /\ DistributedTransform.read_transforms fix_spacing
                   (Np.qmul fix_spacing (Np.of_ints (start <$> ext ijk)))
                   (ext ijk) spacings 0 transform_list
                 = Ok (applied, origins)
              /\ DistributedTransform.mov_slices mov_spacing (arr_shape mov)
                   (routine
                      (DistributedTransform.fix_block_coords fix_spacing
                         (ext ijk))
                      applied (Each spacings) (Each origins))
                 = Ok mov_slices
              /\ getitem mov (slice_of <$> mov_slices) = Ok mov_block
              /\ f (ext ijk) = Ok (can ijk, blk ijk)
              /\ arr_shape (blk ijk) = (fun c => stop c - start c) <$> can ijk
              /\ forall idx,
                   arr_item (blk ijk) idx
                   = arr_item
                       (apply_transform fix_block mov_block fix_spacing
                          mov_spacing applied origins
                          (Np.qmul fix_spacing
                             (Np.of_ints (start <$> ext ijk)))
                          (Np.qmul mov_spacing
                             (Np.of_ints (start <$> mov_slices))))
                       (shift (zip_with (fun c e => start c - start e)
                                 (can ijk) (ext ijk)) idx)) as Hblock.
  { intros ijk Hijk.
    destruct (transform_single_block_planned routine apply_transform
                Hroutine Happly shape blocksize overlaps ijk Hlen Hlo Hov
                Hijk fix_ mov fix_spacing mov_spacing transform_list spacings
                eq_refl)
      as (fb & mb & applied & origins & msl & cropped
          & Hget & _ & Hread & Hmsl & Hgm & Hrun & Hcs & Hci).
    { intros j t Hj Haff. split.
      - apply lookup_lt_is_Some_2. rewrite Hlsp.
        eapply lookup_lt_Some; eassumption.
      - pose proof (proj1 (Forall_lookup _ _) Hchain j t Hj) as [H|H];
          [congruence|]. rewrite H, Hls. reflexivity. }
    exists fb, mb, applied, origins, msl.
    assert (blk ijk = cropped) as ->.
    { unfold blk, f. fold ext in Hrun. now rewrite Hrun. }
    split; [assumption|]. split; [exact Hread|]. split; [exact Hmsl|].
    split; [exact Hgm|]. split; [exact Hrun|]. split; assumption. }
  assert (f <$> (ext <$> nb)
          = (fun ijk => Ok (can ijk, blk ijk)) <$> nb) as Hfutures.
  { rewrite <- list_fmap_compose. apply Forall_fmap_ext, Forall_forall.
    intros ijk Hijk.
    destruct (Hblock ijk Hijk)
      as (? & ? & ? & ? & ? & _ & _ & _ & _ & H & _).
    exact H. }
  subst r. unfold DistributedTransform.distributed_apply_transform.
  fold shape overlaps spacings.
  change (BlockPlanner.blocks_coords shape blocksize overlap_factor)
    with (ext <$> nb).
  fold f. rewrite Hfutures.
  destruct (Permutation_fmap_inv _ _ _
              (Hperm ((fun ijk => Ok (can ijk, blk ijk)) <$> nb)))
    as (order & -> & Horder).
  destruct (write_blocks_complete shape blocksize Hlen Hpos [] blk
              ltac:(intros ijk Hijk; rewrite app_nil_r;
                    destruct (Hblock ijk Hijk)
                      as (? & ? & ? & ? & ? & _ & _ & _ & _ & _ & H & _);
                    exact H)
              order out0 ltac:(now rewrite app_nil_r) Horder)
    as (out & Hrun & Hshape & Hin & Hout).
  fold can in Hrun. rewrite Hrun. cbn [DistributedTransform.submitted
    DistributedTransform.returned DistributedTransform.sink mbind result_bind].
  split; [reflexivity|]. split; [reflexivity|].
  exists out. split; [reflexivity|]. split; [congruence|]. split.
  - intros v Hv.
    pose proof (in_volume_length _ _ Hv) as Hlv.
    specialize (Hin v). rewrite take_ge in Hin by lia.
    destruct (Hin Hv) as (ijk & Hijk & Hext & Hitem).
    destruct (Hblock ijk Hijk)
      as (fb & mb & applied & origins & msl & Hget & Hread & Hmsl & Hgm
          & _ & _ & Hci).
    exists ijk, fb, mb, applied, origins, msl. cbv zeta.
    split; [assumption|]. split; [assumption|]. split; [assumption|].
    split; [exact Hread|]. split; [exact Hmsl|]. split; [exact Hgm|].
    rewrite Hitem, Hci. f_equal.
    assert (length (can ijk) = length (ext ijk)) as Hce.
    { unfold can, ext.
      rewrite (length_can shape blocksize overlaps), length_ext by assumption.
      reflexivity. }
    unfold can, ext in Hce |- *.
    rewrite shift_shift by (rewrite length_zip_with, !length_fmap; lia).
    now rewrite offsets_compose.
  - intros idx Hidx. apply Hout. now rewrite Hls.
Qed.

Lemma resample_fills_output_tile_by_tile_witness :
  DistributedTransform.returned
    (DistributedTransform.distributed_apply_transform
       (fun coords _ _ _ => coords)
       (fun fix_block _ _ _ _ _ _ _ => fix_block) (@rev _)
       (NdArray [3; 2; 2] (fun idx => idx))
       (NdArray [3; 2; 2] (fun idx => idx))
       [1; 1; 1]%Q [1; 1; 1]%Q [2; 2; 2]
       [NdArray [4; 4] (fun _ => 0%Q)] (1 # 2)
       (Some (NdArray [3; 2; 2] (fun _ => []))) Unset)
  = Ok None.
Proof.
  apply (resample_fills_output_tile_by_tile
           (fun coords _ _ _ => coords)
           (fun fix_block _ _ _ _ _ _ _ => fix_block) (@rev _)
           (NdArray [3; 2; 2] (fun idx => idx))
           (NdArray [3; 2; 2] (fun idx => idx))
           (NdArray [3; 2; 2] (fun _ => []))
           [1; 1; 1]%Q [1; 1; 1]%Q [2; 2; 2]
           [NdArray [4; 4] (fun _ => 0%Q)] (1 # 2) Unset).
  - intros futures. symmetry. apply Permutation_rev.
  - intros points _ _ _. induction points; constructor; auto.
  - reflexivity.
  - reflexivity.
  - reflexivity.
  - repeat constructor.
  - split; discriminate.
  - reflexivity.
  - reflexivity.
  - repeat constructor.
  - reflexivity.
  - repeat constructor.
  - repeat constructor.
  - reflexivity.
  - repeat constructor.
  - reflexivity.
Defined.

(** ** A whole run of the inversion *)

(** X12. A call of [distributed_invert_displacement_vector_field] of
    [distributed_transform.py] with an output array, on a field over a
    three-dimensional volume, with an overlap factor of at most one half
    (the default 0.25 among them): whatever the order in which the write
    tasks finish, the call ends normally, the output keeps its shape, and
    every entry of the output over a voxel of the volume is the entry that
    the inversion routine computed for that voxel in the one block whose
    canonical tile contains it; the overlaps are thrown away. *)
Theorem distributed_invert_fills_output {V : Type}
    (invert : ndarray V -> list Q -> Z -> Z -> Z -> ndarray V)
    (as_completed :
       list (result (list slice * ndarray V)) ->
       list (result (list slice * ndarray V)))
    (vectorfield_array out0 : ndarray V) (spacing : list Q)
    (blocksize : list Z) (overlap_factor : Q)
    (iterations order sqrt_iterations : Z) (shape : list Z) (c : Z) :
  let overlaps := BlockPlanner.overlaps blocksize overlap_factor in
  let ext := BlockPlanner.block_coords shape blocksize overlaps in
  let can := BlockPlanner.canonical_coords shape blocksize in
  (forall futures, as_completed futures ≡ₚ futures) ->
  (forall field sp it ord sq,
     arr_shape (invert field sp it ord sq) = arr_shape field) ->
  arr_shape vectorfield_array = shape ++ [c] ->
  length shape = 3%nat -> length blocksize = 3%nat ->
  Forall (fun b => 0 < b) blocksize ->
  (0 <= overlap_factor <= 1 # 2)%Q ->
  arr_shape out0 = shape ++ [c] ->
  let r :=
    DistributedInvert.distributed_invert_displacement_vector_field invert
      as_completed vectorfield_array spacing blocksize (Some out0)
      overlap_factor iterations order sqrt_iterations in
  DistributedInvert.submitted r
  = ext <$> Np.ndindex (BlockPlanner.nblocks shape blocksize)
  /\ DistributedInvert.outcome r = Ok tt
  /\ exists out,
       DistributedInvert.output r = Some out
       /\ arr_shape out = shape ++ [c]
       /\ (forall idx,
             in_volume (take 3 idx) shape = true ->
             exists ijk block_vectorfield,
               ijk ∈ Np.ndindex (BlockPlanner.nblocks shape blocksize)
               /\ in_extent (take 3 idx) (can ijk) = true
               /\ getitem vectorfield_array (slice_of <$> ext ijk)
                  = Ok block_vectorfield
               /\ arr_item out idx
                  = arr_item
                      (invert block_vectorfield spacing iterations order
                         sqrt_iterations)
                      (shift (Z.opp <$> (start <$> ext ijk)) idx))
       /\ forall idx,
            in_volume (take 3 idx) shape = false ->
            arr_item out idx = arr_item out0 idx.
Proof.
  intros overlaps ext can Hperm Hcontract Hfield Hls Hlb Hpos Hf Hout0 r.
  assert (length shape = length blocksize) as Hlen by lia.
  assert (Forall2 (fun b o => 0 <= o < b) blocksize overlaps) as Hov
    by now apply overlaps_below_blocksize.
  assert (length overlaps = length blocksize) as Hlo by apply length_overlaps.
  set (nb := Np.ndindex (BlockPlanner.nblocks shape blocksize)).
  set (f := fun block_coords =>
              DistributedInvert._invert_block invert block_coords
                vectorfield_array spacing blocksize overlaps iterations order
                sqrt_iterations).
  set (blk := fun ijk =>
                match f (ext ijk) with Ok (_, b) => b | Raise _ => out0 end).
  assert (forall ijk, ijk ∈ nb ->
            exists block_vectorfield,
              getitem vectorfield_array (slice_of <$> ext ijk)
              = Ok block_vectorfield
              /\ f (ext ijk) = Ok (can ijk, blk ijk)
              /\ arr_shape (blk ijk)
                 = ((fun s => stop s - start s) <$> can ijk) ++ [c]
              /\ forall idx,
                   arr_item (blk ijk) idx
                   = arr_item
                       (invert block_vectorfield spacing iterations order
                          sqrt_iterations)
                       (shift (zip_with (fun c e => start c - start e)
                                 (can ijk) (ext ijk)) idx)) as Hblock.
  { intros ijk Hijk.
    destruct (invert_block_planned invert shape blocksize overlaps ijk c
                vectorfield_array spacing iterations order sqrt_iterations
                Hlen Hlo Hov Hijk Hcontract Hfield)
      as (bv & inv & Hget & _ & Hrun & Hshape & Hitem).
    exists bv.
    assert (blk ijk = inv) as -> by (unfold blk, f, ext; now rewrite Hrun).
    split; [assumption|]. split; [exact Hrun|]. split; assumption. }
  assert (f <$> (ext <$> nb) = (fun ijk => Ok (can ijk, blk ijk)) <$> nb)
    as Hfutures.
  { rewrite <- list_fmap_compose. apply Forall_fmap_ext, Forall_forall.
    intros ijk Hijk. destruct (Hblock ijk Hijk) as (? & _ & H & _). exact H. }
  subst r.
  unfold DistributedInvert.distributed_invert_displacement_vector_field.
  rewrite Hfield, removelast_last. fold overlaps.
  change (BlockPlanner.blocks_coords shape blocksize overlap_factor)
    with (ext <$> nb).
  fold f. rewrite Hfutures.
  destruct (Permutation_fmap_inv _ _ _
              (Hperm ((fun ijk => Ok (can ijk, blk ijk)) <$> nb)))
    as (order_ & -> & Horder).
  destruct (invert_write_tasks_complete shape blocksize Hlen Hpos [c] blk
              ltac:(intros ijk Hijk;
                    destruct (Hblock ijk Hijk) as (? & _ & _ & H & _);
                    exact H)
              order_ out0 Hout0 Horder)
    as (out & Hrun & Hshape & Hin & Hout).
  fold can in Hrun. rewrite Hrun.
  cbn [DistributedInvert.submitted DistributedInvert.outcome
         DistributedInvert.output].
  split; [reflexivity|]. split; [reflexivity|].
  exists out. split; [reflexivity|]. split; [congruence|].
  rewrite Hls in Hin, Hout. split; [|exact Hout].
  intros idx Hidx.
  destruct (Hin idx Hidx) as (ijk & Hijk & Hext & Hitem).
  destruct (Hblock ijk Hijk) as (bv & Hget & _ & _ & Hci).
  exists ijk, bv. split; [assumption|]. split; [assumption|].
  split; [assumption|]. rewrite Hitem, Hci. f_equal.
  assert (length (can ijk) = length (ext ijk)) as Hce.
  { unfold can, ext.
    rewrite (length_can shape blocksize overlaps), length_ext by assumption.
    reflexivity. }
  unfold can, ext in Hce |- *.
  rewrite shift_shift by (rewrite length_zip_with, !length_fmap; lia).
  now rewrite offsets_compose.
Qed.

Lemma distributed_invert_fills_output_witness :
  DistributedInvert.outcome
    (DistributedInvert.distributed_invert_displacement_vector_field
       (fun field _ _ _ _ => field) (@rev _)
       (NdArray [3; 2; 2; 3] (fun idx => idx)) [1; 1; 1]%Q [2; 2; 2]
       (Some (NdArray [3; 2; 2; 3] (fun _ => []))) (1 # 4) 10 2 5)
  = Ok tt.
Proof.
  apply (distributed_invert_fills_output
           (fun field _ _ _ _ => field) (@rev _)
           (NdArray [3; 2; 2; 3] (fun idx => idx))
           (NdArray [3; 2; 2; 3] (fun _ => []))
           [1; 1; 1]%Q [2; 2; 2] (1 # 4) 10 2 5 [3; 2; 2] 3).
  - intros futures. symmetry. apply Permutation_rev.
  - reflexivity.
  - reflexivity.
  - reflexivity.
  - reflexivity.
  - repeat constructor.
  - split; discriminate.
  - reflexivity.
Defined.

Lemma imap_zip_fmap {A B C D} (F : nat -> B * C -> D) (g1 : A -> B)
    (g2 : A -> C) (l : list A) :
  imap F (zip (g1 <$> l) (g2 <$> l))
  = (fun p => F p.1 (g1 p.2, g2 p.2)) <$> imap pair l.
Proof.
  assert (zip (g1 <$> l) (g2 <$> l) = (fun x => (g1 x, g2 x)) <$> l) as ->.
  { induction l as [|x l IH]; [reflexivity|].
    rewrite !fmap_cons. cbn [zip_with]. now rewrite IH. }
  rewrite imap_fmap, fmap_imap. apply imap_ext. reflexivity.
Qed.

(** X13. [distributed_invert_displacement_vector_field] of
    [piecewise_transform.py], whose overlap is a quarter of the block
    size, on a field over a three-dimensional volume and for every block
    size: whatever the order in which the futures finish, the call
    returns an array of the shape of the field in which every entry over a
    voxel of the volume is the entry that the inversion routine computed
    for that voxel in the one block whose canonical tile contains it;
    without [write_path] it is built in memory from zeros, with
    [write_path] it is the output array the tasks have written. *)
Theorem piecewise_invert_returns_assembled_field {V : Type}
    (invert : ndarray V -> list Q -> Q -> Z -> Z -> Q -> Z -> ndarray V)
    (create_zarr : list Z -> ndarray V) (zero : V)
    (as_completed : forall R, list (nat * R) -> list (nat * R))
    (field : ndarray V) (spacing : list Q) (blocksize : list Z)
    (write_path : bool) (step : Q) (iterations sqrt_order : Z) (sqrt_step : Q)
    (sqrt_iterations : Z) (shape : list Z) (c : Z) :
  let overlap := BlockPlanner.overlaps blocksize (1 # 4) in
  let ext := BlockPlanner.coords_overlaps shape blocksize overlap in
  let can := BlockPlanner.canonical_coords shape blocksize in
  (forall R (futures : list (nat * R)), as_completed R futures ≡ₚ futures) ->
  (forall field sp st it so ss si,
     arr_shape (invert field sp st it so ss si) = arr_shape field) ->
  (forall sh, arr_shape (create_zarr sh) = sh) ->
  arr_shape field = shape ++ [c] ->
  length shape = 3%nat -> length blocksize = 3%nat ->
  Forall (fun b => 0 < b) blocksize ->
  exists inverse,
    PiecewiseInvert.distributed_invert_displacement_vector_field invert
      create_zarr zero as_completed field spacing blocksize write_path step
      iterations sqrt_order sqrt_step sqrt_iterations
    = Ok inverse
    /\ arr_shape inverse = shape ++ [c]
    /\ (forall idx,
          in_volume (take 3 idx) shape = true ->
          exists ijk block,
            ijk ∈ Np.ndindex (BlockPlanner.nblocks shape blocksize)
            /\ in_extent (take 3 idx) (can ijk) = true
            /\ getitem field (slice_of <$> ext ijk) = Ok block
            /\ arr_item inverse idx
               = arr_item
                   (invert block spacing step iterations sqrt_order
                      sqrt_step sqrt_iterations)
                   (shift (Z.opp <$> (start <$> ext ijk)) idx))
    /\ forall idx,
         in_volume (take 3 idx) shape = false ->
         arr_item inverse idx
         = if write_path then arr_item (create_zarr (shape ++ [c])) idx
           else zero.
Proof.
  intros overlap ext can Hperm Hcontract Hcreate Hfield Hls Hlb Hpos.
  assert (length shape = length blocksize) as Hlen by lia.
  set (nb := Np.ndindex (BlockPlanner.nblocks shape blocksize)).
  set (f := PiecewiseInvert.invert_block invert field spacing blocksize
              overlap step iterations sqrt_order sqrt_step sqrt_iterations).
  set (blk := fun ijk =>
                match f (ext ijk) with Ok b => b | Raise _ => field end).
  assert (forall ijk, ijk ∈ nb ->
            exists block,
              getitem field (slice_of <$> ext ijk) = Ok block
              /\ f (ext ijk) = Ok (blk ijk)
              /\ arr_shape (blk ijk)
                 = ((fun s => stop s - start s) <$> can ijk) ++ [c]
              /\ forall idx,
                   arr_item (blk ijk) idx
                   = arr_item
                       (invert block spacing step iterations sqrt_order
                          sqrt_step sqrt_iterations)
                       (shift (zip_with (fun c e => start c - start e)
                                 (can ijk) (ext ijk)) idx)) as Hblock.
  { intros ijk Hijk.
    destruct (piecewise_invert_block_planned invert shape blocksize ijk c
                field spacing step iterations sqrt_order sqrt_step
                sqrt_iterations Hlen Hpos Hijk Hcontract Hfield)
      as (bv & inv & Hget & _ & Hrun & Hshape & Hitem).
    exists bv.
    assert (blk ijk = inv) as ->
      by (unfold blk, f, ext, overlap; now rewrite Hrun).
    split; [assumption|]. split; [exact Hrun|]. split; assumption. }
  unfold PiecewiseInvert.distributed_invert_displacement_vector_field.
  cbv zeta. rewrite Hfield, removelast_last. fold overlap nb.
  change (BlockPlanner.canonical_coords shape blocksize <$> nb)
    with (can <$> nb).
  change (BlockPlanner.coords_overlaps shape blocksize overlap <$> nb)
    with (ext <$> nb).
  rewrite (imap_zip_fmap _ can ext nb). fold f.
  assert ((fun p : nat * list Z =>
             let '(slices, slices_overlaps) := (can p.2, ext p.2) in
             (p.1, (slices, f slices_overlaps))) <$> imap pair nb
          = (fun p => (p.1, (can p.2, Ok (blk p.2)))) <$> imap pair nb)
    as ->.
  { apply Forall_fmap_ext, Forall_forall. intros [iii ijk] Hp.
    apply elem_of_imap_pair in Hp.
    assert (ijk ∈ nb) as Hijk by (eapply list_elem_of_lookup_2; eassumption).
    destruct (Hblock ijk Hijk) as (? & _ & H & _). simpl. now rewrite H. }
  destruct (Permutation_fmap_inv _ _ _
              (Hperm _ ((fun p => (p.1, (can p.2, Ok (blk p.2))))
                          <$> imap pair nb)))
    as (order_ & -> & Horder).
  assert (forall (base : ndarray V),
            arr_shape base = shape ++ [c] ->
            forall out,
              arr_shape out = arr_shape base ->
              (forall idx,
                 in_volume (take (length shape) idx) shape = true ->
                 exists ijk,
                   ijk ∈ nb
                   /\ in_extent (take (length shape) idx) (can ijk) = true
                   /\ arr_item out idx
                      = arr_item (blk ijk)
                          (shift (Z.opp <$> (start <$> can ijk)) idx)) ->
              forall idx,
                in_volume (take 3 idx) shape = true ->
                exists ijk block,
                  ijk ∈ nb
                  /\ in_extent (take 3 idx) (can ijk) = true
                  /\ getitem field (slice_of <$> ext ijk) = Ok block
                  /\ arr_item out idx
                     = arr_item
                         (invert block spacing step iterations sqrt_order
                            sqrt_step sqrt_iterations)
                         (shift (Z.opp <$> (start <$> ext ijk)) idx))
    as Hvoxel.
  { intros base _ out _ Hin idx Hidx. rewrite Hls in Hin.
    destruct (Hin idx Hidx) as (ijk & Hijk & Hext & Hitem).
    destruct (Hblock ijk Hijk) as (bv & Hget & _ & _ & Hci).
    exists ijk, bv. split; [assumption|]. split; [assumption|].
    split; [assumption|]. rewrite Hitem, Hci. f_equal.
    assert (length (can ijk) = length (ext ijk)) as Hce.
    { unfold can, ext. rewrite coords_overlaps_block_coords.
      rewrite (length_can shape blocksize overlap), length_ext;
        try assumption; try reflexivity; apply length_overlaps. }
    unfold can, ext in Hce |- *.
    rewrite shift_shift by (rewrite length_zip_with, !length_fmap; lia).
    now rewrite offsets_compose. }
  destruct write_path; cbn [negb].
  - destruct (piecewise_write_tasks_complete shape blocksize Hlen Hpos [c] blk
                ltac:(intros ijk Hijk;
                      destruct (Hblock ijk Hijk) as (? & _ & _ & H & _);
                      exact H)
                order_ (create_zarr (shape ++ [c])) (Hcreate _) Horder)
      as (out & Hrun & Hshape & Hin & Hout).
    exists out. split; [exact Hrun|].
    split; [rewrite Hshape; apply Hcreate|].
    split; [now apply (Hvoxel (create_zarr (shape ++ [c])) (Hcreate _))|].
    rewrite Hls in Hout. exact Hout.
  - rewrite <- list_fmap_compose.
    destruct (reconstruct_complete shape blocksize Hlen Hpos [c] blk
                ltac:(intros ijk Hijk;
                      destruct (Hblock ijk Hijk) as (? & _ & _ & H & _);
                      exact H)
                order_ (NdArray (shape ++ [c]) (fun _ => zero)) eq_refl
                Horder)
      as (out & Hrun & Hshape & Hin & Hout).
    exists out. split; [exact Hrun|]. split; [exact Hshape|].
    split; [now apply (Hvoxel (NdArray (shape ++ [c]) (fun _ => zero))
                         eq_refl)|].
    rewrite Hls in Hout. exact Hout.
Qed.

Lemma piecewise_invert_returns_assembled_field_witness :
  exists inverse,
    PiecewiseInvert.distributed_invert_displacement_vector_field
      (fun field _ _ _ _ _ _ => field) (fun sh => NdArray sh (fun _ => []))
      [] (fun R => @rev _) (NdArray [3; 2; 2; 3] (fun idx => idx))
      [1; 1; 1]%Q [2; 2; 2] false (1 # 2) 10 2 (1 # 2) 5
    = Ok inverse
    /\ arr_shape inverse = [3; 2; 2; 3].
Proof.
  destruct (piecewise_invert_returns_assembled_field
              (fun field _ _ _ _ _ _ => field)
              (fun sh => NdArray sh (fun _ => []))
              [] (fun R => @rev _) (NdArray [3; 2; 2; 3] (fun idx => idx))
              [1; 1; 1]%Q [2; 2; 2] false (1 # 2) 10 2 (1 # 2) 5
              [3; 2; 2] 3)
    as (inverse & Hrun & Hshape & _).
  - intros R futures. symmetry. apply Permutation_rev.
  - reflexivity.
  - reflexivity.
  - reflexivity.
  - reflexivity.
  - reflexivity.
  - repeat constructor.
  - exists inverse. split; assumption.
Defined.

(** ** The block pipelines of the two files *)

Lemma traced_block_three (fix_slices : list slice) :
  length fix_slices = 3%nat ->
  exists b, PiecewiseResample.traced_block fix_slices = Ok b.
Proof.
  destruct fix_slices as [|s0 [|s1 [|s2 [|? ?]]]]; try discriminate.
  intros _. unfold PiecewiseResample.traced_block, index. simpl.
  destruct (start s0 =? 0), (start s1 =? 96); eexists; reflexivity.
Qed.

Lemma resample_read_transforms (fix_spacing fix_origin : list Q)
    (fix_slices : list slice) (transform_spacing : list (list Q)) (iii : nat)
    (transform_list : list (ndarray Q)) :
  length fix_slices = 3%nat ->
  PiecewiseResample.read_transforms fix_spacing fix_origin fix_slices
    transform_spacing iii transform_list
  = DistributedTransform.read_transforms fix_spacing fix_origin fix_slices
      transform_spacing iii transform_list.
Proof.
  intros Hlen. destruct (traced_block_three fix_slices Hlen) as [b Hb].
  revert iii. induction transform_list as [|t rest IH]; intros iii;
    [reflexivity|].
  cbn [PiecewiseResample.read_transforms DistributedTransform.read_transforms].
  destruct (DistributedTransform.read_transform _ _ _ _ iii t) as [[t' o]|e];
    cbn [mbind result_bind]; [|reflexivity].
  rewrite Hb. cbn [mbind result_bind]. now rewrite IH.
Qed.

(** X14. On the slices of a three-dimensional block, the closure
    [transform_single_block] of [piecewise_transform.py] computes the array
    that [_transform_single_block] of [distributed_transform.py] returns
    beside the placement slices: the two files run the same block
    pipeline, and fail on the same inputs with the same exception. *)
Theorem block_pipelines_agree {V : Type}
    (routine :
       list (list Q) -> list (ndarray Q) -> per_transform -> per_transform ->
       list (list Q))
    (apply_transform :
       ndarray V -> ndarray V -> list Q -> list Q -> list (ndarray Q) ->
       list (list Q) -> list Q -> list Q -> list (list Q) -> ndarray V)
    (fix_zarr mov_zarr : ndarray V) (fix_spacing mov_spacing : list Q)
    (blocksize overlap : list Z) (transform_spacing : list (list Q))
    (fix_slices : list slice) (transform_list : list (ndarray Q)) :
  length fix_slices = 3%nat ->
  PiecewiseResample.transform_single_block routine apply_transform fix_zarr
    mov_zarr fix_spacing mov_spacing blocksize overlap transform_spacing
    fix_slices transform_list
  = snd <$> DistributedTransform._transform_single_block routine
              (fun fb mb fs ms tl to fo mo =>
                 apply_transform fb mb fs ms tl to fo mo transform_spacing)
              fix_slices fix_zarr mov_zarr fix_spacing mov_spacing blocksize
              overlap transform_list transform_spacing.
Proof.
  intros Hlen. destruct (traced_block_three fix_slices Hlen) as [b Hb].
  unfold PiecewiseResample.transform_single_block,
    DistributedTransform._transform_single_block.
  destruct (getitem fix_zarr _) as [fix_block|e];
    cbn [mbind result_bind fmap result_fmap]; [|reflexivity].
  rewrite resample_read_transforms by assumption.
  destruct (DistributedTransform.read_transforms _ _ _ _ _ _)
    as [[applied origins]|e];
    cbn [mbind result_bind fmap result_fmap]; [|reflexivity].
  destruct (DistributedTransform.mov_slices _ _ _) as [mov_slices|e];
    cbn [mbind result_bind fmap result_fmap]; [|reflexivity].
  destruct (getitem mov_zarr _) as [mov_block|e];
    cbn [mbind result_bind fmap result_fmap]; [|reflexivity].
  rewrite Hb. cbn [mbind result_bind].
  unfold DistributedTransform.crop_overlap.
  rewrite (resample_crop_axes_of _ _ _ _ _ []), transform_crop_axes_of.
  destruct (crop_axes_of _ _ _ _ _ _) as [[cropped fin]|e]; reflexivity.
Qed.

Lemma block_pipelines_agree_witness :
  PiecewiseResample.transform_single_block (fun coords _ _ _ => coords)
    (fun fix_block _ _ _ _ _ _ _ _ => fix_block)
    (NdArray [4; 4; 4] (fun idx => idx)) (NdArray [4; 4; 4] (fun idx => idx))
    [1; 1; 1]%Q [1; 1; 1]%Q [2; 2; 2] [1; 1; 1] [[1; 1; 1]%Q]
    [Slice 1 4; Slice 0 3; Slice 1 4] [NdArray [4; 4] (fun _ => 0%Q)]
  = snd <$> DistributedTransform._transform_single_block
              (fun coords _ _ _ => coords)
              (fun fix_block _ _ _ _ _ _ _ => fix_block)
              [Slice 1 4; Slice 0 3; Slice 1 4]
              (NdArray [4; 4; 4] (fun idx => idx))
              (NdArray [4; 4; 4] (fun idx => idx))
              [1; 1; 1]%Q [1; 1; 1]%Q [2; 2; 2] [1; 1; 1]
              [NdArray [4; 4] (fun _ => 0%Q)] [[1; 1; 1]%Q].
Proof.
  apply (block_pipelines_agree (fun coords _ _ _ => coords)
           (fun fix_block _ _ _ _ _ _ _ _ => fix_block)
           (NdArray [4; 4; 4] (fun idx => idx))
           (NdArray [4; 4; 4] (fun idx => idx))
           [1; 1; 1]%Q [1; 1; 1]%Q [2; 2; 2] [1; 1; 1] [[1; 1; 1]%Q]
           [Slice 1 4; Slice 0 3; Slice 1 4] [NdArray [4; 4] (fun _ => 0%Q)]).
  reflexivity.
Defined.

(** ** The moving region under the identity *)

Lemma round_inject_Z (c : Z) : Np.round (inject_Z c) = c.
Proof.
  unfold Np.round. rewrite Qfloor_Z.
  destruct (Qcompare_spec (inject_Z c - inject_Z c) (1 # 2)) as [E|E|E].
  - exfalso. assert (inject_Z c - inject_Z c == 0)%Q as H by ring.
    rewrite H in E. discriminate.
  - reflexivity.
  - exfalso. assert (inject_Z c - inject_Z c == 0)%Q as H by ring.
    rewrite H in E. discriminate.
Qed.

Lemma round_comp (x y : Q) : (x == y)%Q -> Np.round x = Np.round y.
Proof.
  intros H. unfold Np.round. rewrite (Qfloor_comp _ _ H).
  assert (x - inject_Z (Qfloor y) == y - inject_Z (Qfloor y))%Q as H'
    by now rewrite H.
  now rewrite (Qcompare_comp _ _ H' (1 # 2) (1 # 2) (Qeq_refl _)).
Qed.

Lemma round_scaled (c : Z) (a : Q) :
  (0 < a)%Q -> Np.round (inject_Z c * a / a) = c.
Proof.
  intros Ha. rewrite (round_comp _ (inject_Z c)); [apply round_inject_Z|].
  field. intros H. rewrite H in Ha. now apply Qlt_irrefl in Ha.
Qed.

(** X15. When the coordinate routine maps the corners of a block to
    themselves and the two images have the same spacing, the moving region
    read for the block runs, on every axis, from the first voxel of the
    block to its last voxel, which is left out (each clipped to the moving
    volume): the maximum over the corners is the index [stop - 1] and
    serves as the stop of the slice, so the moving block is one voxel
    shorter than the fixed block. *)
Theorem identity_moving_region_stops_at_last_voxel
    (routine :
       list (list Q) -> list (ndarray Q) -> per_transform -> per_transform ->
       list (list Q))
    (spacing : list Q) (mov_shape : list Z) (block_coords : list slice)
    (applied : list (ndarray Q))
    (transform_spacing_list origins : list (list Q)) :
  (forall points transforms sp og, routine points transforms sp og = points) ->
  length block_coords = 3%nat -> length spacing = 3%nat ->
  length mov_shape = 3%nat ->
  Forall (fun x => (0 < x)%Q) spacing ->
  Forall (fun s => start s < stop s) block_coords ->
  DistributedTransform.mov_slices spacing mov_shape
    (routine (DistributedTransform.fix_block_coords spacing block_coords)
       applied (Each transform_spacing_list) (Each origins))
  = Ok (zip_with
          (fun s n => Slice (Z.min n (Z.max 0 (start s)))
                            (Z.min n (Z.max 0 (stop s - 1))))
          block_coords mov_shape).
Proof.
  intros Hid Hlb Hls Hlm Hpos Hne. rewrite Hid.
  destruct block_coords as [|s1 [|s2 [|s3 [|? ?]]]]; try discriminate.
  destruct spacing as [|a1 [|a2 [|a3 [|? ?]]]]; try discriminate.
  destruct mov_shape as [|n1 [|n2 [|n3 [|? ?]]]]; try discriminate.
  inversion Hpos as [|? ? Ha1 Hpos1]; subst.
  inversion Hpos1 as [|? ? Ha2 Hpos2]; subst.
  inversion Hpos2 as [|? ? Ha3 _]; subst.
  inversion Hne as [|? ? Hs1 Hne1]; subst.
  inversion Hne1 as [|? ? Hs2 Hne2]; subst.
  inversion Hne2 as [|? ? Hs3 _]; subst.
  unfold DistributedTransform.mov_slices, DistributedTransform.mov_voxels,
    DistributedTransform.fix_block_coords, DistributedTransform.block_corners,
    Np.qmul, Np.qdiv, Np.of_ints, Np.maximum0, Np.minimum.
  cbn [Np.product01 mbind list_bind fmap list_fmap app zip_with].
  rewrite !(round_scaled (start s1) a1 Ha1), !(round_scaled (stop s1 - 1) a1 Ha1),
    !(round_scaled (start s2) a2 Ha2), !(round_scaled (stop s2 - 1) a2 Ha2),
    !(round_scaled (start s3) a3 Ha3), !(round_scaled (stop s3 - 1) a3 Ha3).
  cbn [min_axis0 max_axis0 foldl zip_with mbind result_bind start stop].
  assert (forall n lo hi, lo < hi ->
            Z.min n (Z.max 0 lo) <= Z.min n (Z.max 0 (hi - 1))) as Hclip
    by (intros; lia).
  pose proof (Hclip n1 _ _ Hs1) as H1.
  pose proof (Hclip n2 _ _ Hs2) as H2.
  pose proof (Hclip n3 _ _ Hs3) as H3.
  clear Hclip.
  generalize dependent (Z.min n1 (Z.max 0 (start s1))).
  generalize dependent (Z.min n1 (Z.max 0 (stop s1 - 1))).
  generalize dependent (Z.min n2 (Z.max 0 (start s2))).
  generalize dependent (Z.min n2 (Z.max 0 (stop s2 - 1))).
  generalize dependent (Z.min n3 (Z.max 0 (start s3))).
  generalize dependent (Z.min n3 (Z.max 0 (stop s3 - 1))).
  intros h3 l3 H3 h2 l2 H2 h1 l1 H1.
  clear - H1 H2 H3.
  f_equal. f_equal; [f_equal; lia|].
  f_equal; [f_equal; lia|]. f_equal. f_equal; lia.
Qed.

Lemma identity_moving_region_stops_at_last_voxel_witness :
  DistributedTransform.mov_slices [1; 2; 3]%Q [10; 10; 10]
    (identity_routine
       (DistributedTransform.fix_block_coords [1; 2; 3]%Q
          [Slice 2 6; Slice 0 4; Slice 2 6])
       [] (Each []) (Each []))
  = Ok [Slice 2 5; Slice 0 3; Slice 2 5].
Proof.
  apply (identity_moving_region_stops_at_last_voxel identity_routine
           [1; 2; 3]%Q [10; 10; 10] [Slice 2 6; Slice 0 4; Slice 2 6]
           [] [] []).
  - reflexivity.
  - reflexivity.
  - reflexivity.
  - reflexivity.
  - repeat constructor.
  - repeat constructor.
Defined.

(** ** A block that fails *)

Lemma write_blocks_until_failure {V} (aligned_data : option (ndarray V))
    (pre post : list (result (list slice * ndarray V))) (e : exn) :
  Forall (fun r => exists b, r = Ok b) pre ->
  DistributedTransform.write_blocks aligned_data (pre ++ Raise e :: post)
  = (fst (DistributedTransform.write_blocks aligned_data pre),
     _ ← snd (DistributedTransform.write_blocks aligned_data pre); Raise e).
Proof.
  intros Hpre. revert aligned_data.
  induction Hpre as [|r pre [[coords block] ->] Hpre IH]; intros aligned_data;
    [reflexivity|].
  cbn [app DistributedTransform.write_blocks].
  destruct aligned_data as [out|]; [|apply IH].
  destruct (setitem out coords block) as [out'|e']; [apply IH|reflexivity].
Qed.

(** X16. When a block task of [distributed_apply_transform] fails, the
    call raises: it does not end normally, whatever the blocks after the
    failed one hold. The blocks that completed before it have been written
    to the output array and stay written, the blocks after it are not
    written: the output is left as the loop had it when it met the failed
    future. *)
Theorem failed_block_leaves_partial_output {V : Type}
    (routine :
       list (list Q) -> list (ndarray Q) -> per_transform -> per_transform ->
       list (list Q))
    (apply_transform :
       ndarray V -> ndarray V -> list Q -> list Q -> list (ndarray Q) ->
       list (list Q) -> list Q -> list Q -> ndarray V)
    (as_completed :
       list (result (list slice * ndarray V)) ->
       list (result (list slice * ndarray V)))
    (fix_ mov : ndarray V) (fix_spacing mov_spacing : list Q)
    (blocksize : list Z) (transform_list : list (ndarray Q))
    (overlap_factor : Q) (aligned_data : option (ndarray V))
    (transform_spacing : per_transform)
    (pre post : list (result (list slice * ndarray V))) (e : exn) :
  let futures :=
    (fun block_coords =>
       DistributedTransform._transform_single_block routine apply_transform
         block_coords fix_ mov fix_spacing mov_spacing blocksize
         (BlockPlanner.overlaps blocksize overlap_factor) transform_list
         (DistributedTransform.transform_spacing_list fix_spacing
            transform_list transform_spacing))
      <$> BlockPlanner.blocks_coords (arr_shape fix_) blocksize
            overlap_factor in
  as_completed futures = pre ++ Raise e :: post ->
  Forall (fun r => exists b, r = Ok b) pre ->
  let r :=
    DistributedTransform.distributed_apply_transform routine apply_transform
      as_completed fix_ mov fix_spacing mov_spacing blocksize transform_list
      overlap_factor aligned_data transform_spacing in
  DistributedTransform.sink r
  = fst (DistributedTransform.write_blocks aligned_data pre)
  /\ (exists e', DistributedTransform.returned r = Raise e')
  /\ (snd (DistributedTransform.write_blocks aligned_data pre) = Ok tt ->
      DistributedTransform.returned r = Raise e).
Proof.
  intros futures Hcompleted Hpre r. subst r futures.
  unfold DistributedTransform.distributed_apply_transform.
  rewrite Hcompleted, write_blocks_until_failure by assumption.
  cbn [DistributedTransform.sink DistributedTransform.returned].
  split; [reflexivity|].
  destruct (snd (DistributedTransform.write_blocks aligned_data pre))
    as [[]|e']; cbn [mbind result_bind].
  - split; [now exists e|reflexivity].
  - split; [now exists e'|discriminate].
Qed.

(** Two blocks, completed in the order submitted. The coordinate routine
    maps no corner of the second block, whose task fails at [np.min] with
    [ValueError]; the first block has been written by then, and the voxel
    (2,1,1), which lies in the tile of the second block, has not. *)
Lemma failed_block_leaves_partial_output_witness :
  DistributedTransform.returned
    (DistributedTransform.distributed_apply_transform
       (fun coords _ _ _ =>
          List.filter
            (fun p : list Q =>
               match p with x :: _ => Qle_bool x 0 | [] => false end)
            coords)
       (fun fix_block _ _ _ _ _ _ _ => fix_block) (fun futures => futures)
       (NdArray [3; 2; 2] (fun idx => idx))
       (NdArray [3; 2; 2] (fun idx => idx))
       [1; 1; 1]%Q [1; 1; 1]%Q [2; 2; 2]
       [NdArray [4; 4] (fun _ => 0%Q)] (1 # 2)
       (Some (NdArray [3; 2; 2] (fun _ => []))) Unset)
  = Raise ValueError
  /\ (fun out => (arr_item out [1; 1; 1], arr_item out [2; 1; 1]))
       <$> DistributedTransform.sink
             (DistributedTransform.distributed_apply_transform
                (fun coords _ _ _ =>
                   List.filter
                     (fun p : list Q =>
                        match p with x :: _ => Qle_bool x 0 | [] => false end)
                     coords)
                (fun fix_block _ _ _ _ _ _ _ => fix_block) (fun futures => futures)
                (NdArray [3; 2; 2] (fun idx => idx))
                (NdArray [3; 2; 2] (fun idx => idx))
                [1; 1; 1]%Q [1; 1; 1]%Q [2; 2; 2]
                [NdArray [4; 4] (fun _ => 0%Q)] (1 # 2)
                (Some (NdArray [3; 2; 2] (fun _ => []))) Unset)
     = Some ([1; 1; 1], []).
Proof.
  destruct (failed_block_leaves_partial_output
              (fun coords _ _ _ =>
                 List.filter
                   (fun p : list Q =>
                      match p with x :: _ => Qle_bool x 0 | [] => false end)
                   coords)
              (fun fix_block _ _ _ _ _ _ _ => fix_block)
              (fun futures => futures)
              (NdArray [3; 2; 2] (fun idx => idx))
              (NdArray [3; 2; 2] (fun idx => idx))
              [1; 1; 1]%Q [1; 1; 1]%Q [2; 2; 2]
              [NdArray [4; 4] (fun _ => 0%Q)] (1 # 2)
              (Some (NdArray [3; 2; 2] (fun _ => []))) Unset
              [DistributedTransform._transform_single_block
                 (fun coords _ _ _ =>
                    List.filter
                      (fun p : list Q =>
                         match p with x :: _ => Qle_bool x 0 | [] => false end)
                      coords)
                 (fun fix_block _ _ _ _ _ _ _ => fix_block)
                 [Slice 0 3; Slice 0 2; Slice 0 2]
                 (NdArray [3; 2; 2] (fun idx => idx))
                 (NdArray [3; 2; 2] (fun idx => idx))
                 [1; 1; 1]%Q [1; 1; 1]%Q [2; 2; 2] [1; 1; 1]
                 [NdArray [4; 4] (fun _ => 0%Q)] [[1; 1; 1]%Q]]
              [] ValueError)
    as (Hsink & _ & Hret).
  - reflexivity.
  - constructor; [|constructor]. eexists. reflexivity.
  - split.
    + apply Hret. reflexivity.
    + rewrite Hsink. reflexivity.
Defined.
